(** * The Hanabi game state: a shallow embedding of [hanabi_state.cc]

    The development follows hanabi_lib/hanabi_state.cc function by function.
    C++ [int] values are unbounded integers of [Z] (signed overflow is
    undefined in C++ and no function below relies on it); where the source
    compares or combines an [int] with a [size_t] the conversion to the
    unsigned 64-bit type is written out with [to_size_t].  A [double] is a
    binary64 float of [PrimFloat].  A call that does
    not return normally yields a [Fault]: a failed [REQUIRE], a failed
    [assert], [std::abort], an access outside a vector, or a division by
    zero.  Every function of the file is modelled except [ToString], which
    renders text through functions of hanabi_hand and util that are not
    among the sources. *)

From Stdlib Require Import ZArith QArith Qabs Lia.
From Stdlib Require PrimFloat FloatOps FloatAxioms SpecFloat Uint63.
From stdpp Require Import base tactics option list.

Local Open Scope Z_scope.

(** ** Results of fallible calls *)

Inductive fault : Set :=
  | RequireFailed    (* REQUIRE(expr) with expr false *)
  | AssertFailed     (* assert(expr) with expr false *)
  | Aborted          (* std::abort() *)
  | OutOfBounds      (* v[i] with i outside [0, v.size()) *)
  | DivisionByZero.  (* x / 0 or x % 0 *)

Inductive result (A : Type) : Type :=
  | Ok (a : A)
  | Fault (e : fault).
Arguments Ok {A} a.
Arguments Fault {A} e.

#[global] Instance result_ret : MRet result := @Ok.
#[global] Instance result_bind : MBind result :=
  λ A B f m, match m with Ok a => f a | Fault e => Fault e end.

Definition REQUIRE (b : bool) : result unit :=
  if b then Ok tt else Fault RequireFailed.

Definition assert (b : bool) : result unit :=
  if b then Ok tt else Fault AssertFailed.

(** [v[i]] for a [std::vector] and a signed index. *)
Definition vec_at {A} (v : list A) (i : Z) : result A :=
  if 0 <=? i then
    match v !! Z.to_nat i with
    | Some x => Ok x
    | None => Fault OutOfBounds
    end
  else Fault OutOfBounds.

(** [v[i] = x]. *)
Definition vec_set {A} (v : list A) (i : Z) (x : A) : result (list A) :=
  _ ← vec_at v i; Ok (<[Z.to_nat i := x]> v).

(** Conversion of a signed integer to [size_t] (64 bits). *)
Definition to_size_t (z : Z) : Z := z mod 2 ^ 64.

(** Conversion to [uint8_t]. *)
Definition to_uint8 (z : Z) : Z := z mod 2 ^ 8.

(** [v.size()] *)
Definition size {A} (v : list A) : Z := Z.of_nat (length v).

(** The integers [0, 1, ..., n-1] of a [for (int i = 0; i < n; ++i)] loop. *)
Definition upto (n : Z) : list Z := Z.of_nat <$> seq 0 (Z.to_nat n).

(** [std::accumulate(v.begin(), v.end(), 0)]: the elements added from left
    to right, starting from 0.  The [int] sum of the source is this sum as
    long as every partial sum [accumulate (take k v)] is an [int]. *)
Definition accumulate (v : list Z) : Z := foldl Z.add 0 v.

(** ** Cards *)

Module HanabiCard.
(** Modelled from the spec: the card value type of hanabi_card.h (a color
    and rank pair, or the invalid sentinel built by the default
    constructor); only its uses are in hanabi_state.cc. *)
Record t : Set := mk { Color : Z; Rank : Z }.

(** [HanabiCard()] *)
Definition invalid : t := mk (-1) (-1).

Definition IsValid (c : t) : bool := (0 <=? Color c) && (0 <=? Rank c).

#[global] Instance eq_dec : EqDecision t.
Proof. solve_decision. Defined.
End HanabiCard.

(** ** Moves *)

Module HanabiMove.
(** Modelled from the spec: the move value type of hanabi_move.h, a type
    tag with the fields read by [CardIndex()], [TargetOffset()],
    [Color()] and [Rank()]. *)
Inductive type : Set :=
  kInvalid | kPlay | kDiscard | kRevealColor | kRevealRank | kDeal.

Record t : Set := mk {
  MoveType : type;
  CardIndex : Z;
  TargetOffset : Z;
  Color : Z;
  Rank : Z }.

Definition Deal (color rank : Z) : t := mk kDeal (-1) (-1) color rank.
Definition Discard (i : Z) : t := mk kDiscard i (-1) (-1) (-1).
Definition Play (i : Z) : t := mk kPlay i (-1) (-1) (-1).
Definition RevealColor (target color : Z) : t :=
  mk kRevealColor (-1) target color (-1).
Definition RevealRank (target rank : Z) : t :=
  mk kRevealRank (-1) target (-1) rank.

#[global] Instance type_eq_dec : EqDecision type.
Proof. solve_decision. Defined.
#[global] Instance eq_dec : EqDecision t.
Proof. solve_decision. Defined.
End HanabiMove.

(** ** Game configuration *)

Module HanabiGame.
Inductive AgentObservationType : Set := kMinimal | kCardKnowledge | kSeer.

(** Modelled from the spec: the read-only configuration of hanabi_game.h,
    taken as a record of the values and tables that hanabi_state.cc reads
    through [ParentGame()]. *)
Record t : Type := mk {
  NumColors : Z;
  NumRanks : Z;
  NumPlayers : Z;
  HandSize : Z;
  MaxInformationTokens : Z;
  MaxLifeTokens : Z;
  ObservationType : AgentObservationType;
  NumberCardInstances : Z → Z → Z;
  MaxChanceOutcomes : Z;
  GetChanceOutcome : Z → HanabiMove.t;
  GetSampledStartPlayer : Z }.
End HanabiGame.

(** ** Hands *)

Module HanabiHand.
(** Modelled from the spec: the hand of hanabi_hand.h, an ordered sequence
    of cards each paired with a knowledge record; a hint marks the hinted
    value on the matching cards and rules it out on the others, and
    reports the matching positions that were not hinted before. *)
Record ValueKnowledge : Set := mkValue {
  value_ : Z;
  value_plausible_ : list bool }.

Definition new_value (value_range : Z) : ValueKnowledge :=
  mkValue (-1) (replicate (Z.to_nat value_range) true).

Definition ValueHinted (k : ValueKnowledge) : bool := 0 <=? value_ k.

Definition ApplyIsValueHint (k : ValueKnowledge) (value : Z) : ValueKnowledge :=
  mkValue value
    (<[Z.to_nat value := true]>
       (replicate (length (value_plausible_ k)) false)).

Definition ApplyIsNotValueHint (k : ValueKnowledge) (value : Z) : ValueKnowledge :=
  mkValue (value_ k) (<[Z.to_nat value := false]> (value_plausible_ k)).

Record CardKnowledge : Set := mkKnowledge {
  color_ : ValueKnowledge;
  rank_ : ValueKnowledge }.

(** [CardKnowledge(num_colors, num_ranks)] *)
Definition new_knowledge (num_colors num_ranks : Z) : CardKnowledge :=
  mkKnowledge (new_value num_colors) (new_value num_ranks).

Definition ColorHinted (k : CardKnowledge) : bool := ValueHinted (color_ k).
Definition RankHinted (k : CardKnowledge) : bool := ValueHinted (rank_ k).

Definition ApplyIsColorHint (k : CardKnowledge) (color : Z) : CardKnowledge :=
  mkKnowledge (ApplyIsValueHint (color_ k) color) (rank_ k).
Definition ApplyIsNotColorHint (k : CardKnowledge) (color : Z) : CardKnowledge :=
  mkKnowledge (ApplyIsNotValueHint (color_ k) color) (rank_ k).
Definition ApplyIsRankHint (k : CardKnowledge) (rank : Z) : CardKnowledge :=
  mkKnowledge (color_ k) (ApplyIsValueHint (rank_ k) rank).
Definition ApplyIsNotRankHint (k : CardKnowledge) (rank : Z) : CardKnowledge :=
  mkKnowledge (color_ k) (ApplyIsNotValueHint (rank_ k) rank).

Record t : Set := mk {
  Cards : list HanabiCard.t;
  Knowledge : list CardKnowledge }.

Definition empty : t := mk [] [].

(** [Clear()] *)
Definition Clear (h : t) : t := empty.

Definition AddCard (h : t) (card : HanabiCard.t) (k : CardKnowledge) : t :=
  mk (Cards h ++ [card]) (Knowledge h ++ [k]).

(** [RemoveFromHand(card_index, discard_pile)]: the pile is [None] for a
    null pointer; returns the hand and the pile after the call. *)
Definition RemoveFromHand (h : t) (card_index : Z)
    (discard_pile : option (list HanabiCard.t))
    : result (t * option (list HanabiCard.t)) :=
  card ← vec_at (Cards h) card_index;
  Ok (mk (delete (Z.to_nat card_index) (Cards h))
         (delete (Z.to_nat card_index) (Knowledge h)),
      (λ pile, pile ++ [card]) <$> discard_pile).

Definition SetCard (h : t) (index : Z) (card : HanabiCard.t)
    (k : CardKnowledge) : result t :=
  _ ← vec_at (Cards h) index;
  Ok (mk (<[Z.to_nat index := card]> (Cards h))
         (<[Z.to_nat index := k]> (Knowledge h))).

(** One step of the loop of a hint over position [i]: the mask so far and
    the knowledge of the card at [i]. *)
Definition reveal_step (matches : bool) (hinted : bool) (i : nat)
    (mask : Z) : Z :=
  if matches && negb hinted
  then to_uint8 (Z.lor mask (Z.shiftl 1 (Z.of_nat i)))
  else mask.

Fixpoint reveal_color_from (i : nat) (cards : list HanabiCard.t)
    (ks : list CardKnowledge) (color : Z) (mask : Z)
    : list CardKnowledge * Z :=
  match cards, ks with
  | c :: cards', k :: ks' =>
      let m := HanabiCard.Color c =? color in
      let k' := if m then ApplyIsColorHint k color
                else ApplyIsNotColorHint k color in
      let '(ks'', mask') :=
        reveal_color_from (S i) cards' ks' color
          (reveal_step m (ColorHinted k) i mask) in
      (k' :: ks'', mask')
  | _, _ => (ks, mask)
  end.

Fixpoint reveal_rank_from (i : nat) (cards : list HanabiCard.t)
    (ks : list CardKnowledge) (rank : Z) (mask : Z)
    : list CardKnowledge * Z :=
  match cards, ks with
  | c :: cards', k :: ks' =>
      let m := HanabiCard.Rank c =? rank in
      let k' := if m then ApplyIsRankHint k rank
                else ApplyIsNotRankHint k rank in
      let '(ks'', mask') :=
        reveal_rank_from (S i) cards' ks' rank
          (reveal_step m (RankHinted k) i mask) in
      (k' :: ks'', mask')
  | _, _ => (ks, mask)
  end.

(** [RevealColor(color)]: the updated hand and the bitmask of the newly
    revealed positions. *)
Definition RevealColor (h : t) (color : Z) : t * Z :=
  let '(ks, mask) := reveal_color_from 0 (Cards h) (Knowledge h) color 0 in
  (mk (Cards h) ks, mask).

Definition RevealRank (h : t) (rank : Z) : t * Z :=
  let '(ks, mask) := reveal_rank_from 0 (Cards h) (Knowledge h) rank 0 in
  (mk (Cards h) ks, mask).
End HanabiHand.

(** ** Bitmasks of the matching positions (anonymous namespace) *)

Fixpoint bitmask_from (i : nat) (matches : list bool) (mask : Z) : Z :=
  match matches with
  | [] => mask
  | m :: rest =>
      bitmask_from (S i) rest
        (if m then to_uint8 (Z.lor mask (Z.shiftl 1 (Z.of_nat i))) else mask)
  end.

Definition HandColorBitmask (hand : HanabiHand.t) (color : Z) : result Z :=
  let cards := HanabiHand.Cards hand in
  _ ← assert (size cards <=? 8);
  Ok (bitmask_from 0 ((λ c, HanabiCard.Color c =? color) <$> cards) 0).

Definition HandRankBitmask (hand : HanabiHand.t) (rank : Z) : result Z :=
  let cards := HanabiHand.Cards hand in
  _ ← assert (size cards <=? 8);
  Ok (bitmask_from 0 ((λ c, HanabiCard.Rank c =? rank) <$> cards) 0).

(** A [for] loop whose body can fail. *)
Fixpoint for_each {A S} (body : S → A → result S) (s : S) (l : list A)
    : result S :=
  match l with
  | [] => Ok s
  | x :: l' => s' ← body s x; for_each body s' l'
  end.

(** ** The card supply *)

Module HanabiDeck.
Record t : Set := mk {
  card_count_ : list Z;   (* remaining instances of each card *)
  total_count_ : Z;       (* total number of cards left *)
  num_ranks_ : Z }.       (* maps a card to its index *)

(** Modelled from the spec: the inline accessors of the deck declared in
    hanabi_state.h, the card to index mapping (color-major) and
    [Remaining], [RemainingOf], [IsEmpty]. *)
Definition CardToIndex (d : t) (color rank : Z) : Z :=
  color * num_ranks_ d + rank.

Definition IndexToColor (d : t) (index : Z) : result Z :=
  if num_ranks_ d =? 0 then Fault DivisionByZero
  else Ok (Z.quot index (num_ranks_ d)).

Definition IndexToRank (d : t) (index : Z) : result Z :=
  if num_ranks_ d =? 0 then Fault DivisionByZero
  else Ok (Z.rem index (num_ranks_ d)).

Definition Size (d : t) : Z := total_count_ d.

Definition Empty (d : t) : bool := total_count_ d =? 0.

Definition CardCount (d : t) (color rank : Z) : result Z :=
  vec_at (card_count_ d) (CardToIndex d color rank).

(** Body of the inner loop of the constructor. *)
Definition init_slot (game : HanabiGame.t) (color : Z) (d : t) (rank : Z)
    : result t :=
  let count := HanabiGame.NumberCardInstances game color rank in
  counts ← vec_set (card_count_ d) (CardToIndex d color rank) count;
  Ok (mk counts (total_count_ d + count) (num_ranks_ d)).

(** [HanabiDeck(game)] *)
Definition new (game : HanabiGame.t) : result t :=
  let num_colors := HanabiGame.NumColors game in
  let num_ranks := HanabiGame.NumRanks game in
  for_each
    (λ d color, for_each (init_slot game color) d (upto num_ranks))
    (mk (replicate (Z.to_nat (num_colors * num_ranks)) 0) 0 num_ranks)
    (upto num_colors).

(** [take d index]: the two decrements and the card built from the index,
    shared by both [DealCard] overloads. *)
Definition take (d : t) (index : Z) : result (HanabiCard.t * t) :=
  count ← vec_at (card_count_ d) index;
  _ ← assert (0 <? count);
  counts ← vec_set (card_count_ d) index (count - 1);
  color ← IndexToColor d index;
  rank ← IndexToRank d index;
  Ok (HanabiCard.mk color rank,
      mk counts (total_count_ d - 1) (num_ranks_ d)).

Section Random.
(** The state of the generator and [std::discrete_distribution] over integer
    weights: one draw returns an index and the next generator state. *)
Context {mt19937 : Type}.
Variable discrete_distribution : list Z → mt19937 → Z * mt19937.

(** [DealCard(std::mt19937* rng)] *)
Definition DealCardRandom (d : t) (rng : mt19937)
    : result (HanabiCard.t * t * mt19937) :=
  if Empty d then Ok (HanabiCard.invalid, d, rng)
  else
    let '(index, rng') := discrete_distribution (card_count_ d) rng in
    '(card, d') ← take d index;
    Ok (card, d', rng').
End Random.

(** [DealCard(int color, int rank)] *)
Definition DealCard (d : t) (color rank : Z) : result (HanabiCard.t * t) :=
  let index := CardToIndex d color rank in
  count ← vec_at (card_count_ d) index;
  if count <=? 0 then Ok (HanabiCard.invalid, d)
  else take d index.

(** [AddCard(int color, int rank)] *)
Definition AddCard (d : t) (color rank : Z) : result t :=
  let index := CardToIndex d color rank in
  count ← vec_at (card_count_ d) index;
  counts ← vec_set (card_count_ d) index (count + 1);
  Ok (mk counts (total_count_ d + 1) (num_ranks_ d)).

(** Body of the loop of [SetContent]: an invalid card is skipped. *)
Definition count_card_in (d : t) (card : HanabiCard.t) : result t :=
  if HanabiCard.IsValid card then
    let index := CardToIndex d (HanabiCard.Color card) (HanabiCard.Rank card) in
    count ← vec_at (card_count_ d) index;
    counts ← vec_set (card_count_ d) index (count + 1);
    Ok (mk counts (total_count_ d + 1) (num_ranks_ d))
  else Ok d.

(** [SetContent(cards)] *)
Definition SetContent (d : t) (cards : list HanabiCard.t) : result t :=
  for_each count_card_in
    (mk (replicate (length (card_count_ d)) 0) 0 (num_ranks_ d))
    cards.

End HanabiDeck.

(** ** The game state *)

Definition kChancePlayerId : Z := -1.

(** Modelled from the spec: the history record of hanabi_history_item.h, the
    applied move and its derived effects, built from the move with every
    other field at its default. *)
Record HanabiHistoryItem : Set := mkHistory {
  move : HanabiMove.t;
  player : Z;
  scored : bool;
  information_token : bool;
  color : Z;
  rank : Z;
  reveal_bitmask : Z;
  newly_revealed_bitmask : Z;
  deal_to_player : Z }.

Definition new_history (m : HanabiMove.t) : HanabiHistoryItem :=
  mkHistory m (-1) false false (-1) (-1) 0 0 (-1).

Inductive EndOfGameType : Set :=
  kNotFinished | kOutOfLifeTokens | kOutOfCards | kCompletedFireworks.

Record HanabiState : Type := mkState {
  parent_game_ : HanabiGame.t;
  deck_ : HanabiDeck.t;
  discard_pile_ : list HanabiCard.t;
  hands_ : list HanabiHand.t;
  move_history_ : list HanabiHistoryItem;
  cur_player_ : Z;
  next_non_chance_player_ : Z;
  information_tokens_ : Z;
  life_tokens_ : Z;
  fireworks_ : list Z;
  turns_to_play_ : Z }.

(** Assignments to single members. *)
Definition set_deck (s : HanabiState) (d : HanabiDeck.t) : HanabiState :=
  mkState (parent_game_ s) d (discard_pile_ s) (hands_ s) (move_history_ s)
    (cur_player_ s) (next_non_chance_player_ s) (information_tokens_ s)
    (life_tokens_ s) (fireworks_ s) (turns_to_play_ s).
Definition set_discard_pile (s : HanabiState) (p : list HanabiCard.t) : HanabiState :=
  mkState (parent_game_ s) (deck_ s) p (hands_ s) (move_history_ s)
    (cur_player_ s) (next_non_chance_player_ s) (information_tokens_ s)
    (life_tokens_ s) (fireworks_ s) (turns_to_play_ s).
Definition set_hands (s : HanabiState) (h : list HanabiHand.t) : HanabiState :=
  mkState (parent_game_ s) (deck_ s) (discard_pile_ s) h (move_history_ s)
    (cur_player_ s) (next_non_chance_player_ s) (information_tokens_ s)
    (life_tokens_ s) (fireworks_ s) (turns_to_play_ s).
Definition set_move_history (s : HanabiState) (h : list HanabiHistoryItem) : HanabiState :=
  mkState (parent_game_ s) (deck_ s) (discard_pile_ s) (hands_ s) h
    (cur_player_ s) (next_non_chance_player_ s) (information_tokens_ s)
    (life_tokens_ s) (fireworks_ s) (turns_to_play_ s).
Definition set_players (s : HanabiState) (cur next : Z) : HanabiState :=
  mkState (parent_game_ s) (deck_ s) (discard_pile_ s) (hands_ s)
    (move_history_ s) cur next (information_tokens_ s)
    (life_tokens_ s) (fireworks_ s) (turns_to_play_ s).
Definition set_information_tokens (s : HanabiState) (n : Z) : HanabiState :=
  mkState (parent_game_ s) (deck_ s) (discard_pile_ s) (hands_ s)
    (move_history_ s) (cur_player_ s) (next_non_chance_player_ s) n
    (life_tokens_ s) (fireworks_ s) (turns_to_play_ s).
Definition set_life_tokens (s : HanabiState) (n : Z) : HanabiState :=
  mkState (parent_game_ s) (deck_ s) (discard_pile_ s) (hands_ s)
    (move_history_ s) (cur_player_ s) (next_non_chance_player_ s)
    (information_tokens_ s) n (fireworks_ s) (turns_to_play_ s).
Definition set_fireworks (s : HanabiState) (f : list Z) : HanabiState :=
  mkState (parent_game_ s) (deck_ s) (discard_pile_ s) (hands_ s)
    (move_history_ s) (cur_player_ s) (next_non_chance_player_ s)
    (information_tokens_ s) (life_tokens_ s) f (turns_to_play_ s).
Definition set_turns_to_play (s : HanabiState) (n : Z) : HanabiState :=
  mkState (parent_game_ s) (deck_ s) (discard_pile_ s) (hands_ s)
    (move_history_ s) (cur_player_ s) (next_non_chance_player_ s)
    (information_tokens_ s) (life_tokens_ s) (fireworks_ s) n.

(** Modelled from the spec: the inline accessors of hanabi_state.h. *)
Definition ParentGame (s : HanabiState) : HanabiGame.t := parent_game_ s.
Definition LifeTokens (s : HanabiState) : Z := life_tokens_ s.
Definition InformationTokens (s : HanabiState) : Z := information_tokens_ s.
Definition CurPlayer (s : HanabiState) : Z := cur_player_ s.

(** Modelled from the spec: [HandByOffset(offset)] of hanabi_state.h, the
    hand of the player [offset] seats after the acting player; the position
    in [hands_] is returned with the hand. *)
Definition HandByOffset (s : HanabiState) (offset : Z)
    : result (Z * HanabiHand.t) :=
  if size (hands_ s) =? 0 then Fault DivisionByZero
  else
    let i := to_size_t (cur_player_ s + offset) mod size (hands_ s) in
    hand ← vec_at (hands_ s) i;
    Ok (i, hand).

(** [HanabiState(parent_game, start_player)].  [hands_] is built with
    [NumPlayers()] hands and [fireworks_] with [NumColors()] counters: the
    definition is the constructor for non-negative numbers of players and
    colors, which the properties of the constructor assume; with a negative
    number the vector cannot be built and the constructor does not
    return. *)
Definition new_state (parent_game : HanabiGame.t) (start_player : Z)
    : result HanabiState :=
  deck ← HanabiDeck.new parent_game;
  Ok (mkState parent_game deck []
        (replicate (Z.to_nat (HanabiGame.NumPlayers parent_game))
           HanabiHand.empty)
        []
        kChancePlayerId
        (if (0 <=? start_player)
            && (start_player <? HanabiGame.NumPlayers parent_game)
         then start_player
         else HanabiGame.GetSampledStartPlayer parent_game)
        (HanabiGame.MaxInformationTokens parent_game)
        (HanabiGame.MaxLifeTokens parent_game)
        (replicate (Z.to_nat (HanabiGame.NumColors parent_game)) 0)
        (HanabiGame.NumPlayers parent_game)).

Fixpoint PlayerToDeal_from (i : Z) (hands : list HanabiHand.t)
    (hand_size : Z) : Z :=
  match hands with
  | [] => -1
  | h :: rest =>
      if size (HanabiHand.Cards h) <? to_size_t hand_size then i
      else PlayerToDeal_from (i + 1) rest hand_size
  end.

Definition PlayerToDeal (s : HanabiState) : Z :=
  PlayerToDeal_from 0 (hands_ s) (HanabiGame.HandSize (ParentGame s)).

Definition AdvanceToNextPlayer (s : HanabiState) : result HanabiState :=
  if negb (HanabiDeck.Empty (deck_ s)) && (0 <=? PlayerToDeal s) then
    Ok (set_players s kChancePlayerId (next_non_chance_player_ s))
  else
    let cur := next_non_chance_player_ s in
    if size (hands_ s) =? 0 then Fault DivisionByZero
    else Ok (set_players s cur (to_size_t (cur + 1) mod size (hands_ s))).

Definition IncrementInformationTokens (s : HanabiState)
    : HanabiState * bool :=
  if information_tokens_ s
       <? HanabiGame.MaxInformationTokens (ParentGame s) then
    (set_information_tokens s (information_tokens_ s + 1), true)
  else (s, false).

Definition DecrementInformationTokens (s : HanabiState)
    : result HanabiState :=
  _ ← assert (0 <? information_tokens_ s);
  Ok (set_information_tokens s (information_tokens_ s - 1)).

Definition DecrementLifeTokens (s : HanabiState) : result HanabiState :=
  _ ← assert (0 <? life_tokens_ s);
  Ok (set_life_tokens s (life_tokens_ s - 1)).

(** [CardPlayableOnFireworks(int color, int rank)] *)
Definition CardPlayableOnFireworks (s : HanabiState) (color rank : Z)
    : result bool :=
  if (color <? 0) || (color >=? HanabiGame.NumColors (ParentGame s)) then
    Ok false
  else
    progress ← vec_at (fireworks_ s) color;
    Ok (rank =? progress).

(** [AddToFireworks(card)]: the state after the call and the pair
    (scored, information token gained). *)
Definition AddToFireworks (s : HanabiState) (card : HanabiCard.t)
    : result (HanabiState * (bool * bool)) :=
  playable ← CardPlayableOnFireworks s
    (HanabiCard.Color card) (HanabiCard.Rank card);
  if playable : bool then
    progress ← vec_at (fireworks_ s) (HanabiCard.Color card);
    fireworks ← vec_set (fireworks_ s) (HanabiCard.Color card) (progress + 1);
    let s1 := set_fireworks s fireworks in
    if progress + 1 =? HanabiGame.NumRanks (ParentGame s1) then
      let '(s2, gained) := IncrementInformationTokens s1 in
      Ok (s2, (true, gained))
    else Ok (s1, (true, false))
  else
    s1 ← DecrementLifeTokens s;
    Ok (s1, (false, false)).

Definition HintingIsLegal (s : HanabiState) (m : HanabiMove.t) : bool :=
  if InformationTokens s <=? 0 then false
  else if (HanabiMove.TargetOffset m <? 1)
          || (HanabiMove.TargetOffset m
                >=? HanabiGame.NumPlayers (ParentGame s))
  then false
  else true.

Definition MoveIsLegal (s : HanabiState) (m : HanabiMove.t) : result bool :=
  match HanabiMove.MoveType m with
  | HanabiMove.kDeal =>
      if negb (cur_player_ s =? kChancePlayerId) then Ok false
      else
        count ← HanabiDeck.CardCount (deck_ s)
          (HanabiMove.Color m) (HanabiMove.Rank m);
        if count =? 0 then Ok false else Ok true
  | HanabiMove.kDiscard =>
      if InformationTokens s
           >=? HanabiGame.MaxInformationTokens (ParentGame s)
      then Ok false
      else
        hand ← vec_at (hands_ s) (cur_player_ s);
        if to_size_t (HanabiMove.CardIndex m)
             >=? size (HanabiHand.Cards hand)
        then Ok false else Ok true
  | HanabiMove.kPlay =>
      hand ← vec_at (hands_ s) (cur_player_ s);
      if to_size_t (HanabiMove.CardIndex m)
           >=? size (HanabiHand.Cards hand)
      then Ok false else Ok true
  | HanabiMove.kRevealColor =>
      if negb (HintingIsLegal s m) then Ok false
      else
        '(_, hand) ← HandByOffset s (HanabiMove.TargetOffset m);
        if negb (existsb
                   (λ card, HanabiCard.Color card =? HanabiMove.Color m)
                   (HanabiHand.Cards hand))
        then Ok false else Ok true
  | HanabiMove.kRevealRank =>
      if negb (HintingIsLegal s m) then Ok false
      else
        '(_, hand) ← HandByOffset s (HanabiMove.TargetOffset m);
        if negb (existsb
                   (λ card, HanabiCard.Rank card =? HanabiMove.Rank m)
                   (HanabiHand.Cards hand))
        then Ok false else Ok true
  | HanabiMove.kInvalid => Ok false
  end.

(** The [switch] of [ApplyMove]: the effect of the move on the state and on
    the history record under construction. *)
Definition apply_effect (s : HanabiState) (m : HanabiMove.t)
    (history : HanabiHistoryItem) : result (HanabiState * HanabiHistoryItem) :=
  let game := ParentGame s in
  match HanabiMove.MoveType m with
  | HanabiMove.kDeal =>
      let to_player := PlayerToDeal s in
      let fresh :=
        HanabiHand.new_knowledge
          (HanabiGame.NumColors game) (HanabiGame.NumRanks game) in
      let card_knowledge :=
        match HanabiGame.ObservationType game with
        | HanabiGame.kSeer =>
            HanabiHand.ApplyIsRankHint
              (HanabiHand.ApplyIsColorHint fresh (HanabiMove.Color m))
              (HanabiMove.Rank m)
        | _ => fresh
        end in
      '(card, deck) ← HanabiDeck.DealCard (deck_ s)
        (HanabiMove.Color m) (HanabiMove.Rank m);
      hand ← vec_at (hands_ s) to_player;
      hands ← vec_set (hands_ s) to_player
        (HanabiHand.AddCard hand card card_knowledge);
      Ok (set_hands (set_deck s deck) hands,
          mkHistory (move history) (player history) (scored history)
            (information_token history) (color history) (rank history)
            (reveal_bitmask history) (newly_revealed_bitmask history)
            to_player)
  | HanabiMove.kDiscard =>
      let '(s1, gained) := IncrementInformationTokens s in
      hand ← vec_at (hands_ s1) (cur_player_ s1);
      card ← vec_at (HanabiHand.Cards hand) (HanabiMove.CardIndex m);
      '(hand', pile) ← HanabiHand.RemoveFromHand hand
        (HanabiMove.CardIndex m) (Some (discard_pile_ s1));
      hands ← vec_set (hands_ s1) (cur_player_ s1) hand';
      Ok (set_discard_pile (set_hands s1 hands)
            (default (discard_pile_ s1) pile),
          mkHistory (move history) (player history) (scored history)
            gained (HanabiCard.Color card) (HanabiCard.Rank card)
            (reveal_bitmask history) (newly_revealed_bitmask history)
            (deal_to_player history))
  | HanabiMove.kPlay =>
      hand ← vec_at (hands_ s) (cur_player_ s);
      card ← vec_at (HanabiHand.Cards hand) (HanabiMove.CardIndex m);
      '(s1, (did_score, gained)) ← AddToFireworks s card;
      '(hand', pile) ← HanabiHand.RemoveFromHand hand
        (HanabiMove.CardIndex m)
        (if did_score : bool then None else Some (discard_pile_ s1));
      hands ← vec_set (hands_ s1) (cur_player_ s1) hand';
      Ok (set_discard_pile (set_hands s1 hands)
            (default (discard_pile_ s1) pile),
          mkHistory (move history) (player history) did_score
            gained (HanabiCard.Color card) (HanabiCard.Rank card)
            (reveal_bitmask history) (newly_revealed_bitmask history)
            (deal_to_player history))
  | HanabiMove.kRevealColor =>
      s1 ← DecrementInformationTokens s;
      '(i, hand) ← HandByOffset s1 (HanabiMove.TargetOffset m);
      mask ← HandColorBitmask hand (HanabiMove.Color m);
      let '(hand', newly) := HanabiHand.RevealColor hand (HanabiMove.Color m) in
      hands ← vec_set (hands_ s1) i hand';
      Ok (set_hands s1 hands,
          mkHistory (move history) (player history) (scored history)
            (information_token history) (color history) (rank history)
            mask newly (deal_to_player history))
  | HanabiMove.kRevealRank =>
      s1 ← DecrementInformationTokens s;
      '(i, hand) ← HandByOffset s1 (HanabiMove.TargetOffset m);
      mask ← HandRankBitmask hand (HanabiMove.Rank m);
      let '(hand', newly) := HanabiHand.RevealRank hand (HanabiMove.Rank m) in
      hands ← vec_set (hands_ s1) i hand';
      Ok (set_hands s1 hands,
          mkHistory (move history) (player history) (scored history)
            (information_token history) (color history) (rank history)
            mask newly (deal_to_player history))
  | HanabiMove.kInvalid => Fault Aborted
  end.

Definition ApplyMove (s : HanabiState) (m : HanabiMove.t)
    : result HanabiState :=
  legal ← MoveIsLegal s m;
  _ ← REQUIRE legal;
  let s0 :=
    if HanabiDeck.Empty (deck_ s)
    then set_turns_to_play s (turns_to_play_ s - 1) else s in
  let history :=
    mkHistory m (cur_player_ s0) false false (-1) (-1) 0 0 (-1) in
  '(s1, history) ← apply_effect s0 m history;
  AdvanceToNextPlayer
    (set_move_history s1 (move_history_ s1 ++ [history])).

(** [static_cast<double>(n)] for an [int]. *)
Definition to_double (n : Z) : PrimFloat.float :=
  if 0 <=? n then PrimFloat.of_uint63 (Uint63.of_Z n)
  else PrimFloat.opp (PrimFloat.of_uint63 (Uint63.of_Z (- n))).

Definition ChanceOutcomeProb (s : HanabiState) (m : HanabiMove.t)
    : result PrimFloat.float :=
  count ← HanabiDeck.CardCount (deck_ s)
    (HanabiMove.Color m) (HanabiMove.Rank m);
  Ok (PrimFloat.div (to_double count)
        (to_double (HanabiDeck.Size (deck_ s)))).

Definition ChanceOutcomes (s : HanabiState)
    : result (list HanabiMove.t * list PrimFloat.float) :=
  let game := ParentGame s in
  for_each
    (λ rv uid,
       let m := HanabiGame.GetChanceOutcome game uid in
       legal ← MoveIsLegal s m;
       if legal : bool then
         p ← ChanceOutcomeProb s m;
         Ok (rv.1 ++ [m], rv.2 ++ [p])
       else Ok rv)
    ([], [])
    (upto (HanabiGame.MaxChanceOutcomes game)).

Definition Score (s : HanabiState) : Z :=
  if LifeTokens s <=? 0 then 0 else accumulate (fireworks_ s).

Definition EndOfGameStatus (s : HanabiState) : EndOfGameType :=
  let game := ParentGame s in
  if LifeTokens s <? 1 then kOutOfLifeTokens
  else if Score s >=? HanabiGame.NumColors game * HanabiGame.NumRanks game
  then kCompletedFireworks
  else if turns_to_play_ s <=? 0 then kOutOfCards
  else kNotFinished.

(** The setters used to force a state. *)
Definition SetLifeTokens (s : HanabiState) (life_tokens : Z) : HanabiState :=
  set_life_tokens s life_tokens.

Definition SetFireworks (s : HanabiState) (fireworks : list Z)
    : result HanabiState :=
  _ ← REQUIRE (size fireworks =? size (fireworks_ s));
  Ok (set_fireworks s fireworks).

Definition SetHandCard (s : HanabiState) (player card_index : Z)
    (card : HanabiCard.t) : result HanabiState :=
  let game := ParentGame s in
  _ ← REQUIRE ((0 <=? player) && (to_size_t player <? size (hands_ s)));
  hand ← vec_at (hands_ s) player;
  _ ← REQUIRE ((0 <=? card_index)
               && (to_size_t card_index <? size (HanabiHand.Cards hand)));
  _ ← REQUIRE (HanabiCard.IsValid card);
  (* 1. Return old card to deck *)
  old_card ← vec_at (HanabiHand.Cards hand) card_index;
  deck1 ←
    (if HanabiCard.IsValid old_card then
       HanabiDeck.AddCard (deck_ s)
         (HanabiCard.Color old_card) (HanabiCard.Rank old_card)
     else Ok (deck_ s));
  (* 2. Take new card from deck *)
  '(dealt_card, deck2) ← HanabiDeck.DealCard deck1
    (HanabiCard.Color card) (HanabiCard.Rank card);
  (* 3. Update hand *)
  let knowledge :=
    HanabiHand.new_knowledge
      (HanabiGame.NumColors game) (HanabiGame.NumRanks game) in
  hand' ← HanabiHand.SetCard hand card_index card knowledge;
  hands ← vec_set (hands_ s) player hand';
  Ok (set_hands (set_deck s deck2) hands).

Definition SetInformationTokens (s : HanabiState) (information_tokens : Z)
    : HanabiState :=
  set_information_tokens s information_tokens.

Definition SetDiscardPile (s : HanabiState) (discard_pile : list HanabiCard.t)
    : HanabiState :=
  set_discard_pile s discard_pile.

Definition SetHand (s : HanabiState) (player_id : Z)
    (cards : list HanabiCard.t) : result HanabiState :=
  let game := ParentGame s in
  _ ← REQUIRE ((0 <=? player_id) && (to_size_t player_id <? size (hands_ s)));
  hand ← vec_at (hands_ s) player_id;
  (* Re-initialize knowledge for new cards *)
  let knowledge :=
    HanabiHand.new_knowledge
      (HanabiGame.NumColors game) (HanabiGame.NumRanks game) in
  let hand' :=
    foldl (λ h card, HanabiHand.AddCard h card knowledge)
      (HanabiHand.Clear hand) cards in
  hands ← vec_set (hands_ s) player_id hand';
  Ok (set_hands s hands).

Definition SetDeck (s : HanabiState) (cards : list HanabiCard.t)
    : result HanabiState :=
  deck ← HanabiDeck.SetContent (deck_ s) cards;
  Ok (set_deck s deck).

Definition SetCurPlayer (s : HanabiState) (cur_player : Z) : HanabiState :=
  set_players s cur_player (next_non_chance_player_ s).

Section Catalog.
(** Modelled from the spec: the move catalog of the configuration and its
    sampler of chance outcomes, declared in hanabi_game.h: [MaxMoves()] and
    [GetMove(uid)] enumerate and decode all possible moves, and
    [PickRandomChance(outcomes)] samples one of the chance outcomes handed
    to it. *)
Variable MaxMoves : HanabiGame.t → Z.
Variable GetMove : HanabiGame.t → Z → HanabiMove.t.
Variable PickRandomChance :
  HanabiGame.t → list HanabiMove.t * list PrimFloat.float → HanabiMove.t.

Definition ApplyRandomChance (s : HanabiState) : result HanabiState :=
  chance_outcomes ← ChanceOutcomes s;
  _ ← REQUIRE (negb (match chance_outcomes.2 with [] => true | _ => false end));
  ApplyMove s (PickRandomChance (ParentGame s) chance_outcomes).

Definition LegalMoves (s : HanabiState) (player : Z)
    : result (list HanabiMove.t) :=
  let game := ParentGame s in
  (* kChancePlayer=-1 must be handled by ChanceOutcome. *)
  _ ← REQUIRE ((0 <=? player) && (player <? HanabiGame.NumPlayers game));
  if negb (player =? cur_player_ s) then
    (* Turn-based game. Empty move list for other players. *)
    Ok []
  else
    for_each
      (λ movelist uid,
         let m := GetMove game uid in
         legal ← MoveIsLegal s m;
         if legal : bool then Ok (movelist ++ [m]) else Ok movelist)
      []
      (upto (MaxMoves game)).
End Catalog.

(** * Specifications and examples

    The predicates in which the properties are stated, and the example
    configurations and states at which they are instantiated. *)

Definition sumZ (v : list Z) : Z := foldr Z.add 0 v.

(** The identities of the game: colors and ranks within the configured
    ranges. *)
Definition in_range (game : HanabiGame.t) (c r : Z) : Prop :=
  0 ≤ c < HanabiGame.NumColors game ∧ 0 ≤ r < HanabiGame.NumRanks game.

(** The class invariant of the supply: one non-negative counter per identity
    and their sum in [total_count_]. *)
Record deck_wf (game : HanabiGame.t) (d : HanabiDeck.t) : Prop := {
  deck_wf_ranks : HanabiDeck.num_ranks_ d = HanabiGame.NumRanks game;
  deck_wf_size :
    size (HanabiDeck.card_count_ d)
    = HanabiGame.NumColors game * HanabiGame.NumRanks game;
  deck_wf_nonneg : Forall (λ n, 0 ≤ n) (HanabiDeck.card_count_ d);
  deck_wf_total :
    HanabiDeck.total_count_ d = sumZ (HanabiDeck.card_count_ d) }.

(** The deck after one counter moved from [n] to [n'] at [index]. *)
Definition deck_with (d : HanabiDeck.t) (index n n' : Z) : HanabiDeck.t :=
  HanabiDeck.mk (<[Z.to_nat index := n']> (HanabiDeck.card_count_ d))
    (HanabiDeck.total_count_ d - n + n') (HanabiDeck.num_ranks_ d).

(** The contract of [std::discrete_distribution] used by the random draw:
    when some weight is positive, the drawn index is one of positive
    weight. *)
Definition draws_positive_weight {mt19937 : Type}
    (dist : list Z → mt19937 → Z * mt19937) : Prop :=
  ∀ weights rng,
    Forall (λ w, 0 ≤ w) weights → 0 < sumZ weights →
    ∃ w, vec_at weights (dist weights rng).1 = Ok w ∧ 0 < w.

(** What one successful draw of the identity [(c, r)] does to the supply. *)
Definition drawn_from (game : HanabiGame.t) (d d' : HanabiDeck.t) (c r : Z)
    : Prop :=
  deck_wf game d' ∧
  (∃ n, HanabiDeck.CardCount d c r = Ok n ∧ 0 < n ∧
        HanabiDeck.CardCount d' c r = Ok (n - 1)) ∧
  HanabiDeck.Size d' = HanabiDeck.Size d - 1 ∧
  ∀ c' r', in_range game c' r' → (c', r') ≠ (c, r) →
    HanabiDeck.CardCount d' c' r' = HanabiDeck.CardCount d c' r'.

(** The supply while the constructor runs: the counters of the first [k]
    indices hold the configured multiplicities, the others are still zero. *)
Record deck_filled (game : HanabiGame.t) (k : Z) (d : HanabiDeck.t) : Prop := {
  filled_ranks : HanabiDeck.num_ranks_ d = HanabiGame.NumRanks game;
  filled_size :
    size (HanabiDeck.card_count_ d)
    = HanabiGame.NumColors game * HanabiGame.NumRanks game;
  filled_counts : ∀ i,
    0 ≤ i < HanabiGame.NumColors game * HanabiGame.NumRanks game →
    vec_at (HanabiDeck.card_count_ d) i
    = Ok (if i <? k then
            HanabiGame.NumberCardInstances game
              (Z.quot i (HanabiGame.NumRanks game))
              (Z.rem i (HanabiGame.NumRanks game))
          else 0);
  filled_total : HanabiDeck.total_count_ d = sumZ (HanabiDeck.card_count_ d) }.

(** The requirements on a configuration: sizes are non-negative [int]
    values and multiplicities are non-negative. *)
Record game_wf (game : HanabiGame.t) : Prop := {
  game_colors : 0 ≤ HanabiGame.NumColors game;
  game_ranks : 0 ≤ HanabiGame.NumRanks game;
  game_players : 0 < HanabiGame.NumPlayers game < 2 ^ 31;
  game_hand_size : 0 ≤ HanabiGame.HandSize game < 2 ^ 31;
  game_information_tokens : 0 ≤ HanabiGame.MaxInformationTokens game;
  game_life_tokens : 0 ≤ HanabiGame.MaxLifeTokens game;
  game_instances : ∀ c r, 0 ≤ HanabiGame.NumberCardInstances game c r;
  game_start_player :
    0 ≤ HanabiGame.GetSampledStartPlayer game < HanabiGame.NumPlayers game }.

(** An example configuration: two players, five colors, five ranks, hands
    of five cards, eight information tokens, three life tokens, with three,
    two, two, two and one copies of the ranks of each color. *)
Definition example_instances (c r : Z) : Z :=
  if (c <? 0) || (5 <=? c) || (r <? 0) || (5 <=? r) then 0
  else if r =? 0 then 3 else if r =? 4 then 1 else 2.

Definition example_game : HanabiGame.t :=
  HanabiGame.mk 5 5 2 5 8 3 HanabiGame.kCardKnowledge example_instances
    25 (λ uid, HanabiMove.Deal (Z.quot uid 5) (Z.rem uid 5)) 0.

Definition example_deck : HanabiDeck.t :=
  HanabiDeck.mk
    [3; 2; 2; 2; 1; 3; 2; 2; 2; 1; 3; 2; 2; 2; 1; 3; 2; 2; 2; 1; 3; 2; 2; 2; 1]
    50 5.

(** A deterministic stand-in for the random draw: the first index of
    positive weight; the generator state counts the draws. *)
Fixpoint first_positive (i : Z) (weights : list Z) : Z :=
  match weights with
  | [] => i
  | w :: rest => if 0 <? w then i else first_positive (i + 1) rest
  end.

Definition example_distribution (weights : list Z) (rng : nat) : Z * nat :=
  (first_positive 0 weights, S rng).

(** The structural invariant of a state: the supply is consistent, there is
    one hand per player and one fireworks counter per color, and the two
    actor fields name the chance actor or a player. *)
Record state_wf (s : HanabiState) : Prop := {
  wf_game : game_wf (ParentGame s);
  wf_deck : deck_wf (ParentGame s) (deck_ s);
  wf_hands : size (hands_ s) = HanabiGame.NumPlayers (ParentGame s);
  wf_cur_player :
    cur_player_ s = kChancePlayerId
    ∨ 0 ≤ cur_player_ s < HanabiGame.NumPlayers (ParentGame s);
  wf_next_player :
    0 ≤ next_non_chance_player_ s < HanabiGame.NumPlayers (ParentGame s);
  wf_fireworks : size (fireworks_ s) = HanabiGame.NumColors (ParentGame s) }.

Definition is_deal (m : HanabiMove.t) : bool :=
  bool_decide (HanabiMove.MoveType m = HanabiMove.kDeal).

(** The state and the history record that [ApplyMove] hands to the
    [switch]: the countdown step is already taken. *)
Definition before_effect (s : HanabiState) : HanabiState :=
  if HanabiDeck.Empty (deck_ s)
  then set_turns_to_play s (turns_to_play_ s - 1) else s.

(** The fields of a move are C++ [int] values. *)
Definition is_int (z : Z) : Prop := - 2 ^ 31 ≤ z < 2 ^ 31.

Record move_wf (m : HanabiMove.t) : Prop := {
  move_card_index : is_int (HanabiMove.CardIndex m);
  move_target_offset : is_int (HanabiMove.TargetOffset m);
  move_color : is_int (HanabiMove.Color m);
  move_rank : is_int (HanabiMove.Rank m) }.

(** A vector holds fewer than 2^63 elements. *)
Definition hands_sized (s : HanabiState) : Prop :=
  Forall (λ h, size (HanabiHand.Cards h) < 2 ^ 63) (hands_ s).

(** The hand a hint is aimed at: [offset] seats after the acting player. *)
Definition target_hand (s : HanabiState) (offset : Z) : option HanabiHand.t :=
  hands_ s
    !! Z.to_nat ((cur_player_ s + offset)
                 mod HanabiGame.NumPlayers (ParentGame s)).

(** The legality table of the specification, row by row. *)
Definition legal_by_table (s : HanabiState) (m : HanabiMove.t) : Prop :=
  let game := ParentGame s in
  match HanabiMove.MoveType m with
  | HanabiMove.kDeal =>
      cur_player_ s = kChancePlayerId ∧
      ∃ n, HanabiDeck.CardCount (deck_ s)
             (HanabiMove.Color m) (HanabiMove.Rank m) = Ok n ∧ 0 < n
  | HanabiMove.kDiscard =>
      InformationTokens s < HanabiGame.MaxInformationTokens game ∧
      ∃ hand, vec_at (hands_ s) (cur_player_ s) = Ok hand ∧
              0 ≤ HanabiMove.CardIndex m < size (HanabiHand.Cards hand)
  | HanabiMove.kPlay =>
      ∃ hand, vec_at (hands_ s) (cur_player_ s) = Ok hand ∧
              0 ≤ HanabiMove.CardIndex m < size (HanabiHand.Cards hand)
  | HanabiMove.kRevealColor =>
      0 < InformationTokens s ∧
      1 ≤ HanabiMove.TargetOffset m < HanabiGame.NumPlayers game ∧
      ∃ hand card,
        target_hand s (HanabiMove.TargetOffset m) = Some hand ∧
        card ∈ HanabiHand.Cards hand ∧
        HanabiCard.Color card = HanabiMove.Color m
  | HanabiMove.kRevealRank =>
      0 < InformationTokens s ∧
      1 ≤ HanabiMove.TargetOffset m < HanabiGame.NumPlayers game ∧
      ∃ hand card,
        target_hand s (HanabiMove.TargetOffset m) = Some hand ∧
        card ∈ HanabiHand.Cards hand ∧
        HanabiCard.Rank card = HanabiMove.Rank m
  | HanabiMove.kInvalid => False
  end.

(** The inputs on which [MoveIsLegal] reads inside its vectors: a Play or a
    Discard needs a player as the current actor, a Deal asked of the chance
    actor needs an identity of the game. *)
Definition legality_defined (s : HanabiState) (m : HanabiMove.t) : Prop :=
  match HanabiMove.MoveType m with
  | HanabiMove.kPlay | HanabiMove.kDiscard => cur_player_ s ≠ kChancePlayerId
  | HanabiMove.kDeal =>
      in_range (ParentGame s) (HanabiMove.Color m) (HanabiMove.Rank m)
  | _ => True
  end.

(** A deal is due: the supply is non-empty and some hand is below the full
    hand size. *)
Definition deal_due (s : HanabiState) : Prop :=
  HanabiDeck.Empty (deck_ s) = false ∧
  ∃ hand, hand ∈ hands_ s ∧
          size (HanabiHand.Cards hand) < HanabiGame.HandSize (ParentGame s).

(** The card is playable: its rank equals the fireworks progress of its
    color. *)
Definition plays_on_fireworks (s : HanabiState) (card : HanabiCard.t) : Prop :=
  vec_at (fireworks_ s) (HanabiCard.Color card) = Ok (HanabiCard.Rank card).

#[global] Instance fault_eq_dec : EqDecision fault.
Proof. solve_decision. Defined.

#[global] Instance result_eq_dec {A} `{EqDecision A} : EqDecision (result A).
Proof. solve_decision. Defined.

#[global] Instance plays_on_fireworks_dec s card :
  Decision (plays_on_fireworks s card).
Proof. unfold plays_on_fireworks. apply _. Defined.

(** The number of information tokens a scoring play of [card] recovers. *)
Definition play_bonus (s : HanabiState) (card : HanabiCard.t) : Z :=
  if decide (HanabiCard.Rank card + 1 = HanabiGame.NumRanks (ParentGame s)
             ∧ information_tokens_ s
               < HanabiGame.MaxInformationTokens (ParentGame s))
  then 1 else 0.

(** The hand after the card at [i] left it. *)
Definition hand_without (hand : HanabiHand.t) (i : Z) : HanabiHand.t :=
  HanabiHand.mk (delete (Z.to_nat i) (HanabiHand.Cards hand))
                (delete (Z.to_nat i) (HanabiHand.Knowledge hand)).

(** The state [s'] after the card at [i] of [hand], the hand of the current
    player of [s], was played. *)
Record played (s : HanabiState) (hand : HanabiHand.t) (i : Z)
    (card : HanabiCard.t) (s' : HanabiState) : Prop := {
  played_hand :
    hands_ s'
    = <[Z.to_nat (cur_player_ s) := hand_without hand i]> (hands_ s);
  played_deck : deck_ s' = deck_ s;
  played_history :
    ∃ h, move_history_ s' = move_history_ s ++ [h] ∧
         scored h = bool_decide (plays_on_fireworks s card) ∧
         information_token h
         = bool_decide (plays_on_fireworks s card ∧ play_bonus s card = 1);
  played_scored :
    plays_on_fireworks s card →
    fireworks_ s'
    = <[Z.to_nat (HanabiCard.Color card) := HanabiCard.Rank card + 1]>
        (fireworks_ s) ∧
    discard_pile_ s' = discard_pile_ s ∧
    information_tokens_ s' = information_tokens_ s + play_bonus s card ∧
    life_tokens_ s' = life_tokens_ s;
  played_failed :
    ¬ plays_on_fireworks s card →
    life_tokens_ s' = life_tokens_ s - 1 ∧
    fireworks_ s' = fireworks_ s ∧
    discard_pile_ s' = discard_pile_ s ++ [card] ∧
    information_tokens_ s' = information_tokens_ s }.

(** What returning one card of the identity [(c, r)] does to the supply. *)
Definition restored_to (game : HanabiGame.t) (d d' : HanabiDeck.t) (c r : Z)
    : Prop :=
  deck_wf game d' ∧
  (∃ n, HanabiDeck.CardCount d c r = Ok n ∧
        HanabiDeck.CardCount d' c r = Ok (n + 1)) ∧
  HanabiDeck.Size d' = HanabiDeck.Size d + 1 ∧
  ∀ c' r', in_range game c' r' → (c', r') ≠ (c, r) →
    HanabiDeck.CardCount d' c' r' = HanabiDeck.CardCount d c' r'.

(** The hand with the slot [i] replaced by [card] under fresh knowledge. *)
Definition hand_with (game : HanabiGame.t) (hand : HanabiHand.t) (i : Z)
    (card : HanabiCard.t) : HanabiHand.t :=
  HanabiHand.mk
    (<[Z.to_nat i := card]> (HanabiHand.Cards hand))
    (<[Z.to_nat i :=
         HanabiHand.new_knowledge
           (HanabiGame.NumColors game) (HanabiGame.NumRanks game)]>
       (HanabiHand.Knowledge hand)).

(** Occurrences of the identity [(c, r)] in a list of cards. *)
Definition card_indicator (c r : Z) (card : HanabiCard.t) : Z :=
  if decide (card = HanabiCard.mk c r) then 1 else 0.

Definition count_card (c r : Z) (cards : list HanabiCard.t) : Z :=
  sumZ (card_indicator c r <$> cards).

Definition count_in_hands (c r : Z) (hands : list HanabiHand.t) : Z :=
  sumZ ((λ hand, count_card c r (HanabiHand.Cards hand)) <$> hands).

(** The card of identity [(c, r)] consumed into the fireworks: one when the
    rank is below the progress of the color. *)
Definition in_fireworks (c r : Z) (fireworks : list Z) : Z :=
  match fireworks !! Z.to_nat c with
  | Some progress => if r <? progress then 1 else 0
  | None => 0
  end.

(** The copies of [(c, r)] in the supply, the hands, the discard pile and
    the fireworks add up to the configured multiplicity. *)
Definition conserved (s : HanabiState) (c r : Z) : Prop :=
  ∃ n, HanabiDeck.CardCount (deck_ s) c r = Ok n ∧ 0 ≤ n ∧
       n + count_in_hands c r (hands_ s)
         + count_card c r (discard_pile_ s)
         + in_fireworks c r (fireworks_ s)
       = HanabiGame.NumberCardInstances (ParentGame s) c r.

(** The states reached from a freshly constructed state by applications of
    moves that returned; [ApplyMove] requires each move to be legal. *)
Inductive reachable (game : HanabiGame.t) : HanabiState → Prop :=
  | reachable_new start_player s :
      new_state game start_player = Ok s → reachable game s
  | reachable_apply s m s' :
      reachable game s → ApplyMove s m = Ok s' → reachable game s'.

(** The invariant behind the conservation of cards. *)
Definition conservation_inv (game : HanabiGame.t) (s : HanabiState) : Prop :=
  parent_game_ s = game ∧ deck_wf game (deck_ s) ∧
  ∀ c r, in_range game c r → conserved s c r.

Definition tokens_in_range (s : HanabiState) : Prop :=
  0 ≤ information_tokens_ s
    ≤ HanabiGame.MaxInformationTokens (ParentGame s) ∧
  0 ≤ life_tokens_ s ≤ HanabiGame.MaxLifeTokens (ParentGame s).

(** What holds of the hands and the fireworks in play: no hand exceeds the
    full hand size, every card in a hand is an identity of the game, and no
    fireworks counter exceeds the number of ranks. *)
Record play_inv (s : HanabiState) : Prop := {
  play_wf : state_wf s;
  play_hand_sizes :
    Forall (λ hand, size (HanabiHand.Cards hand)
                    ≤ HanabiGame.HandSize (ParentGame s)) (hands_ s);
  play_cards :
    Forall (λ hand,
              Forall (λ card, in_range (ParentGame s)
                                (HanabiCard.Color card) (HanabiCard.Rank card))
                (HanabiHand.Cards hand)) (hands_ s);
  play_fireworks :
    Forall (λ progress, 0 ≤ progress ≤ HanabiGame.NumRanks (ParentGame s))
      (fireworks_ s) }.

(** Applies the moves in order, stopping at the first that does not
    return. *)
Definition play_moves (s : HanabiState) (moves : list HanabiMove.t)
    : result HanabiState :=
  for_each ApplyMove s moves.

Definition from_result {A} (default : A) (r : result A) : A :=
  match r with Ok a => a | Fault _ => default end.

(** A small configuration: two players, two colors, two ranks, hands of two
    cards, one copy of every card, two information tokens and one life
    token. *)
Definition small_instances (c r : Z) : Z :=
  if (c <? 0) || (2 <=? c) || (r <? 0) || (2 <=? r) then 0 else 1.

Definition small_game : HanabiGame.t :=
  HanabiGame.mk 2 2 2 2 2 1 HanabiGame.kCardKnowledge small_instances
    4 (λ uid, HanabiMove.Deal (Z.quot uid 2) (Z.rem uid 2)) 0.

Definition blank_state (game : HanabiGame.t) : HanabiState :=
  mkState game (HanabiDeck.mk [] 0 0) [] [] [] kChancePlayerId 0 0 0 [] 0.

(** The small game after its constructor. *)
Definition small_start : HanabiState :=
  Eval vm_compute in
    from_result (blank_state small_game) (new_state small_game 0).

(** The small game after the four deals: player 0 holds (0,0) and (0,1),
    player 1 holds (1,0) and (1,1), the supply is empty and player 0 is to
    move. *)
Definition small_dealt : HanabiState :=
  Eval vm_compute in
    from_result (blank_state small_game)
      (play_moves small_start
         [HanabiMove.Deal 0 0; HanabiMove.Deal 0 1;
          HanabiMove.Deal 1 0; HanabiMove.Deal 1 1]).

(** Player 0 then plays the card at index 1, which does not score, and the
    only life token is spent. *)
Definition small_misplayed : HanabiState :=
  Eval vm_compute in
    from_result (blank_state small_game)
      (ApplyMove small_dealt (HanabiMove.Play 1)).

(** Player 0 instead plays the card at index 0, which scores. *)
Definition small_scored : HanabiState :=
  Eval vm_compute in
    from_result (blank_state small_game)
      (ApplyMove small_dealt (HanabiMove.Play 0)).

(** The terminal status and the score as the specification words them: the
    life tokens at zero, the fireworks total equal to
    NumColors x NumRanks. *)
Definition status_as_specified (s : HanabiState) : EndOfGameType :=
  if decide (LifeTokens s = 0) then kOutOfLifeTokens
  else if decide (sumZ (fireworks_ s)
                  = HanabiGame.NumColors (ParentGame s)
                    * HanabiGame.NumRanks (ParentGame s))
  then kCompletedFireworks
  else if decide (turns_to_play_ s ≤ 0) then kOutOfCards
  else kNotFinished.

Definition score_as_specified (s : HanabiState) : Z :=
  if decide (LifeTokens s = 0) then 0 else sumZ (fireworks_ s).

(** The example game of five colors after its constructor. *)
Definition example_start : HanabiState :=
  Eval vm_compute in
    from_result (blank_state example_game) (new_state example_game 0).

(** The chance-outcome catalog of the configuration, in the order in which
    [ChanceOutcomes] enumerates it. *)
Definition chance_catalog (game : HanabiGame.t) : list HanabiMove.t :=
  HanabiGame.GetChanceOutcome game <$> upto (HanabiGame.MaxChanceOutcomes game).

(** One Deal per identity of the game, by index. *)
Definition all_deals (game : HanabiGame.t) : list HanabiMove.t :=
  (λ i, HanabiMove.Deal (Z.quot i (HanabiGame.NumRanks game))
                        (Z.rem i (HanabiGame.NumRanks game)))
    <$> upto (HanabiGame.NumColors game * HanabiGame.NumRanks game).

(** Modelled from the spec: the chance-outcome catalog of hanabi_game.cc,
    which is not in the sources at hand; it enumerates all possible chance
    outcomes, that is, the Deal of every identity of the game, each once and
    in any order. *)
Definition catalog_complete (game : HanabiGame.t) : Prop :=
  chance_catalog game ≡ₚ all_deals game.

(** The remaining count of the identity named by a move, and whether it is
    positive. *)
Definition remaining (s : HanabiState) (m : HanabiMove.t) : Z :=
  from_result 0
    (HanabiDeck.CardCount (deck_ s) (HanabiMove.Color m) (HanabiMove.Rank m)).

Definition has_supply (s : HanabiState) (m : HanabiMove.t) : bool :=
  0 <? remaining s m.

(** The remaining count of the identity divided by the total remaining
    size: the exact quotient, and the [double] that [ChanceOutcomeProb]
    computes for it. *)
Definition probability (s : HanabiState) (m : HanabiMove.t) : Q :=
  (inject_Z (remaining s m) / inject_Z (HanabiDeck.Size (deck_ s)))%Q.

Definition double_probability (s : HanabiState) (m : HanabiMove.t)
    : PrimFloat.float :=
  PrimFloat.div (to_double (remaining s m))
    (to_double (HanabiDeck.Size (deck_ s))).

(** The rational number a finite double stands for, in lowest terms. *)
Definition double_value (f : PrimFloat.float) : Q :=
  match FloatOps.Prim2SF f with
  | SpecFloat.S754_finite sign m e =>
      let v :=
        if 0 <=? e then inject_Z (Z.pos m * 2 ^ e)
        else Qred (Z.pos m # Z.to_pos (2 ^ (- e))) in
      if sign then Qopp v else v
  | _ => 0%Q
  end.

Definition sumQ (v : list Q) : Q := foldr Qplus 0%Q v.

(** The unit roundoff of binary64, 2^-53: the largest relative error of a
    result rounded to nearest. *)
Definition unit_roundoff : Q := 1 # 9007199254740992.

(** ** Predicates and examples for the functions beside the claims *)


(** The cards of a list that [IsValid()] accepts. *)
Definition valid_cards (cards : list HanabiCard.t) : list HanabiCard.t :=
  filter (λ card, HanabiCard.IsValid card = true) cards.

(** Every valid card of the list is an identity of the game. *)
Definition cards_of_game (game : HanabiGame.t) (cards : list HanabiCard.t)
    : Prop :=
  Forall (λ card, HanabiCard.IsValid card = true →
                  in_range game (HanabiCard.Color card) (HanabiCard.Rank card))
    cards.

(** What one returned move application can do to the counters: each moves
    by at most one, in one direction only for the life tokens, the supply,
    the discard pile and the fireworks. *)
Record one_step (s s' : HanabiState) : Prop := {
  step_life :
    life_tokens_ s' = life_tokens_ s
    ∨ 0 < life_tokens_ s ∧ life_tokens_ s' = life_tokens_ s - 1;
  step_information :
    information_tokens_ s' = information_tokens_ s
    ∨ information_tokens_ s < HanabiGame.MaxInformationTokens (ParentGame s)
      ∧ information_tokens_ s' = information_tokens_ s + 1
    ∨ 0 < information_tokens_ s
      ∧ information_tokens_ s' = information_tokens_ s - 1;
  step_discard_pile :
    discard_pile_ s' = discard_pile_ s
    ∨ ∃ card, discard_pile_ s' = discard_pile_ s ++ [card];
  step_deck :
    deck_ s' = deck_ s
    ∨ HanabiDeck.Size (deck_ s') = HanabiDeck.Size (deck_ s) - 1;
  step_fireworks :
    fireworks_ s' = fireworks_ s
    ∨ ∃ c progress,
        vec_at (fireworks_ s) c = Ok progress ∧
        fireworks_ s' = <[Z.to_nat c := progress + 1]> (fireworks_ s);
  step_hands : size (hands_ s') = size (hands_ s);
  step_game : parent_game_ s' = parent_game_ s }.

(** The small game after the deals and a hint: player 0 tells player 1
    about color 1; one information token is spent and player 1 is to
    move. *)
Definition small_hinted : HanabiState :=
  Eval vm_compute in
    from_result (blank_state small_game)
      (ApplyMove small_dealt (HanabiMove.RevealColor 1 1)).

(** The bitmask that [ApplyMove] records for a hint, and the hand with the
    bitmask that the hand returns for it. *)
Definition hint_bitmask (hand : HanabiHand.t) (m : HanabiMove.t) : result Z :=
  match HanabiMove.MoveType m with
  | HanabiMove.kRevealColor => HandColorBitmask hand (HanabiMove.Color m)
  | _ => HandRankBitmask hand (HanabiMove.Rank m)
  end.

Definition hinted_hand (hand : HanabiHand.t) (m : HanabiMove.t)
    : HanabiHand.t * Z :=
  match HanabiMove.MoveType m with
  | HanabiMove.kRevealColor => HanabiHand.RevealColor hand (HanabiMove.Color m)
  | _ => HanabiHand.RevealRank hand (HanabiMove.Rank m)
  end.

(** The position in [hands_] of the hand [offset] seats after the current
    actor. *)
Definition target_index (s : HanabiState) (offset : Z) : nat :=
  Z.to_nat ((cur_player_ s + offset)
            mod HanabiGame.NumPlayers (ParentGame s)).

(** A move catalog for the small game: the discards and plays of the two
    hand slots and the hints of the two colors and ranks to the other
    player. *)
Definition small_moves : list HanabiMove.t :=
  [HanabiMove.Discard 0; HanabiMove.Discard 1;
   HanabiMove.Play 0; HanabiMove.Play 1;
   HanabiMove.RevealColor 1 0; HanabiMove.RevealColor 1 1;
   HanabiMove.RevealRank 1 0; HanabiMove.RevealRank 1 1].

Definition small_MaxMoves (game : HanabiGame.t) : Z := 8.

Definition small_GetMove (game : HanabiGame.t) (uid : Z) : HanabiMove.t :=
  default (HanabiMove.mk HanabiMove.kInvalid (-1) (-1) (-1) (-1))
    (small_moves !! Z.to_nat uid).

(** The moves of the catalog that [MoveIsLegal] accepts, in catalog order. *)
Definition legal_in_catalog (MaxMoves : HanabiGame.t → Z)
    (GetMove : HanabiGame.t → Z → HanabiMove.t) (s : HanabiState)
    : list HanabiMove.t :=
  filter (λ m, MoveIsLegal s m = Ok true)
    (GetMove (ParentGame s) <$> upto (MaxMoves (ParentGame s))).

(** The chance outcomes of the catalog with a positive remaining count. *)
Definition supplied_outcomes (s : HanabiState) : list HanabiMove.t :=
  filter (λ m, has_supply s m = true) (chance_catalog (ParentGame s)).

(** A sampler that returns the first of the outcomes handed to it. *)
Definition first_outcome (game : HanabiGame.t)
    (outcomes : list HanabiMove.t * list PrimFloat.float) : HanabiMove.t :=
  default (HanabiMove.mk HanabiMove.kInvalid (-1) (-1) (-1) (-1))
    (head outcomes.1).

(** The knowledge held with a card that no hint has touched. *)
Definition fresh_knowledge (game : HanabiGame.t) : HanabiHand.CardKnowledge :=
  HanabiHand.new_knowledge
    (HanabiGame.NumColors game) (HanabiGame.NumRanks game).


(** * Properties *)

(** ** The result monad *)

Lemma bind_Ok {A B} (m : result A) (f : A → result B) (b : B) :
  m ≫= f = Ok b ↔ ∃ a, m = Ok a ∧ f a = Ok b.
Proof.
  destruct m as [a|e]; simpl; split.
  - intros H. by exists a.
  - by intros (a' & [= <-] & H).
  - discriminate.
  - by intros (a' & [=] & _).
Qed.

Lemma REQUIRE_Ok (b : bool) (u : unit) : REQUIRE b = Ok u ↔ b = true.
Proof. destruct b, u; simpl; split; congruence. Qed.

Lemma assert_Ok (b : bool) (u : unit) : assert b = Ok u ↔ b = true.
Proof. destruct b, u; simpl; split; congruence. Qed.

Lemma vec_at_Ok {A} (v : list A) (i : Z) (x : A) :
  vec_at v i = Ok x ↔ 0 ≤ i ∧ v !! Z.to_nat i = Some x.
Proof.
  unfold vec_at. destruct (Z.leb_spec 0 i) as [Hi|Hi].
  - destruct (v !! Z.to_nat i) as [y|]; split.
    + intros [= ->]. done.
    + intros [_ [= ->]]. done.
    + discriminate.
    + intros [_ [=]].
  - split; [discriminate | lia].
Qed.

Lemma vec_at_in_range {A} (v : list A) (i : Z) :
  0 ≤ i < size v → ∃ x, vec_at v i = Ok x.
Proof.
  intros Hi. unfold size in Hi.
  destruct (lookup_lt_is_Some_2 v (Z.to_nat i)) as [x Hx]; [lia|].
  exists x. apply vec_at_Ok. split; [lia | done].
Qed.

Lemma vec_at_size {A} (v : list A) (i : Z) (x : A) :
  vec_at v i = Ok x → 0 ≤ i < size v.
Proof.
  intros [Hi Hx]%vec_at_Ok. apply lookup_lt_Some in Hx. unfold size. lia.
Qed.

Lemma vec_set_Ok {A} (v v' : list A) (i : Z) (x : A) :
  vec_set v i x = Ok v' ↔ 0 ≤ i < size v ∧ v' = <[Z.to_nat i := x]> v.
Proof.
  unfold vec_set. rewrite bind_Ok. split.
  - intros (y & Hy & [= <-]). split; [by eapply vec_at_size | done].
  - intros [Hi ->]. destruct (vec_at_in_range v i Hi) as [y Hy]. by exists y.
Qed.

Lemma vec_at_vec_set {A} (v : list A) (i j : Z) (x : A) :
  0 ≤ i < size v → 0 ≤ j →
  vec_at (<[Z.to_nat i := x]> v) j = if decide (i = j) then Ok x else vec_at v j.
Proof.
  intros Hi Hj. unfold size in Hi. case_decide as Hij.
  - subst j. apply vec_at_Ok. split; [lia|].
    apply list_lookup_insert_eq. lia.
  - unfold vec_at. rewrite list_lookup_insert_ne; [done | lia].
Qed.

(** ** Sums of counters *)

Lemma foldl_add (a : Z) (v : list Z) : foldl Z.add a v = a + sumZ v.
Proof.
  revert a. induction v as [|x v IH]; intros a; simpl; [lia|].
  rewrite IH. lia.
Qed.

Lemma accumulate_sumZ (v : list Z) : accumulate v = sumZ v.
Proof. unfold accumulate. rewrite foldl_add. lia. Qed.

Lemma sumZ_app (u v : list Z) : sumZ (u ++ v) = sumZ u + sumZ v.
Proof. induction u as [|x u IH]; simpl; lia. Qed.

Lemma sumZ_insert (v : list Z) (i : nat) (x y : Z) :
  v !! i = Some x → sumZ (<[i := y]> v) = sumZ v - x + y.
Proof.
  revert i. induction v as [|z v IH]; intros [|i] H; simplify_eq/=; [lia|].
  rewrite (IH i H). lia.
Qed.

Lemma sumZ_nonneg (v : list Z) : Forall (λ n, 0 ≤ n) v → 0 ≤ sumZ v.
Proof. induction 1; simpl; lia. Qed.

Lemma sumZ_lookup_le (v : list Z) (i : nat) (x : Z) :
  Forall (λ n, 0 ≤ n) v → v !! i = Some x → x ≤ sumZ v.
Proof.
  intros Hv. revert i. induction Hv as [|z v Hz Hv IH]; intros [|i] H;
    simplify_eq/=.
  - pose proof (sumZ_nonneg v Hv). lia.
  - specialize (IH i H). lia.
Qed.

Lemma sumZ_replicate_0 (n : nat) : sumZ (replicate n 0) = 0.
Proof. induction n; simpl; lia. Qed.

(** ** The card supply *)

Lemma index_in_range (nc nr c r : Z) :
  0 ≤ c < nc → 0 ≤ r < nr → 0 ≤ c * nr + r < nc * nr.
Proof. nia. Qed.

Lemma index_inj (nr c r c' r' : Z) :
  0 ≤ r < nr → 0 ≤ r' < nr → c * nr + r = c' * nr + r' → c = c' ∧ r = r'.
Proof.
  intros Hr Hr' E.
  assert (c = c') as ->.
  { destruct (Z.lt_trichotomy c c') as [H|[H|H]]; [|done|].
    - assert ((c + 1) * nr ≤ c' * nr) by (apply Z.mul_le_mono_nonneg_r; lia).
      lia.
    - assert ((c' + 1) * nr ≤ c * nr) by (apply Z.mul_le_mono_nonneg_r; lia).
      lia. }
  lia.
Qed.

Lemma index_quot (nr c r : Z) :
  0 ≤ c → 0 ≤ r < nr → Z.quot (c * nr + r) nr = c.
Proof.
  intros Hc Hr. rewrite Z.quot_div_nonneg by nia.
  symmetry. apply (Z.div_unique _ _ c r); lia.
Qed.

Lemma index_rem (nr c r : Z) :
  0 ≤ c → 0 ≤ r < nr → Z.rem (c * nr + r) nr = r.
Proof.
  intros Hc Hr. rewrite Z.rem_mod_nonneg by nia.
  symmetry. apply (Z.mod_unique _ _ c r); lia.
Qed.

Lemma index_decode (nc nr i : Z) :
  0 ≤ i < nc * nr → 0 ≤ nc →
  0 ≤ Z.quot i nr < nc ∧ 0 ≤ Z.rem i nr < nr ∧ i = Z.quot i nr * nr + Z.rem i nr.
Proof.
  intros Hi Hnc. assert (0 < nr) as Hnr by nia.
  rewrite Z.quot_div_nonneg, Z.rem_mod_nonneg by lia.
  pose proof (Z.div_mod i nr ltac:(lia)) as Hdm.
  pose proof (Z.mod_pos_bound i nr Hnr) as Hm.
  assert (0 ≤ i / nr) by (apply Z.div_pos; lia).
  assert (i / nr < nc) by (apply Z.div_lt_upper_bound; nia).
  lia.
Qed.

Lemma CardCount_Ok game d c r n :
  deck_wf game d →
  HanabiDeck.CardCount d c r = Ok n ↔
  vec_at (HanabiDeck.card_count_ d) (c * HanabiGame.NumRanks game + r) = Ok n.
Proof.
  intros Hwf. unfold HanabiDeck.CardCount, HanabiDeck.CardToIndex.
  by rewrite (deck_wf_ranks _ _ Hwf).
Qed.

Lemma CardCount_defined game d c r :
  deck_wf game d → in_range game c r →
  ∃ n, HanabiDeck.CardCount d c r = Ok n ∧ 0 ≤ n.
Proof.
  intros Hwf [Hc Hr].
  destruct (vec_at_in_range (HanabiDeck.card_count_ d)
              (c * HanabiGame.NumRanks game + r)) as [n Hn].
  { rewrite (deck_wf_size _ _ Hwf). by apply index_in_range. }
  exists n. split; [by apply (CardCount_Ok game)|].
  apply vec_at_Ok in Hn as [_ Hn].
  by apply (Forall_lookup_1 _ _ _ _ (deck_wf_nonneg _ _ Hwf) Hn).
Qed.

(** A positive counter means a non-empty supply. *)
Lemma positive_count_not_empty game d i n :
  deck_wf game d → vec_at (HanabiDeck.card_count_ d) i = Ok n → 0 < n →
  HanabiDeck.Empty d = false ∧ 0 < HanabiDeck.Size d.
Proof.
  intros Hwf [_ Hn]%vec_at_Ok Hpos.
  pose proof (sumZ_lookup_le _ _ _ (deck_wf_nonneg _ _ Hwf) Hn).
  unfold HanabiDeck.Empty, HanabiDeck.Size.
  rewrite (deck_wf_total _ _ Hwf). split; [apply Z.eqb_neq|]; lia.
Qed.

Lemma deck_with_wf game d index n n' :
  deck_wf game d → vec_at (HanabiDeck.card_count_ d) index = Ok n → 0 ≤ n' →
  deck_wf game (deck_with d index n n').
Proof.
  intros [Hr Hs Hp Ht] [Hi Hn]%vec_at_Ok Hn'. split; simpl.
  - done.
  - unfold size in *. by rewrite length_insert.
  - apply Forall_insert; done.
  - rewrite (sumZ_insert _ _ n) by done. lia.
Qed.

Lemma deck_with_count game d index n n' c r :
  deck_wf game d → vec_at (HanabiDeck.card_count_ d) index = Ok n →
  0 ≤ c * HanabiGame.NumRanks game + r →
  HanabiDeck.CardCount (deck_with d index n n') c r
  = if decide (index = c * HanabiGame.NumRanks game + r) then Ok n'
    else HanabiDeck.CardCount d c r.
Proof.
  intros Hwf Hn Hcr.
  unfold HanabiDeck.CardCount, HanabiDeck.CardToIndex. simpl.
  rewrite (deck_wf_ranks _ _ Hwf).
  apply vec_at_vec_set; [by eapply vec_at_size | done].
Qed.

Lemma take_Ok game d index n :
  deck_wf game d → 0 ≤ HanabiGame.NumColors game →
  vec_at (HanabiDeck.card_count_ d) index = Ok n → 0 < n →
  HanabiDeck.take d index
  = Ok (HanabiCard.mk (Z.quot index (HanabiGame.NumRanks game))
                      (Z.rem index (HanabiGame.NumRanks game)),
        deck_with d index n (n - 1)).
Proof.
  intros Hwf Hnc Hn Hpos. unfold HanabiDeck.take.
  rewrite Hn. simpl. destruct (Z.ltb_spec 0 n); [simpl | lia].
  pose proof (vec_at_size _ _ _ Hn) as Hi.
  rewrite (proj2 (vec_set_Ok (HanabiDeck.card_count_ d) _ index (n - 1))
             (conj Hi eq_refl)). simpl.
  unfold HanabiDeck.IndexToColor, HanabiDeck.IndexToRank.
  rewrite (deck_wf_ranks _ _ Hwf).
  rewrite (deck_wf_size _ _ Hwf) in Hi.
  destruct (Z.eqb_spec (HanabiGame.NumRanks game) 0) as [E|E]; [nia|].
  simpl. unfold deck_with. do 3 f_equal; [lia | symmetry; apply Hwf].
Qed.

Lemma DealCard_zero game d c r :
  deck_wf game d → HanabiDeck.CardCount d c r = Ok 0 →
  HanabiDeck.DealCard d c r = Ok (HanabiCard.invalid, d).
Proof.
  intros Hwf Hn. unfold HanabiDeck.DealCard.
  unfold HanabiDeck.CardCount in Hn. by rewrite Hn.
Qed.

Lemma DealCard_positive game d c r n :
  deck_wf game d → in_range game c r →
  HanabiDeck.CardCount d c r = Ok n → 0 < n →
  HanabiDeck.DealCard d c r
  = Ok (HanabiCard.mk c r,
        deck_with d (c * HanabiGame.NumRanks game + r) n (n - 1)).
Proof.
  intros Hwf [Hc Hr] Hn Hpos. unfold HanabiDeck.DealCard.
  pose proof Hn as Hn'. unfold HanabiDeck.CardCount in Hn'.
  rewrite Hn'. simpl. destruct (Z.leb_spec n 0); [lia|].
  apply (CardCount_Ok game) in Hn; [|done].
  unfold HanabiDeck.CardToIndex. rewrite (deck_wf_ranks _ _ Hwf).
  rewrite (take_Ok game d _ n) by (done || lia).
  rewrite index_quot, index_rem by lia. done.
Qed.

Lemma AddCard_Ok game d c r :
  deck_wf game d → in_range game c r →
  ∃ n, HanabiDeck.CardCount d c r = Ok n ∧ 0 ≤ n ∧
       HanabiDeck.AddCard d c r
       = Ok (deck_with d (c * HanabiGame.NumRanks game + r) n (n + 1)).
Proof.
  intros Hwf Hcr.
  destruct (CardCount_defined game d c r Hwf Hcr) as (n & Hn & Hpos).
  exists n. split; [done|]. split; [done|].
  unfold HanabiDeck.AddCard.
  pose proof Hn as Hn'. unfold HanabiDeck.CardCount in Hn'.
  rewrite Hn'. simpl.
  rewrite (proj2 (vec_set_Ok (HanabiDeck.card_count_ d) _ _ (n + 1))
             (conj (vec_at_size _ _ _ Hn') eq_refl)). simpl.
  unfold deck_with, HanabiDeck.CardToIndex.
  rewrite (deck_wf_ranks _ _ Hwf). do 2 f_equal. lia.
Qed.

Lemma deck_with_drawn game d c r n :
  deck_wf game d → in_range game c r →
  HanabiDeck.CardCount d c r = Ok n → 0 < n →
  drawn_from game d
    (deck_with d (c * HanabiGame.NumRanks game + r) n (n - 1)) c r.
Proof.
  intros Hwf [Hc Hr] Hn Hpos.
  pose proof (proj1 (CardCount_Ok game d c r n Hwf) Hn) as Hv.
  split; [apply deck_with_wf; (done || lia)|].
  split; [|split].
  - exists n. split; [done|]. split; [done|].
    rewrite (deck_with_count game) by (done || nia).
    by rewrite decide_True.
  - unfold HanabiDeck.Size. simpl. lia.
  - intros c' r' [Hc' Hr'] Hne.
    rewrite (deck_with_count game) by (done || nia).
    rewrite decide_False; [done|].
    intros E. apply index_inj in E as [-> ->]; [done | lia | lia].
Qed.
(** ** Loops *)

Lemma for_each_seq_inv {St} (body : St → Z → result St) (P : Z → St → Prop)
    (a k : nat) (s : St) :
  P (Z.of_nat a) s →
  (∀ i s, Z.of_nat a ≤ i < Z.of_nat (a + k) → P i s →
          ∃ s', body s i = Ok s' ∧ P (i + 1) s') →
  ∃ s', for_each body s (Z.of_nat <$> seq a k) = Ok s' ∧ P (Z.of_nat (a + k)) s'.
Proof.
  revert a s. induction k as [|k IH]; intros a s HP Hbody; simpl.
  - exists s. split; [done|]. by rewrite Nat.add_0_r.
  - destruct (Hbody (Z.of_nat a) s ltac:(lia) HP) as (s1 & -> & HP1). simpl.
    destruct (IH (S a) s1) as (s' & Hs' & HP').
    + by replace (Z.of_nat (S a)) with (Z.of_nat a + 1) by lia.
    + intros i s2 Hi. apply Hbody. lia.
    + exists s'. split; [done|].
      by replace (a + S k)%nat with (S a + k)%nat by lia.
Qed.

Lemma for_each_upto_inv {St} (body : St → Z → result St) (P : Z → St → Prop)
    (n : Z) (s : St) :
  0 ≤ n → P 0 s →
  (∀ i s, 0 ≤ i < n → P i s → ∃ s', body s i = Ok s' ∧ P (i + 1) s') →
  ∃ s', for_each body s (upto n) = Ok s' ∧ P n s'.
Proof.
  intros Hn HP Hbody.
  destruct (for_each_seq_inv body P 0 (Z.to_nat n) s HP) as (s' & Hs' & HP').
  - intros i s1 Hi. apply Hbody. lia.
  - exists s'. split; [done|]. by replace n with (Z.of_nat (0 + Z.to_nat n)) by lia.
Qed.

Lemma init_slot_filled game c r d :
  in_range game c r →
  deck_filled game (c * HanabiGame.NumRanks game + r) d →
  ∃ d', HanabiDeck.init_slot game c d r = Ok d' ∧
        deck_filled game (c * HanabiGame.NumRanks game + (r + 1)) d'.
Proof.
  intros [Hc Hr] [Hranks Hsize Hcounts Htotal].
  pose proof (index_in_range _ _ c r Hc Hr) as Hi.
  unfold HanabiDeck.init_slot, HanabiDeck.CardToIndex. rewrite Hranks.
  set (i := c * HanabiGame.NumRanks game + r) in *.
  set (count := HanabiGame.NumberCardInstances game c r).
  assert (0 ≤ i < size (HanabiDeck.card_count_ d)) as Hi'
    by (rewrite Hsize; lia).
  rewrite (proj2 (vec_set_Ok (HanabiDeck.card_count_ d) _ i count)
             (conj Hi' eq_refl)). simpl.
  eexists. split; [done|].
  pose proof (Hcounts i Hi) as Hzero. rewrite Z.ltb_irrefl in Hzero.
  split; simpl.
  - done.
  - unfold size in *. by rewrite length_insert.
  - intros j Hj. rewrite vec_at_vec_set by lia. case_decide as Hij.
    + subst j. destruct (Z.ltb_spec i (c * HanabiGame.NumRanks game + (r + 1))); [|lia].
      unfold i. by rewrite index_quot, index_rem by lia.
    + rewrite (Hcounts j Hj).
      destruct (Z.ltb_spec j i), (Z.ltb_spec j (c * HanabiGame.NumRanks game + (r + 1)));
        (done || lia).
  - apply vec_at_Ok in Hzero as [_ Hzero].
    rewrite (sumZ_insert _ _ 0) by done. lia.
Qed.

Lemma HanabiDeck_new_filled game :
  0 ≤ HanabiGame.NumColors game → 0 ≤ HanabiGame.NumRanks game →
  ∃ d, HanabiDeck.new game = Ok d ∧
       deck_filled game (HanabiGame.NumColors game * HanabiGame.NumRanks game) d.
Proof.
  intros Hnc Hnr. unfold HanabiDeck.new.
  apply (for_each_upto_inv _
           (λ c d, deck_filled game (c * HanabiGame.NumRanks game) d)).
  - done.
  - split; simpl.
    + done.
    + unfold size. rewrite length_replicate. nia.
    + intros i Hi. destruct (Z.ltb_spec i (0 * HanabiGame.NumRanks game)); [lia|].
      apply vec_at_Ok. split; [lia|]. apply lookup_replicate_2. lia.
    + by rewrite sumZ_replicate_0.
  - intros c d Hc Hd.
    destruct (for_each_upto_inv (HanabiDeck.init_slot game c)
                (λ r d, deck_filled game (c * HanabiGame.NumRanks game + r) d)
                (HanabiGame.NumRanks game) d) as (d' & Hd' & Hfilled).
    + done.
    + by rewrite Z.add_0_r.
    + intros r d1 Hr Hd1. by apply init_slot_filled.
    + exists d'. split; [done|].
      by replace ((c + 1) * HanabiGame.NumRanks game)
        with (c * HanabiGame.NumRanks game + HanabiGame.NumRanks game) by lia.
Qed.

Lemma deck_filled_wf game d :
  game_wf game →
  deck_filled game (HanabiGame.NumColors game * HanabiGame.NumRanks game) d →
  deck_wf game d.
Proof.
  intros Hg [Hranks Hsize Hcounts Htotal]. split; try done.
  apply Forall_lookup_2. intros i n Hn.
  pose proof (lookup_lt_Some _ _ _ Hn) as Hi.
  assert (vec_at (HanabiDeck.card_count_ d) (Z.of_nat i) = Ok n) as Hv.
  { apply vec_at_Ok. split; [lia|]. by rewrite Nat2Z.id. }
  rewrite Hcounts in Hv by (unfold size in Hsize; lia).
  destruct (_ <? _); injection Hv as <-; [apply Hg | done].
Qed.

Lemma deck_filled_count game d c r :
  deck_filled game (HanabiGame.NumColors game * HanabiGame.NumRanks game) d →
  in_range game c r →
  HanabiDeck.CardCount d c r = Ok (HanabiGame.NumberCardInstances game c r).
Proof.
  intros [Hranks Hsize Hcounts Htotal] [Hc Hr].
  pose proof (index_in_range _ _ c r Hc Hr) as Hi.
  unfold HanabiDeck.CardCount, HanabiDeck.CardToIndex. rewrite Hranks.
  rewrite Hcounts by done.
  destruct (Z.ltb_spec (c * HanabiGame.NumRanks game + r)
              (HanabiGame.NumColors game * HanabiGame.NumRanks game)); [|lia].
  by rewrite index_quot, index_rem by lia.
Qed.

(** ** Drawing from the supply *)

Lemma example_game_wf : game_wf example_game.
Proof.
  split; simpl; try lia.
  intros c r. unfold example_instances.
  repeat destruct (_ || _); try lia; repeat destruct (_ =? _); lia.
Qed.

Lemma example_deck_new : HanabiDeck.new example_game = Ok example_deck.
Proof. vm_compute. reflexivity. Qed.

Lemma example_deck_wf : deck_wf example_game example_deck.
Proof.
  split; [reflexivity | reflexivity | | reflexivity].
  unfold example_deck, HanabiDeck.card_count_. repeat constructor; lia.
Qed.

Lemma first_positive_spec (weights : list Z) (i : Z) :
  Forall (λ w, 0 ≤ w) weights → 0 < sumZ weights → 0 ≤ i →
  ∃ w, weights !! Z.to_nat (first_positive i weights - i) = Some w ∧ 0 < w
       ∧ i ≤ first_positive i weights.
Proof.
  intros Hw. revert i. induction Hw as [|w rest Hw0 Hrest IH]; intros i Hsum Hi;
    simpl in *; [lia|].
  destruct (Z.ltb_spec 0 w) as [Hpos|Hzero].
  - exists w. rewrite Z.sub_diag. split; [done|lia].
  - destruct (IH (i + 1)) as (w' & Hw' & Hpos' & Hle); [lia | lia |].
    exists w'. split; [|lia].
    replace (Z.to_nat (first_positive (i + 1) rest - i))
      with (S (Z.to_nat (first_positive (i + 1) rest - (i + 1)))) by lia.
    done.
Qed.

Lemma example_distribution_ok : draws_positive_weight example_distribution.
Proof.
  intros weights rng Hw Hsum. simpl.
  destruct (first_positive_spec weights 0 Hw Hsum ltac:(lia)) as (w & Hl & Hpos & Hle).
  exists w. split; [|done]. apply vec_at_Ok. split; [done|].
  by rewrite Z.sub_0_r in Hl.
Qed.

(** C9.  Drawing from the card supply never fails: the random draw on an
    empty supply returns the invalid card and so does the draw of an identity
    whose remaining count is zero; every other draw returns the drawn
    identity and decrements that identity's count and the total by one,
    leaving the other counts as they were. *)
Theorem DealCard_never_fails game d
    (Hgame : 0 ≤ HanabiGame.NumColors game) (Hwf : deck_wf game d) :
  (∀ (mt19937 : Type) (dist : list Z → mt19937 → Z * mt19937) rng,
     draws_positive_weight dist →
     if HanabiDeck.Empty d then
       HanabiDeck.DealCardRandom dist d rng = Ok (HanabiCard.invalid, d, rng)
     else
       ∃ c r d',
         in_range game c r ∧
         HanabiDeck.DealCardRandom dist d rng
         = Ok (HanabiCard.mk c r, d',
               (dist (HanabiDeck.card_count_ d) rng).2) ∧
         drawn_from game d d' c r) ∧
  (∀ c r, in_range game c r →
     ∃ n, HanabiDeck.CardCount d c r = Ok n ∧
       if n =? 0 then
         HanabiDeck.DealCard d c r = Ok (HanabiCard.invalid, d)
       else
         ∃ d', HanabiDeck.DealCard d c r = Ok (HanabiCard.mk c r, d') ∧
               drawn_from game d d' c r).
Proof.
  split.
  - intros R dist rng Hdist. unfold HanabiDeck.DealCardRandom.
    destruct (HanabiDeck.Empty d) eqn:Hempty; [done|].
    destruct (Hdist (HanabiDeck.card_count_ d) rng) as (n & Hn & Hpos).
    { apply Hwf. }
    { pose proof (sumZ_nonneg _ (deck_wf_nonneg _ _ Hwf)).
      unfold HanabiDeck.Empty in Hempty. apply Z.eqb_neq in Hempty.
      rewrite (deck_wf_total _ _ Hwf) in Hempty. lia. }
    destruct (dist (HanabiDeck.card_count_ d) rng) as [index rng'] eqn:Hdraw.
    simpl in Hn |- *.
    pose proof (vec_at_size _ _ _ Hn) as Hi.
    rewrite (deck_wf_size _ _ Hwf) in Hi.
    destruct (index_decode _ _ index Hi Hgame) as (Hc & Hr & Hindex).
    rewrite (take_Ok game d index n) by done. simpl.
    eexists _, _, _. split; [split; eassumption|]. split; [done|].
    rewrite Hindex at 1. apply deck_with_drawn; try done.
    apply (CardCount_Ok game); [done|]. by rewrite <- Hindex.
  - intros c r Hcr.
    destruct (CardCount_defined game d c r Hwf Hcr) as (n & Hn & Hnonneg).
    exists n. split; [done|].
    destruct (Z.eqb_spec n 0) as [->|Hne].
    + by apply (DealCard_zero game).
    + eexists. split.
      * apply (DealCard_positive game); (done || lia).
      * apply deck_with_drawn; (done || lia).
Qed.

Lemma DealCard_never_fails_witness :
  (∃ d', HanabiDeck.DealCardRandom example_distribution example_deck 0%nat
         = Ok (HanabiCard.mk 0 0, d', 1%nat) ∧ HanabiDeck.Size d' = 49) ∧
  (∃ d', HanabiDeck.DealCard example_deck 2 4 = Ok (HanabiCard.mk 2 4, d')
         ∧ HanabiDeck.CardCount d' 2 4 = Ok 0).
Proof.
  destruct (DealCard_never_fails example_game example_deck
              ltac:(vm_compute; discriminate) example_deck_wf)
    as [Hrandom Hidentity].
  split.
  - pose proof (Hrandom nat example_distribution 0%nat example_distribution_ok)
      as H.
    replace (HanabiDeck.Empty example_deck) with false in H
      by (vm_compute; reflexivity).
    destruct H as (c & r & d' & _ & Hdeal & _ & _ & Hsize & _).
    exists d'. split; [|exact Hsize].
    rewrite Hdeal. vm_compute in Hdeal. injection Hdeal as <- <- _.
    vm_compute. reflexivity.
  - destruct (Hidentity 2 4 ltac:(split; vm_compute; split; congruence))
      as (n & Hn & Hdeal).
    vm_compute in Hn. injection Hn as <-.
    change (1 =? 0) with false in Hdeal. cbv iota in Hdeal.
    destruct Hdeal as (d' & Hdeal & _ & (k & Hk & _ & Hk') & _).
    exists d'. vm_compute in Hk. injection Hk as <-.
    split; [exact Hdeal | exact Hk'].
Defined.

(** ** The game state *)

(** Tactic: split every hypothesis saying that a computation returned. *)
Ltac inv_res :=
  repeat (match goal with
  | H : _ ≫= _ = Ok _ |- _ =>
      apply bind_Ok in H; destruct H as (? & ? & H)
  | H : REQUIRE _ = Ok _ |- _ => apply REQUIRE_Ok in H
  | H : assert _ = Ok _ |- _ => apply assert_Ok in H
  | p : (_ * _)%type |- _ => destruct p
  | H : context [let '(_, _) := ?p in _] |- _ => destruct p eqn:?
  | H : Fault _ = Ok _ |- _ => discriminate H
  | H : Ok _ = Ok _ |- _ => injection H as H
  | H : (_, _) = (_, _) |- _ => injection H as ? ?
  end; cbn beta iota zeta in *).

(** *** Fields left alone by the parts of [ApplyMove] *)

Lemma IncrementInformationTokens_frame s s' gained :
  IncrementInformationTokens s = (s', gained) →
  parent_game_ s' = parent_game_ s ∧ deck_ s' = deck_ s ∧
  discard_pile_ s' = discard_pile_ s ∧ hands_ s' = hands_ s ∧
  move_history_ s' = move_history_ s ∧ cur_player_ s' = cur_player_ s ∧
  next_non_chance_player_ s' = next_non_chance_player_ s ∧
  life_tokens_ s' = life_tokens_ s ∧ fireworks_ s' = fireworks_ s ∧
  turns_to_play_ s' = turns_to_play_ s.
Proof.
  unfold IncrementInformationTokens. destruct (_ <? _); by intros [= <- <-].
Qed.

Lemma AdvanceToNextPlayer_frame s s' :
  AdvanceToNextPlayer s = Ok s' →
  parent_game_ s' = parent_game_ s ∧ deck_ s' = deck_ s ∧
  discard_pile_ s' = discard_pile_ s ∧ hands_ s' = hands_ s ∧
  move_history_ s' = move_history_ s ∧
  information_tokens_ s' = information_tokens_ s ∧
  life_tokens_ s' = life_tokens_ s ∧ fireworks_ s' = fireworks_ s ∧
  turns_to_play_ s' = turns_to_play_ s.
Proof.
  unfold AdvanceToNextPlayer. intros H.
  destruct (_ && _); [|destruct (_ =? _)]; inv_res; by subst.
Qed.

Lemma AddToFireworks_frame s card s' flags :
  AddToFireworks s card = Ok (s', flags) →
  parent_game_ s' = parent_game_ s ∧ deck_ s' = deck_ s ∧
  discard_pile_ s' = discard_pile_ s ∧ hands_ s' = hands_ s ∧
  move_history_ s' = move_history_ s ∧ cur_player_ s' = cur_player_ s ∧
  next_non_chance_player_ s' = next_non_chance_player_ s ∧
  turns_to_play_ s' = turns_to_play_ s.
Proof.
  unfold AddToFireworks, DecrementLifeTokens. intros H. inv_res.
  destruct x; inv_res.
  - destruct (_ =? _); inv_res; [|by subst].
    match goal with
    | E : IncrementInformationTokens _ = _ |- _ =>
        apply IncrementInformationTokens_frame in E; simpl in E
    end.
    subst. intuition congruence.
  - by subst.
Qed.

Lemma apply_effect_turns s m h s' h' :
  apply_effect s m h = Ok (s', h') →
  turns_to_play_ s' = turns_to_play_ s ∧ parent_game_ s' = parent_game_ s.
Proof.
  unfold apply_effect, DecrementInformationTokens, HanabiHand.RemoveFromHand.
  intros H. destruct (HanabiMove.MoveType m); inv_res; subst; simpl;
    try done.
  - match goal with
    | E : AddToFireworks _ _ = _ |- _ => apply AddToFireworks_frame in E
    end. intuition congruence.
  - match goal with
    | E : IncrementInformationTokens _ = _ |- _ =>
        apply IncrementInformationTokens_frame in E
    end. intuition congruence.
Qed.

(** [ApplyMove] split into its stages. *)
Lemma ApplyMove_Ok s m s' :
  ApplyMove s m = Ok s' ↔
  MoveIsLegal s m = Ok true ∧
  ∃ s1 h,
    apply_effect (before_effect s) m
      (mkHistory m (cur_player_ (before_effect s)) false false (-1) (-1) 0 0 (-1))
    = Ok (s1, h) ∧
    AdvanceToNextPlayer (set_move_history s1 (move_history_ s1 ++ [h]))
    = Ok s'.
Proof.
  unfold ApplyMove, before_effect. split.
  - intros H. inv_res. subst. split; [done|]. eauto.
  - intros (Hlegal & s1 & h & Heffect & Hadvance).
    rewrite Hlegal. simpl. rewrite Heffect. done.
Qed.

(** A legal Deal finds the supply non-empty. *)
Lemma legal_deal_not_empty s m :
  deck_wf (ParentGame s) (deck_ s) →
  HanabiMove.MoveType m = HanabiMove.kDeal →
  MoveIsLegal s m = Ok true → HanabiDeck.Empty (deck_ s) = false.
Proof.
  intros Hwf Hm. unfold MoveIsLegal. rewrite Hm.
  destruct (negb _); [discriminate|]. intros H. inv_res.
  destruct (Z.eqb_spec x 0) as [|Hne]; [discriminate|].
  match goal with E : HanabiDeck.CardCount _ _ _ = _ |- _ =>
    apply (CardCount_Ok (ParentGame s)) in E; [|done];
    pose proof E as [_ Hl]%vec_at_Ok;
    pose proof (Forall_lookup_1 _ _ _ _ (deck_wf_nonneg _ _ Hwf) Hl);
    eapply positive_count_not_empty; [done | exact E | simpl in *; lia]
  end.
Qed.

(** C7.  A legally applied move that is not a Deal and finds the supply empty
    decrements the turns-remaining countdown by exactly one; in every other
    case (a non-empty supply, or a Deal) the countdown is unchanged. *)
Theorem turns_to_play_countdown s m s'
    (Hdeck : deck_wf (ParentGame s) (deck_ s))
    (Happly : ApplyMove s m = Ok s') :
  turns_to_play_ s'
  = if negb (is_deal m) && HanabiDeck.Empty (deck_ s)
    then turns_to_play_ s - 1 else turns_to_play_ s.
Proof.
  apply ApplyMove_Ok in Happly as (Hlegal & s1 & h & Heffect & Hadvance).
  apply AdvanceToNextPlayer_frame in Hadvance. simpl in Hadvance.
  apply apply_effect_turns in Heffect as [Hturns _].
  destruct Hadvance as (_ & _ & _ & _ & _ & _ & _ & _ & ->). rewrite Hturns.
  unfold is_deal, before_effect. case_bool_decide as Hm; simpl.
  - by rewrite (legal_deal_not_empty s m Hdeck Hm Hlegal).
  - by destruct (HanabiDeck.Empty (deck_ s)).
Qed.

(** On the states of the data model, where the life tokens are not negative
    and the fireworks total does not exceed NumColors x NumRanks, the
    terminal status and the score are as the specification words them. *)
Lemma EndOfGameStatus_Score_spec s
    (Hlife : 0 ≤ LifeTokens s)
    (Hfireworks :
       sumZ (fireworks_ s)
       ≤ HanabiGame.NumColors (ParentGame s)
         * HanabiGame.NumRanks (ParentGame s)) :
  EndOfGameStatus s = status_as_specified s ∧ Score s = score_as_specified s.
Proof.
  unfold EndOfGameStatus, Score, status_as_specified, score_as_specified.
  rewrite accumulate_sumZ.
  repeat case_decide;
    repeat match goal with
    | |- context [?a <? ?b] => destruct (Z.ltb_spec a b)
    | |- context [?a <=? ?b] => destruct (Z.leb_spec a b)
    | |- context [?a >=? ?b] =>
        rewrite (Z.geb_leb a b); destruct (Z.leb_spec b a)
    end; (done || lia).
Qed.

(** ** Legality *)

Lemma to_size_t_small (z : Z) : 0 ≤ z < 2 ^ 64 → to_size_t z = z.
Proof. intros H. unfold to_size_t. by apply Z.mod_small. Qed.

Lemma to_size_t_index (i n : Z) :
  is_int i → 0 ≤ n < 2 ^ 63 → (to_size_t i >=? n) = false ↔ 0 ≤ i < n.
Proof.
  unfold is_int. intros Hi Hn. rewrite Z.geb_leb, Z.leb_gt.
  destruct (Z.le_gt_cases 0 i) as [Hpos|Hneg].
  - rewrite to_size_t_small by lia. lia.
  - unfold to_size_t.
    replace i with (i + 2 ^ 64 + (-1) * 2 ^ 64) by lia.
    rewrite Z.mod_add by lia. rewrite Z.mod_small by lia. lia.
Qed.

Lemma existsb_card (f : HanabiCard.t → bool) (cards : list HanabiCard.t) :
  existsb f cards = true ↔ ∃ card, card ∈ cards ∧ f card = true.
Proof.
  rewrite existsb_exists. split; intros (c & Hc & Hf); exists c;
    (split; [by apply list_elem_of_In | done]).
Qed.

Lemma HintingIsLegal_true s m :
  HintingIsLegal s m = true ↔
  0 < InformationTokens s ∧
  1 ≤ HanabiMove.TargetOffset m < HanabiGame.NumPlayers (ParentGame s).
Proof.
  unfold HintingIsLegal.
  destruct (Z.leb_spec (InformationTokens s) 0); [split; [done | lia]|].
  destruct (Z.ltb_spec (HanabiMove.TargetOffset m) 1); simpl;
    [split; [done | lia]|].
  rewrite Z.geb_leb.
  destruct (Z.leb_spec (HanabiGame.NumPlayers (ParentGame s))
              (HanabiMove.TargetOffset m)); split; (done || lia).
Qed.

Lemma HandByOffset_Ok s offset :
  state_wf s → 1 ≤ offset < HanabiGame.NumPlayers (ParentGame s) →
  ∃ hand,
    target_hand s offset = Some hand ∧
    HandByOffset s offset
    = Ok ((cur_player_ s + offset) mod HanabiGame.NumPlayers (ParentGame s),
          hand).
Proof.
  intros Hwf Hoffset. unfold HandByOffset, target_hand.
  pose proof (game_players _ (wf_game _ Hwf)) as Hplayers.
  rewrite (wf_hands _ Hwf).
  destruct (Z.eqb_spec (HanabiGame.NumPlayers (ParentGame s)) 0); [lia|].
  assert (0 ≤ cur_player_ s + offset < 2 ^ 64) as Hsum.
  { destruct (wf_cur_player _ Hwf) as [-> | ?]; unfold kChancePlayerId; lia. }
  rewrite to_size_t_small by done.
  set (i := (cur_player_ s + offset) mod HanabiGame.NumPlayers (ParentGame s)).
  assert (0 ≤ i < HanabiGame.NumPlayers (ParentGame s)) as Hi
    by (apply Z.mod_pos_bound; lia).
  destruct (vec_at_in_range (hands_ s) i) as [hand Hhand];
    [by rewrite (wf_hands _ Hwf)|].
  exists hand. rewrite Hhand. simpl.
  by apply vec_at_Ok in Hhand as [_ ->].
Qed.

Lemma hand_index_legal s m hand :
  hands_sized s → move_wf m →
  vec_at (hands_ s) (cur_player_ s) = Ok hand →
  (to_size_t (HanabiMove.CardIndex m) >=? size (HanabiHand.Cards hand)) = false
  ↔ 0 ≤ HanabiMove.CardIndex m < size (HanabiHand.Cards hand).
Proof.
  intros Hsized Hm [_ Hhand]%vec_at_Ok.
  apply to_size_t_index; [apply Hm|].
  pose proof (Forall_lookup_1 _ _ _ _ Hsized Hhand) as Hlt. simpl in Hlt.
  unfold size in *. lia.
Qed.

Lemma MoveIsLegal_table s m :
  state_wf s → hands_sized s → move_wf m →
  MoveIsLegal s m = Ok true ↔ legal_by_table s m.
Proof.
  intros Hwf Hsized Hm. unfold MoveIsLegal, legal_by_table.
  destruct (HanabiMove.MoveType m).
  - (* kInvalid *) done.
  - (* kPlay *)
    destruct (vec_at (hands_ s) (cur_player_ s)) as [hand|e] eqn:Hhand; simpl.
    + pose proof (hand_index_legal s m hand Hsized Hm Hhand) as Hidx.
      destruct (_ >=? _); split.
      * discriminate.
      * intros (hand' & [= <-] & Hi). by apply Hidx in Hi.
      * intros _. exists hand. split; [done|]. by apply Hidx.
      * done.
    + split; [discriminate|]. by intros (hand & [=] & _).
  - (* kDiscard *)
    rewrite Z.geb_leb.
    destruct (Z.leb_spec (HanabiGame.MaxInformationTokens (ParentGame s))
                (InformationTokens s)) as [Hmax|Hmax].
    { split; [discriminate | lia]. }
    destruct (vec_at (hands_ s) (cur_player_ s)) as [hand|e] eqn:Hhand; simpl.
    + pose proof (hand_index_legal s m hand Hsized Hm Hhand) as Hidx.
      destruct (_ >=? _); split.
      * discriminate.
      * intros (_ & hand' & [= <-] & Hi). by apply Hidx in Hi.
      * intros _. split; [done|]. exists hand. split; [done|]. by apply Hidx.
      * done.
    + split; [discriminate|]. by intros (_ & hand & [=] & _).
  - (* kRevealColor *)
    destruct (HintingIsLegal s m) eqn:Hhint; simpl.
    + apply HintingIsLegal_true in Hhint as [Htokens Hoffset].
      destruct (HandByOffset_Ok s _ Hwf Hoffset) as (hand & Htarget & ->).
      simpl. rewrite Htarget.
      destruct (existsb _ _) eqn:Hany; simpl; split.
      * intros _. apply existsb_card in Hany as (card & Hcard & Hcolor).
        split; [done|]. split; [done|]. exists hand, card.
        split; [done|]. split; [done|]. by apply Z.eqb_eq.
      * done.
      * discriminate.
      * intros (_ & _ & hand' & card & [= <-] & Hcard & Hcolor).
        assert (existsb
                  (λ card, HanabiCard.Color card =? HanabiMove.Color m)
                  (HanabiHand.Cards hand) = true) as Hany'.
        { apply existsb_card. exists card. split; [done|]. by apply Z.eqb_eq. }
        congruence.
    + split; [discriminate|]. intros (Htokens & Hoffset & _).
      assert (HintingIsLegal s m = true) by by apply HintingIsLegal_true.
      congruence.
  - (* kRevealRank *)
    destruct (HintingIsLegal s m) eqn:Hhint; simpl.
    + apply HintingIsLegal_true in Hhint as [Htokens Hoffset].
      destruct (HandByOffset_Ok s _ Hwf Hoffset) as (hand & Htarget & ->).
      simpl. rewrite Htarget.
      destruct (existsb _ _) eqn:Hany; simpl; split.
      * intros _. apply existsb_card in Hany as (card & Hcard & Hrank).
        split; [done|]. split; [done|]. exists hand, card.
        split; [done|]. split; [done|]. by apply Z.eqb_eq.
      * done.
      * discriminate.
      * intros (_ & _ & hand' & card & [= <-] & Hcard & Hrank).
        assert (existsb
                  (λ card, HanabiCard.Rank card =? HanabiMove.Rank m)
                  (HanabiHand.Cards hand) = true) as Hany'.
        { apply existsb_card. exists card. split; [done|]. by apply Z.eqb_eq. }
        congruence.
    + split; [discriminate|]. intros (Htokens & Hoffset & _).
      assert (HintingIsLegal s m = true) by by apply HintingIsLegal_true.
      congruence.
  - (* kDeal *)
    destruct (Z.eqb_spec (cur_player_ s) kChancePlayerId) as [Hcur|Hcur]; simpl.
    + destruct (HanabiDeck.CardCount _ _ _) as [n|e] eqn:Hn; simpl.
      * pose proof Hn as Hv.
        apply (CardCount_Ok (ParentGame s)) in Hv; [|apply Hwf].
        apply vec_at_Ok in Hv as [_ Hv].
        pose proof (Forall_lookup_1 _ _ _ _
                      (deck_wf_nonneg _ _ (wf_deck _ Hwf)) Hv) as Hpos.
        simpl in Hpos.
        destruct (Z.eqb_spec n 0); split.
        -- discriminate.
        -- intros (_ & n' & [= <-] & ?). lia.
        -- intros _. split; [done|]. exists n. split; [done | lia].
        -- done.
      * split; [discriminate|]. by intros (_ & n & [=] & _).
    + split; [discriminate|]. by intros [? _].
Qed.

Lemma MoveIsLegal_defined s m :
  state_wf s → legality_defined s m → ∃ b, MoveIsLegal s m = Ok b.
Proof.
  intros Hwf. unfold MoveIsLegal, legality_defined.
  assert (cur_player_ s ≠ kChancePlayerId →
          ∃ hand, vec_at (hands_ s) (cur_player_ s) = Ok hand) as Hhand.
  { intros Hcur. apply vec_at_in_range. rewrite (wf_hands _ Hwf).
    by destruct (wf_cur_player _ Hwf). }
  destruct (HanabiMove.MoveType m).
  - eauto.
  - intros Hcur. destruct (Hhand Hcur) as [hand ->]. simpl.
    destruct (_ >=? _); eauto.
  - intros Hcur. destruct (_ >=? _); [eauto|].
    destruct (Hhand Hcur) as [hand ->]. simpl. destruct (_ >=? _); eauto.
  - intros _. destruct (HintingIsLegal s m) eqn:Hhint; simpl; [|eauto].
    apply HintingIsLegal_true in Hhint as [_ Hoffset].
    destruct (HandByOffset_Ok s _ Hwf Hoffset) as (hand & _ & ->). simpl.
    destruct (negb _); eauto.
  - intros _. destruct (HintingIsLegal s m) eqn:Hhint; simpl; [|eauto].
    apply HintingIsLegal_true in Hhint as [_ Hoffset].
    destruct (HandByOffset_Ok s _ Hwf Hoffset) as (hand & _ & ->). simpl.
    destruct (negb _); eauto.
  - intros Hrange. destruct (negb _); [eauto|].
    destruct (CardCount_defined _ _ _ _ (wf_deck _ Hwf) Hrange) as (n & -> & _).
    simpl. destruct (_ =? _); eauto.
Qed.

(** The legality table.  The legality predicate returns true exactly on
    the rows of the table of the specification: a
    Deal is legal iff the current actor is the chance actor and the
    identity's remaining count is positive; a Discard iff the information
    tokens are strictly below the maximum and the index is valid in the
    current actor's hand; a Play iff the index is valid in the current
    actor's hand; a hint iff the information tokens are positive, the target
    offset is in [1, NumPlayers) and the target hand holds a card of the
    hinted color (rank); any other move type is illegal.  It returns false
    on every other input on which its reads are inside the vectors. *)
Theorem MoveIsLegal_spec s m
    (Hwf : state_wf s) (Hsized : hands_sized s) (Hm : move_wf m) :
  (MoveIsLegal s m = Ok true ↔ legal_by_table s m) ∧
  (legality_defined s m →
   MoveIsLegal s m = Ok false ↔ ¬ legal_by_table s m).
Proof.
  pose proof (MoveIsLegal_table s m Hwf Hsized Hm) as Htable.
  split; [done|]. intros Hdef.
  destruct (MoveIsLegal_defined s m Hwf Hdef) as [[|] Hb]; rewrite Hb.
  - split; [discriminate|]. intros Hno. by apply Htable in Hb.
  - split; [|done]. intros _ Hyes. apply Htable in Hyes. congruence.
Qed.

(** ** Turn order *)

Lemma vec_set_size {A} (v v' : list A) (i : Z) (x : A) :
  vec_set v i x = Ok v' → size v' = size v.
Proof. intros [_ ->]%vec_set_Ok. unfold size. by rewrite length_insert. Qed.

Lemma apply_effect_frame s m h s' h' :
  apply_effect s m h = Ok (s', h') →
  parent_game_ s' = parent_game_ s ∧ cur_player_ s' = cur_player_ s ∧
  next_non_chance_player_ s' = next_non_chance_player_ s ∧
  move_history_ s' = move_history_ s ∧ size (hands_ s') = size (hands_ s).
Proof.
  unfold apply_effect, DecrementInformationTokens, HanabiHand.RemoveFromHand.
  intros H. destruct (HanabiMove.MoveType m); inv_res; subst; simpl;
    repeat match goal with
    | E : vec_set _ _ _ = Ok _ |- _ => apply vec_set_size in E
    | E : AddToFireworks _ _ = _ |- _ => apply AddToFireworks_frame in E
    | E : IncrementInformationTokens _ = _ |- _ =>
        apply IncrementInformationTokens_frame in E
    end; simpl in *; intuition congruence.
Qed.

Lemma PlayerToDeal_from_spec (hands : list HanabiHand.t) (hand_size i : Z) :
  0 ≤ i → 0 ≤ hand_size < 2 ^ 64 →
  0 ≤ PlayerToDeal_from i hands hand_size ↔
  ∃ hand, hand ∈ hands ∧ size (HanabiHand.Cards hand) < hand_size.
Proof.
  intros Hi Hsize. revert i Hi.
  induction hands as [|h hands IH]; intros i Hi; simpl.
  - split; [lia|]. intros (hand & Hin & _). by apply elem_of_nil in Hin.
  - rewrite to_size_t_small by done.
    destruct (Z.ltb_spec (size (HanabiHand.Cards h)) hand_size) as [Hlt|Hge].
    + split; [|lia]. intros _. exists h. split; [left | done].
    + rewrite (IH (i + 1)) by lia. split.
      * intros (hand & Hin & Hlt). exists hand. split; [by right | done].
      * intros (hand & Hin & Hlt). apply elem_of_cons in Hin as [->|Hin]; [lia|].
        by exists hand.
Qed.

Lemma AdvanceToNextPlayer_spec s s' :
  game_wf (ParentGame s) →
  size (hands_ s) = HanabiGame.NumPlayers (ParentGame s) →
  0 ≤ next_non_chance_player_ s < HanabiGame.NumPlayers (ParentGame s) →
  AdvanceToNextPlayer s = Ok s' →
  (cur_player_ s' = kChancePlayerId ↔ deal_due s) ∧
  (deal_due s → next_non_chance_player_ s' = next_non_chance_player_ s) ∧
  (¬ deal_due s →
   cur_player_ s' = next_non_chance_player_ s ∧
   next_non_chance_player_ s'
   = (next_non_chance_player_ s + 1) mod HanabiGame.NumPlayers (ParentGame s)).
Proof.
  intros Hgame Hhands Hnext. unfold AdvanceToNextPlayer.
  pose proof (game_players _ Hgame) as Hplayers.
  pose proof (game_hand_size _ Hgame) as Hhand.
  assert (0 ≤ PlayerToDeal s ↔
          ∃ hand, hand ∈ hands_ s ∧
                  size (HanabiHand.Cards hand)
                  < HanabiGame.HandSize (ParentGame s)) as Hdeal.
  { apply PlayerToDeal_from_spec; lia. }
  destruct (HanabiDeck.Empty (deck_ s)) eqn:Hempty; simpl.
  - rewrite Hhands.
    destruct (Z.eqb_spec (HanabiGame.NumPlayers (ParentGame s)) 0); [lia|].
    intros [= <-]. simpl. rewrite to_size_t_small by lia.
    assert (¬ deal_due s) as Hno by (intros [? _]; congruence).
    split; [|done]. unfold kChancePlayerId. split; [lia | done].
  - destruct (Z.leb_spec 0 (PlayerToDeal s)) as [Hge|Hlt].
    + intros [= <-]. simpl.
      assert (deal_due s) as Hyes by (split; [done | by apply Hdeal]).
      done.
    + rewrite Hhands.
      destruct (Z.eqb_spec (HanabiGame.NumPlayers (ParentGame s)) 0); [lia|].
      intros [= <-]. simpl. rewrite to_size_t_small by lia.
      assert (¬ deal_due s) as Hno.
      { intros [_ Hex]. apply Hdeal in Hex. lia. }
      split; [|done]. unfold kChancePlayerId. split; [lia | done].
Qed.

(** C4.  After every applied move the next current actor is the chance actor
    iff the supply is non-empty and some hand is below the full hand size;
    otherwise it is the stored next non-chance player, and the stored
    pointer advances round-robin: its old value plus one, modulo the player
    count. *)
Theorem next_actor_after_move s m s'
    (Hwf : state_wf s) (Happly : ApplyMove s m = Ok s') :
  (cur_player_ s' = kChancePlayerId ↔ deal_due s') ∧
  (¬ deal_due s' →
   cur_player_ s' = next_non_chance_player_ s ∧
   next_non_chance_player_ s'
   = (next_non_chance_player_ s + 1) mod HanabiGame.NumPlayers (ParentGame s)).
Proof.
  apply ApplyMove_Ok in Happly as (Hlegal & s1 & h & Heffect & Hadvance).
  apply apply_effect_frame in Heffect
    as (Hgame & Hcur & Hnext & Hhistory & Hsize).
  set (s2 := set_move_history s1 (move_history_ s1 ++ [h])) in *.
  assert (parent_game_ (before_effect s) = parent_game_ s
          ∧ next_non_chance_player_ (before_effect s)
            = next_non_chance_player_ s
          ∧ hands_ (before_effect s) = hands_ s) as (Hg0 & Hn0 & Hh0).
  { unfold before_effect. by destruct (HanabiDeck.Empty _). }
  pose proof (AdvanceToNextPlayer_frame _ _ Hadvance)
    as (Hg' & Hd' & _ & Hh' & _).
  assert (deal_due s' ↔ deal_due s2) as Hdue.
  { unfold deal_due, ParentGame. by rewrite Hg', Hd', Hh'. }
  destruct Hwf as [Hwg Hwd Hwh Hwc Hwn Hwf]. unfold ParentGame in *.
  destruct (AdvanceToNextPlayer_spec s2 s') as (Hchance & _ & Hplayer).
  - unfold ParentGame. simpl. by rewrite Hgame, Hg0.
  - unfold ParentGame. simpl. by rewrite Hsize, Hh0, Hgame, Hg0.
  - unfold ParentGame. simpl. by rewrite Hnext, Hn0, Hgame, Hg0.
  - done.
  - rewrite Hdue. split; [done|]. intros Hno.
    destruct (Hplayer Hno) as [-> ->]. unfold ParentGame. simpl.
    by rewrite Hnext, Hn0, Hgame, Hg0.
Qed.

(** ** Playing a card *)

Lemma CardPlayableOnFireworks_spec s card :
  size (fireworks_ s) = HanabiGame.NumColors (ParentGame s) →
  CardPlayableOnFireworks s (HanabiCard.Color card) (HanabiCard.Rank card)
  = Ok (bool_decide (plays_on_fireworks s card)).
Proof.
  intros Hsize. unfold CardPlayableOnFireworks.
  case_bool_decide as Hplays; unfold plays_on_fireworks in Hplays.
  - pose proof (vec_at_size _ _ _ Hplays) as Hc. rewrite Z.geb_leb.
    destruct (Z.ltb_spec (HanabiCard.Color card) 0); [lia|].
    destruct (Z.leb_spec (HanabiGame.NumColors (ParentGame s))
                (HanabiCard.Color card)); [lia|].
    simpl. rewrite Hplays. simpl. by rewrite Z.eqb_refl.
  - rewrite Z.geb_leb.
    destruct (Z.ltb_spec (HanabiCard.Color card) 0); [done|].
    destruct (Z.leb_spec (HanabiGame.NumColors (ParentGame s))
                (HanabiCard.Color card)); [done|].
    destruct (vec_at_in_range (fireworks_ s) (HanabiCard.Color card))
      as [progress Hprogress]; [lia|].
    simpl. rewrite Hprogress. simpl.
    destruct (Z.eqb_spec (HanabiCard.Rank card) progress); [congruence|done].
Qed.

(** [AddToFireworks] on a playable card. *)
Lemma AddToFireworks_scored s card :
  size (fireworks_ s) = HanabiGame.NumColors (ParentGame s) →
  plays_on_fireworks s card →
  ∃ s', AddToFireworks s card
        = Ok (s', (true, bool_decide (play_bonus s card = 1))) ∧
        fireworks_ s'
        = <[Z.to_nat (HanabiCard.Color card) := HanabiCard.Rank card + 1]>
            (fireworks_ s) ∧
        information_tokens_ s' = information_tokens_ s + play_bonus s card ∧
        life_tokens_ s' = life_tokens_ s ∧
        discard_pile_ s' = discard_pile_ s ∧ hands_ s' = hands_ s ∧
        deck_ s' = deck_ s ∧ cur_player_ s' = cur_player_ s ∧
        move_history_ s' = move_history_ s.
Proof.
  intros Hsize Hplays. unfold AddToFireworks.
  rewrite CardPlayableOnFireworks_spec by done.
  rewrite bool_decide_eq_true_2 by done. simpl.
  unfold plays_on_fireworks in Hplays. rewrite Hplays. simpl.
  rewrite (proj2 (vec_set_Ok (fireworks_ s) _ (HanabiCard.Color card)
                    (HanabiCard.Rank card + 1))
             (conj (vec_at_size _ _ _ Hplays) eq_refl)). simpl.
  unfold play_bonus, IncrementInformationTokens, ParentGame. simpl.
  destruct (Z.eqb_spec (HanabiCard.Rank card + 1)
              (HanabiGame.NumRanks (parent_game_ s))) as [Hfull|Hpart].
  - destruct (Z.ltb_spec (information_tokens_ s)
                (HanabiGame.MaxInformationTokens (parent_game_ s))).
    + rewrite decide_True by done. eexists. split; [done|]. simpl.
      by rewrite Z.add_0_r || done.
    + rewrite decide_False by lia. eexists. split; [done|]. simpl.
      by rewrite Z.add_0_r.
  - rewrite decide_False by (intros [? _]; done).
    eexists. split; [done|]. simpl. by rewrite Z.add_0_r.
Qed.

(** [AddToFireworks] on an unplayable card: the assertion of
    [DecrementLifeTokens] decides whether the call returns. *)
Lemma AddToFireworks_failed s card :
  size (fireworks_ s) = HanabiGame.NumColors (ParentGame s) →
  ¬ plays_on_fireworks s card →
  AddToFireworks s card
  = if 0 <? life_tokens_ s
    then Ok (set_life_tokens s (life_tokens_ s - 1), (false, false))
    else Fault AssertFailed.
Proof.
  intros Hsize Hplays. unfold AddToFireworks.
  rewrite CardPlayableOnFireworks_spec by done.
  rewrite bool_decide_eq_false_2 by done. simpl.
  unfold DecrementLifeTokens. by destruct (0 <? life_tokens_ s).
Qed.

Lemma legal_play_card s i :
  hands_sized s → is_int i →
  MoveIsLegal s (HanabiMove.Play i) = Ok true →
  ∃ hand card,
    vec_at (hands_ s) (cur_player_ s) = Ok hand ∧
    vec_at (HanabiHand.Cards hand) i = Ok card ∧
    0 ≤ cur_player_ s < size (hands_ s).
Proof.
  intros Hsized Hi. unfold MoveIsLegal. simpl. intros H. inv_res.
  rename x into hand.
  match goal with E : vec_at (hands_ s) _ = _ |- _ => rename E into Hhand end.
  destruct (_ >=? _) eqn:Hidx; [discriminate|].
  pose proof Hhand as [_ Hl]%vec_at_Ok.
  pose proof (Forall_lookup_1 _ _ _ _ Hsized Hl) as Hlt. simpl in Hlt.
  apply to_size_t_index in Hidx; [|done|unfold size in *; lia].
  destruct (vec_at_in_range (HanabiHand.Cards hand) i Hidx) as [card Hcard].
  exists hand, card. split; [done|]. split; [done|]. by eapply vec_at_size.
Qed.

Lemma AdvanceToNextPlayer_defined s :
  size (hands_ s) ≠ 0 → ∃ s', AdvanceToNextPlayer s = Ok s'.
Proof.
  intros Hsize. unfold AdvanceToNextPlayer.
  destruct (_ && _); [eauto|].
  destruct (Z.eqb_spec (size (hands_ s)) 0); [done | eauto].
Qed.

Lemma apply_effect_Play_scored s i h hand card :
  size (fireworks_ s) = HanabiGame.NumColors (ParentGame s) →
  vec_at (hands_ s) (cur_player_ s) = Ok hand →
  vec_at (HanabiHand.Cards hand) i = Ok card →
  plays_on_fireworks s card →
  ∃ s1 h1,
    apply_effect s (HanabiMove.Play i) h = Ok (s1, h1) ∧
    hands_ s1 = <[Z.to_nat (cur_player_ s) := hand_without hand i]> (hands_ s) ∧
    deck_ s1 = deck_ s ∧
    fireworks_ s1
    = <[Z.to_nat (HanabiCard.Color card) := HanabiCard.Rank card + 1]>
        (fireworks_ s) ∧
    discard_pile_ s1 = discard_pile_ s ∧
    information_tokens_ s1 = information_tokens_ s + play_bonus s card ∧
    life_tokens_ s1 = life_tokens_ s ∧
    move_history_ s1 = move_history_ s ∧
    scored h1 = true ∧
    information_token h1 = bool_decide (play_bonus s card = 1).
Proof.
  intros Hfw Hhand Hcard Hplays.
  destruct (AddToFireworks_scored s card Hfw Hplays)
    as (s1 & Hadd & Hf1 & Hi1 & Hl1 & Hd1 & Hh1 & Hk1 & Hc1 & Hm1).
  unfold apply_effect. simpl. rewrite Hhand. simpl. rewrite Hcard. simpl.
  rewrite Hadd. simpl. unfold HanabiHand.RemoveFromHand.
  rewrite Hcard. simpl. rewrite Hh1, Hc1.
  rewrite (proj2 (vec_set_Ok (hands_ s) _ (cur_player_ s) _)
             (conj (vec_at_size _ _ _ Hhand) eq_refl)). simpl.
  eexists _, _. split; [done|]. simpl. by rewrite Hd1.
Qed.

Lemma apply_effect_Play_failed s i h hand card :
  size (fireworks_ s) = HanabiGame.NumColors (ParentGame s) →
  vec_at (hands_ s) (cur_player_ s) = Ok hand →
  vec_at (HanabiHand.Cards hand) i = Ok card →
  ¬ plays_on_fireworks s card →
  if 0 <? life_tokens_ s then
    ∃ s1 h1,
      apply_effect s (HanabiMove.Play i) h = Ok (s1, h1) ∧
      hands_ s1
      = <[Z.to_nat (cur_player_ s) := hand_without hand i]> (hands_ s) ∧
      deck_ s1 = deck_ s ∧ fireworks_ s1 = fireworks_ s ∧
      discard_pile_ s1 = discard_pile_ s ++ [card] ∧
      information_tokens_ s1 = information_tokens_ s ∧
      life_tokens_ s1 = life_tokens_ s - 1 ∧
      move_history_ s1 = move_history_ s ∧
      scored h1 = false ∧ information_token h1 = false
  else apply_effect s (HanabiMove.Play i) h = Fault AssertFailed.
Proof.
  intros Hfw Hhand Hcard Hplays.
  unfold apply_effect. simpl. rewrite Hhand. simpl. rewrite Hcard. simpl.
  rewrite AddToFireworks_failed by done.
  destruct (0 <? life_tokens_ s); [|done]. simpl.
  unfold HanabiHand.RemoveFromHand. rewrite Hcard. simpl.
  rewrite (proj2 (vec_set_Ok (hands_ s) _ (cur_player_ s) _)
             (conj (vec_at_size _ _ _ Hhand) eq_refl)). simpl.
  eexists _, _. split; [done|]. done.
Qed.

(** C1.  A legal Play of the card at index [i] by the current player removes
    that card from the player's hand and evaluates it against the fireworks:
    it scores iff its rank equals the fireworks progress of its color.  If it
    scores, that counter increments by one, the card is not appended to the
    discard pile, and one information token is recovered iff the increment
    completes the color's rank range and the tokens are under the cap (none
    otherwise).  If it does not score, one life token is spent, the
    fireworks are unchanged and the card is appended to the discard pile.
    The application returns unless the card does not score and no life token
    is left. *)
Theorem Play_effect s i
    (Hfw : size (fireworks_ s) = HanabiGame.NumColors (ParentGame s))
    (Hsized : hands_sized s) (Hi : is_int i)
    (Hlegal : MoveIsLegal s (HanabiMove.Play i) = Ok true) :
  cur_player_ s ≠ kChancePlayerId ∧
  ∃ hand card,
    vec_at (hands_ s) (cur_player_ s) = Ok hand ∧
    vec_at (HanabiHand.Cards hand) i = Ok card ∧
    ((∃ s', ApplyMove s (HanabiMove.Play i) = Ok s')
     ↔ plays_on_fireworks s card ∨ 0 < life_tokens_ s) ∧
    ∀ s', ApplyMove s (HanabiMove.Play i) = Ok s' → played s hand i card s'.
Proof.
  destruct (legal_play_card s i Hsized Hi Hlegal)
    as (hand & card & Hhand & Hcard & Hcur).
  split; [unfold kChancePlayerId; lia|].
  exists hand, card. split; [done|]. split; [done|].
  assert (hands_ (before_effect s) = hands_ s
          ∧ cur_player_ (before_effect s) = cur_player_ s
          ∧ fireworks_ (before_effect s) = fireworks_ s
          ∧ parent_game_ (before_effect s) = parent_game_ s
          ∧ life_tokens_ (before_effect s) = life_tokens_ s
          ∧ information_tokens_ (before_effect s) = information_tokens_ s
          ∧ discard_pile_ (before_effect s) = discard_pile_ s
          ∧ deck_ (before_effect s) = deck_ s
          ∧ move_history_ (before_effect s) = move_history_ s)
    as (Hh0 & Hc0 & Hf0 & Hg0 & Hl0 & Hi0 & Hd0 & Hk0 & Hm0).
  { unfold before_effect. by destruct (HanabiDeck.Empty _). }
  assert (plays_on_fireworks (before_effect s) card
          ↔ plays_on_fireworks s card) as Hplays0
    by (unfold plays_on_fireworks; by rewrite Hf0).
  assert (play_bonus (before_effect s) card = play_bonus s card) as Hbonus0
    by (unfold play_bonus, ParentGame; by rewrite Hg0, Hi0).
  assert (size (fireworks_ (before_effect s))
          = HanabiGame.NumColors (ParentGame (before_effect s))) as Hfw0
    by (unfold ParentGame; by rewrite Hf0, Hg0).
  rewrite <- Hh0, <- Hc0 in Hhand.
  assert (∀ s1, size (hands_ s1) = size (hands_ s) → size (hands_ s1) ≠ 0)
    as Hnonempty by (intros s1 ->; lia).
  destruct (decide (plays_on_fireworks s card)) as [Hyes|Hno].
  - (* the card scores *)
    destruct (apply_effect_Play_scored (before_effect s) i
                (mkHistory (HanabiMove.Play i) (cur_player_ (before_effect s))
                   false false (-1) (-1) 0 0 (-1))
                hand card Hfw0 Hhand Hcard ltac:(by apply Hplays0))
      as (s1 & h1 & Heffect & Hh1 & Hk1 & Hf1 & Hd1 & Hi1 & Hl1 & Hm1
          & Hscored & Htoken).
    split.
    + split; [by left|]. intros _.
      destruct (AdvanceToNextPlayer_defined
                  (set_move_history s1 (move_history_ s1 ++ [h1])))
        as [s' Hadvance].
      { simpl. apply Hnonempty. rewrite Hh1, Hh0. unfold size.
        by rewrite length_insert. }
      exists s'. apply ApplyMove_Ok. eauto.
    + intros s' Happly.
      apply ApplyMove_Ok in Happly as (_ & s1' & h1' & Heffect' & Hadvance).
      rewrite Heffect in Heffect'. injection Heffect' as <- <-.
      apply AdvanceToNextPlayer_frame in Hadvance
        as (_ & Hk' & Hd' & Hh' & Hm' & Hi' & Hl' & Hf' & _).
      simpl in *. split.
      * rewrite Hh', Hh1, Hh0, Hc0. done.
      * congruence.
      * exists h1. split; [congruence|].
        rewrite Hscored, Htoken, Hbonus0.
        rewrite (bool_decide_eq_true_2 _ Hyes). split; [done|].
        apply bool_decide_ext. tauto.
      * intros _. rewrite Hf', Hf1, Hf0, Hd', Hd1, Hd0, Hi', Hi1, Hi0, Hbonus0,
          Hl', Hl1, Hl0. done.
      * done.
  - (* the card does not score *)
    pose proof (apply_effect_Play_failed (before_effect s) i
                  (mkHistory (HanabiMove.Play i)
                     (cur_player_ (before_effect s))
                     false false (-1) (-1) 0 0 (-1))
                  hand card Hfw0 Hhand Hcard ltac:(by rewrite Hplays0))
      as Heffect.
    rewrite Hl0 in Heffect.
    destruct (Z.ltb_spec 0 (life_tokens_ s)) as [Hlife|Hlife].
    + destruct Heffect
        as (s1 & h1 & Heffect & Hh1 & Hk1 & Hf1 & Hd1 & Hi1 & Hl1 & Hm1
            & Hscored & Htoken).
      split.
      * split; [by right|]. intros _.
        destruct (AdvanceToNextPlayer_defined
                    (set_move_history s1 (move_history_ s1 ++ [h1])))
          as [s' Hadvance].
        { simpl. apply Hnonempty. rewrite Hh1, Hh0. unfold size.
          by rewrite length_insert. }
        exists s'. apply ApplyMove_Ok. eauto.
      * intros s' Happly.
        apply ApplyMove_Ok in Happly as (_ & s1' & h1' & Heffect' & Hadvance).
        rewrite Heffect in Heffect'. injection Heffect' as <- <-.
        apply AdvanceToNextPlayer_frame in Hadvance
          as (_ & Hk' & Hd' & Hh' & Hm' & Hi' & Hl' & Hf' & _).
        simpl in *. split.
        -- rewrite Hh', Hh1, Hh0, Hc0. done.
        -- congruence.
        -- exists h1. split; [congruence|].
           rewrite Hscored, Htoken.
           rewrite (bool_decide_eq_false_2 _ Hno). split; [done|].
           symmetry. apply bool_decide_eq_false_2. tauto.
        -- done.
        -- intros _. rewrite Hl', Hl1, Hf', Hf1, Hf0, Hd', Hd1, Hd0, Hi', Hi1,
             Hi0. done.
    + split.
      * split; [|intros [?|?]; (done || lia)].
        intros [s' Happly].
        apply ApplyMove_Ok in Happly as (_ & s1' & h1' & Heffect' & _).
        congruence.
      * intros s' Happly.
        apply ApplyMove_Ok in Happly as (_ & s1' & h1' & Heffect' & _).
        congruence.
Qed.

(** ** Forcing a hand slot *)

Lemma deck_with_restored game d c r n :
  deck_wf game d → in_range game c r →
  HanabiDeck.CardCount d c r = Ok n → 0 ≤ n →
  restored_to game d
    (deck_with d (c * HanabiGame.NumRanks game + r) n (n + 1)) c r.
Proof.
  intros Hwf [Hc Hr] Hn Hpos.
  pose proof (proj1 (CardCount_Ok game d c r n Hwf) Hn) as Hv.
  split; [apply deck_with_wf; (done || lia)|].
  split; [|split].
  - exists n. split; [done|].
    rewrite (deck_with_count game) by (done || nia).
    by rewrite decide_True.
  - unfold HanabiDeck.Size. simpl. lia.
  - intros c' r' [Hc' Hr'] Hne.
    rewrite (deck_with_count game) by (done || nia).
    rewrite decide_False; [done|].
    intros E. apply index_inj in E as [-> ->]; [done | lia | lia].
Qed.

(** C10.  A call of SetHandCard within its preconditions (a valid player,
    a valid index into that player's hand, a valid card) returns the old
    card's identity to the supply (its count increments by one), then
    decrements the requested identity's count by one if it was positive, and
    in all cases sets the hand slot to the requested card with fresh
    knowledge: when the requested identity's count is zero the supply is
    left undecremented, the slot is still replaced and no error is
    signalled. *)
Theorem SetHandCard_effect s player card_index card hand old_card
    (Hwf : state_wf s)
    (Hplayer : 0 ≤ player < HanabiGame.NumPlayers (ParentGame s))
    (Hindex : is_int card_index)
    (Hhand : vec_at (hands_ s) player = Ok hand)
    (Hold : vec_at (HanabiHand.Cards hand) card_index = Ok old_card)
    (Hold_range :
       in_range (ParentGame s)
         (HanabiCard.Color old_card) (HanabiCard.Rank old_card))
    (Hcard :
       in_range (ParentGame s) (HanabiCard.Color card) (HanabiCard.Rank card)) :
  ∃ s' d1 n,
    SetHandCard s player card_index card = Ok s' ∧
    restored_to (ParentGame s) (deck_ s) d1
      (HanabiCard.Color old_card) (HanabiCard.Rank old_card) ∧
    HanabiDeck.CardCount d1 (HanabiCard.Color card) (HanabiCard.Rank card)
    = Ok n ∧
    (if n =? 0 then deck_ s' = d1
     else drawn_from (ParentGame s) d1 (deck_ s')
            (HanabiCard.Color card) (HanabiCard.Rank card)) ∧
    hands_ s'
    = <[Z.to_nat player := hand_with (ParentGame s) hand card_index card]>
        (hands_ s) ∧
    s' = set_hands (set_deck s (deck_ s')) (hands_ s').
Proof.
  pose proof (wf_deck _ Hwf) as Hdeck.
  pose proof (game_players _ (wf_game _ Hwf)) as Hplayers.
  pose proof (vec_at_size _ _ _ Hold) as Hi.
  destruct (AddCard_Ok _ _ _ _ Hdeck Hold_range) as (k & Hk & Hkpos & Hadd).
  pose proof (deck_with_restored _ _ _ _ _ Hdeck Hold_range Hk Hkpos)
    as Hrestored.
  set (d1 := deck_with (deck_ s) _ k (k + 1)) in *.
  pose proof Hrestored as [Hdeck1 _].
  destruct (CardCount_defined _ d1 _ _ Hdeck1 Hcard) as (n & Hn & Hnpos).
  unfold SetHandCard.
  rewrite (to_size_t_small player) by lia. rewrite (wf_hands _ Hwf).
  destruct (Z.leb_spec 0 player); [|lia].
  destruct (Z.ltb_spec player (HanabiGame.NumPlayers (ParentGame s))); [|lia].
  simpl. rewrite Hhand. simpl.
  rewrite (to_size_t_small card_index) by (unfold is_int in Hindex; lia).
  destruct (Z.leb_spec 0 card_index); [|lia].
  destruct (Z.ltb_spec card_index (size (HanabiHand.Cards hand))); [|lia].
  simpl.
  assert (HanabiCard.IsValid card = true) as ->.
  { unfold HanabiCard.IsValid. destruct Hcard as [? ?].
    apply andb_true_iff. split; apply Z.leb_le; lia. }
  assert (HanabiCard.IsValid old_card = true) as Hvalid.
  { unfold HanabiCard.IsValid. destruct Hold_range as [? ?].
    apply andb_true_iff. split; apply Z.leb_le; lia. }
  simpl. rewrite Hold. simpl. rewrite Hvalid, Hadd. simpl.
  unfold HanabiHand.SetCard. 
  assert (vec_set (hands_ s) player (hand_with (ParentGame s) hand card_index card)
          = Ok (<[Z.to_nat player := hand_with (ParentGame s) hand card_index card]>
                  (hands_ s))) as Hset.
  { apply vec_set_Ok. split; [by eapply vec_at_size | done]. }
  destruct (Z.eqb_spec n 0) as [->|Hne].
  - rewrite (DealCard_zero _ _ _ _ Hdeck1 Hn). simpl.
    rewrite Hold. simpl. unfold hand_with in Hset. rewrite Hset. simpl.
    eexists _, d1, 0. split; [done|]. simpl. done.
  - rewrite (DealCard_positive _ _ _ _ n Hdeck1 Hcard Hn) by lia. simpl.
    rewrite Hold. simpl. unfold hand_with in Hset. rewrite Hset. simpl.
    eexists _, d1, n. split; [done|]. simpl.
    destruct (Z.eqb_spec n 0); [done|].
    split; [done|]. split; [done|]. split; [|done].
    apply deck_with_drawn; (done || lia).
Qed.

(** ** Conservation of cards *)

Lemma sumZ_delete (v : list Z) (i : nat) (x : Z) :
  v !! i = Some x → sumZ (delete i v) = sumZ v - x.
Proof.
  revert i. induction v as [|z v IH]; intros [|i] H; simplify_eq/=; [lia|].
  rewrite (IH i H). lia.
Qed.

Lemma fmap_delete {A B} (f : A → B) (l : list A) (i : nat) :
  f <$> delete i l = delete i (f <$> l).
Proof.
  revert i. induction l as [|x l IH]; intros [|i]; simpl; try done.
  by rewrite IH.
Qed.

Lemma count_card_app c r cards card :
  count_card c r (cards ++ [card])
  = count_card c r cards + card_indicator c r card.
Proof.
  unfold count_card. rewrite fmap_app, sumZ_app. simpl. lia.
Qed.

Lemma count_card_delete c r cards i card :
  cards !! i = Some card →
  count_card c r (delete i cards)
  = count_card c r cards - card_indicator c r card.
Proof.
  intros H. unfold count_card. rewrite fmap_delete.
  apply sumZ_delete. by rewrite list_lookup_fmap, H.
Qed.

Lemma count_in_hands_insert c r hands p hand hand' :
  hands !! p = Some hand →
  count_in_hands c r (<[p := hand']> hands)
  = count_in_hands c r hands
    - count_card c r (HanabiHand.Cards hand)
    + count_card c r (HanabiHand.Cards hand').
Proof.
  intros H. unfold count_in_hands. rewrite list_fmap_insert.
  apply sumZ_insert. by rewrite list_lookup_fmap, H.
Qed.

Lemma count_in_hands_replicate_empty c r n :
  count_in_hands c r (replicate n HanabiHand.empty) = 0.
Proof.
  induction n; [done|].
  unfold count_in_hands, count_card in *. simpl. exact IHn.
Qed.

Lemma in_fireworks_replicate_0 c r n :
  0 ≤ r → in_fireworks c r (replicate n 0) = 0.
Proof.
  intros Hr. unfold in_fireworks.
  destruct (replicate n 0 !! Z.to_nat c) as [p|] eqn:Hp; [|done].
  apply lookup_replicate in Hp as [-> _].
  destruct (Z.ltb_spec r 0); [lia | done].
Qed.

(** A scoring play moves exactly the played identity into the fireworks. *)
Lemma in_fireworks_scored c r fireworks card :
  0 ≤ c →
  vec_at fireworks (HanabiCard.Color card) = Ok (HanabiCard.Rank card) →
  in_fireworks c r
    (<[Z.to_nat (HanabiCard.Color card) := HanabiCard.Rank card + 1]> fireworks)
  = in_fireworks c r fireworks + card_indicator c r card.
Proof.
  intros Hc [Hcolor Hprogress]%vec_at_Ok. unfold in_fireworks, card_indicator.
  destruct card as [color rank]. simpl in *.
  destruct (decide (color = c)) as [->|Hne].
  - rewrite list_lookup_insert_eq by (by eapply lookup_lt_Some).
    rewrite Hprogress.
    destruct (Z.ltb_spec r (rank + 1)), (Z.ltb_spec r rank);
      case_decide; simplify_eq; try lia.
    assert (rank = r) as -> by lia. done.
  - rewrite list_lookup_insert_ne by lia.
    rewrite decide_False by congruence. lia.
Qed.

(** The card drawn at an index is the card of an identity iff the index is
    that of the identity. *)
Lemma card_indicator_index game c r index :
  in_range game c r →
  0 ≤ index < HanabiGame.NumColors game * HanabiGame.NumRanks game →
  card_indicator c r
    (HanabiCard.mk (Z.quot index (HanabiGame.NumRanks game))
                   (Z.rem index (HanabiGame.NumRanks game)))
  = if decide (index = c * HanabiGame.NumRanks game + r) then 1 else 0.
Proof.
  intros [Hc Hr] Hindex. unfold card_indicator.
  destruct (index_decode _ _ index Hindex ltac:(lia)) as (Hq & Hm & Hsplit).
  case_decide as Hcard; case_decide as Hidx; try done.
  - injection Hcard as Hq' Hm'. rewrite Hq', Hm' in Hsplit. done.
  - subst index. rewrite index_quot, index_rem in Hcard by lia. done.
Qed.

Lemma DealCard_cases game d c r card d' :
  deck_wf game d → 0 ≤ HanabiGame.NumColors game →
  HanabiDeck.DealCard d c r = Ok (card, d') →
  (card = HanabiCard.invalid ∧ d' = d) ∨
  ∃ n, vec_at (HanabiDeck.card_count_ d) (c * HanabiGame.NumRanks game + r)
       = Ok n ∧ 0 < n ∧
       card = HanabiCard.mk
                (Z.quot (c * HanabiGame.NumRanks game + r)
                   (HanabiGame.NumRanks game))
                (Z.rem (c * HanabiGame.NumRanks game + r)
                   (HanabiGame.NumRanks game)) ∧
       d' = deck_with d (c * HanabiGame.NumRanks game + r) n (n - 1).
Proof.
  intros Hwf Hnc. unfold HanabiDeck.DealCard, HanabiDeck.CardToIndex.
  rewrite (deck_wf_ranks _ _ Hwf). intros H. inv_res. rename x into n.
  destruct (Z.leb_spec n 0) as [Hle|Hpos].
  - left. by inv_res; subst.
  - right. exists n.
    match goal with E : vec_at _ _ = Ok n |- _ =>
      rewrite (take_Ok game d _ n Hwf Hnc E Hpos) in H end.
    inv_res. by subst.
Qed.

Lemma card_indicator_invalid game c r :
  in_range game c r → card_indicator c r HanabiCard.invalid = 0.
Proof.
  intros [Hc Hr]. unfold card_indicator, HanabiCard.invalid.
  rewrite decide_False; [done|]. intros [= ? ?]. lia.
Qed.

Lemma reveal_color_cards hand color :
  HanabiHand.Cards (HanabiHand.RevealColor hand color).1
  = HanabiHand.Cards hand.
Proof. unfold HanabiHand.RevealColor. by destruct (HanabiHand.reveal_color_from _ _ _ _ _). Qed.

Lemma reveal_rank_cards hand rank :
  HanabiHand.Cards (HanabiHand.RevealRank hand rank).1
  = HanabiHand.Cards hand.
Proof. unfold HanabiHand.RevealRank. by destruct (HanabiHand.reveal_rank_from _ _ _ _ _). Qed.

Lemma count_in_hands_same_cards c r hands i hand hand' :
  vec_at hands i = Ok hand →
  HanabiHand.Cards hand' = HanabiHand.Cards hand →
  count_in_hands c r (<[Z.to_nat i := hand']> hands) = count_in_hands c r hands.
Proof.
  intros [_ Hhand]%vec_at_Ok Hcards.
  rewrite (count_in_hands_insert _ _ _ _ hand) by done. rewrite Hcards. lia.
Qed.

Lemma HandByOffset_hand s offset i hand :
  HandByOffset s offset = Ok (i, hand) → vec_at (hands_ s) i = Ok hand.
Proof.
  unfold HandByOffset. destruct (_ =? _); [discriminate|].
  intros H. inv_res. by subst.
Qed.

(** The effect of a move keeps the supply consistent. *)
Lemma apply_effect_deck_wf s m h s1 h1 :
  deck_wf (ParentGame s) (deck_ s) →
  0 ≤ HanabiGame.NumColors (ParentGame s) →
  apply_effect s m h = Ok (s1, h1) →
  deck_wf (ParentGame s1) (deck_ s1).
Proof.
  intros Hdeck Hnc Heffect.
  pose proof (apply_effect_frame _ _ _ _ _ Heffect) as (Hgame & _).
  unfold ParentGame in *. rewrite Hgame. revert Heffect.
  unfold apply_effect, DecrementInformationTokens, HanabiHand.RemoveFromHand.
  intros H. destruct (HanabiMove.MoveType m); inv_res; subst; simpl;
    repeat match goal with
    | E : AddToFireworks _ _ = _ |- _ => apply AddToFireworks_frame in E
    | E : IncrementInformationTokens _ = _ |- _ =>
        apply IncrementInformationTokens_frame in E
    end; simpl in *; try (intuition congruence).
  match goal with E : HanabiDeck.DealCard _ _ _ = _ |- _ =>
    destruct (DealCard_cases (parent_game_ s) _ _ _ _ _ Hdeck Hnc E)
      as [[-> ->]|(n & Hn & Hpos & -> & ->)] end; [done|].
  apply deck_with_wf; (done || lia).
Qed.

Lemma AddToFireworks_inv s card s1 did_score gained :
  AddToFireworks s card = Ok (s1, (did_score, gained)) →
  (did_score = true ∧ plays_on_fireworks s card ∧
   fireworks_ s1
   = <[Z.to_nat (HanabiCard.Color card) := HanabiCard.Rank card + 1]>
       (fireworks_ s) ∧
   life_tokens_ s1 = life_tokens_ s ∧
   (information_tokens_ s1 = information_tokens_ s
    ∨ information_tokens_ s < HanabiGame.MaxInformationTokens (ParentGame s)
      ∧ information_tokens_ s1 = information_tokens_ s + 1))
  ∨ (did_score = false ∧ gained = false ∧
     fireworks_ s1 = fireworks_ s ∧ 0 < life_tokens_ s ∧
     life_tokens_ s1 = life_tokens_ s - 1 ∧
     information_tokens_ s1 = information_tokens_ s).
Proof.
  unfold AddToFireworks, DecrementLifeTokens, CardPlayableOnFireworks.
  intros H. inv_res. destruct x as [|].
  - left. destruct (_ || _); inv_res; [done|].
    match goal with E : (_ =? _) = true |- _ => apply Z.eqb_eq in E end.
    subst.
    match goal with E : vec_set _ _ _ = _ |- _ =>
      apply vec_set_Ok in E as [_ ->] end.
    assert (plays_on_fireworks s card) as Hplays.
    { unfold plays_on_fireworks. congruence. }
    unfold plays_on_fireworks in Hplays.
    match goal with E : vec_at _ _ = Ok ?p |- _ =>
      assert (p = HanabiCard.Rank card) as -> by congruence end.
    destruct (_ =? _); inv_res; subst; simpl.
    + unfold IncrementInformationTokens, ParentGame in *. simpl in *.
      destruct (Z.ltb_spec (information_tokens_ s)
                  (HanabiGame.MaxInformationTokens (parent_game_ s)));
        inv_res; subst; simpl; intuition.
    + intuition.
  - right. inv_res. subst. simpl.
    match goal with E : (0 <? _) = true |- _ => apply Z.ltb_lt in E end.
    done.
Qed.

(** The effect of a move conserves the cards of every identity. *)
Lemma apply_effect_conserved s m h s1 h1 c r :
  deck_wf (ParentGame s) (deck_ s) → in_range (ParentGame s) c r →
  apply_effect s m h = Ok (s1, h1) →
  conserved s c r → conserved s1 c r.
Proof.
  intros Hdeck Hcr Heffect (k & Hk & Hkpos & Hsum).
  pose proof (apply_effect_frame _ _ _ _ _ Heffect) as (Hgame & _).
  unfold conserved, ParentGame in *. rewrite Hgame. revert Heffect.
  unfold apply_effect. intros H.
  destruct (HanabiMove.MoveType m) eqn:Hm.
  - (* kInvalid *) discriminate.
  - (* kPlay *)
    inv_res. rename x into hand, x0 into card. subst.
    unfold HanabiHand.RemoveFromHand in *. inv_res. subst. simpl in *.
    match goal with E : vec_at (HanabiHand.Cards hand) _ = Ok x |- _ =>
      assert (x = card) as -> by congruence; clear E end.
    match goal with E : AddToFireworks _ _ = _ |- _ =>
      pose proof (AddToFireworks_frame _ _ _ _ E)
        as (_ & Hd & Hp & Hh & _ & Hc & _);
      apply AddToFireworks_inv in E
        as [(-> & Hplays & Hf & _)|(-> & _ & Hf & _)] end;
      match goal with E : vec_set _ _ _ = _ |- _ =>
        apply vec_set_Ok in E as [_ ->] end;
      rewrite Hd, Hp, Hh, Hc, Hf; simpl;
      match goal with
      | Hhand : vec_at (hands_ s) _ = Ok hand,
        Hcard : vec_at (HanabiHand.Cards hand) _ = Ok card |- _ =>
          apply vec_at_Ok in Hhand as [_ Hhand];
          apply vec_at_Ok in Hcard as [_ Hcard];
          rewrite (count_in_hands_insert _ _ _ _ hand) by done; simpl;
          rewrite (count_card_delete _ _ _ _ card) by done
      end; exists k; (split; [done|]); (split; [done|]).
    + rewrite in_fireworks_scored by (done || apply Hcr). lia.
    + rewrite count_card_app. lia.
  - (* kDiscard *)
    inv_res. rename x into hand, x0 into card. subst.
    unfold HanabiHand.RemoveFromHand in *. inv_res. subst. simpl in *.
    match goal with E : vec_at (HanabiHand.Cards hand) _ = Ok x |- _ =>
      assert (x = card) as -> by congruence; clear E end.
    match goal with E : IncrementInformationTokens _ = _ |- _ =>
      apply IncrementInformationTokens_frame in E
        as (_ & Hd & Hp & Hh & _ & Hc & _ & _ & Hf & _) end.
    match goal with E : vec_set _ _ _ = _ |- _ =>
      apply vec_set_Ok in E as [_ ->] end.
    rewrite Hd, Hp, Hh, Hc, Hf in *.
    match goal with
    | Hhand : vec_at (hands_ s) _ = Ok hand,
      Hcard : vec_at (HanabiHand.Cards hand) _ = Ok card |- _ =>
        apply vec_at_Ok in Hhand as [_ Hhand];
        apply vec_at_Ok in Hcard as [_ Hcard];
        rewrite (count_in_hands_insert _ _ _ _ hand) by done; simpl;
        rewrite (count_card_delete _ _ _ _ card) by done
    end.
    exists k. split; [done|]. split; [done|].
    rewrite count_card_app. lia.
  - (* kRevealColor *)
    unfold DecrementInformationTokens in H. inv_res. subst. simpl in *.
    match goal with E : HandByOffset _ _ = _ |- _ =>
      apply HandByOffset_hand in E; simpl in E; rename E into Hhand end.
    match goal with E : vec_set _ _ _ = _ |- _ =>
      apply vec_set_Ok in E as [_ ->] end.
    match goal with E : HanabiHand.RevealColor ?hd ?col = _ |- _ =>
      pose proof (reveal_color_cards hd col) as Hcards;
      rewrite E in Hcards; simpl in Hcards end.
    rewrite (count_in_hands_same_cards _ _ _ _ _ _ Hhand Hcards).
    by exists k.
  - (* kRevealRank *)
    unfold DecrementInformationTokens in H. inv_res. subst. simpl in *.
    match goal with E : HandByOffset _ _ = _ |- _ =>
      apply HandByOffset_hand in E; simpl in E; rename E into Hhand end.
    match goal with E : vec_set _ _ _ = _ |- _ =>
      apply vec_set_Ok in E as [_ ->] end.
    match goal with E : HanabiHand.RevealRank ?hd ?rk = _ |- _ =>
      pose proof (reveal_rank_cards hd rk) as Hcards;
      rewrite E in Hcards; simpl in Hcards end.
    rewrite (count_in_hands_same_cards _ _ _ _ _ _ Hhand Hcards).
    by exists k.
  - (* kDeal *)
    inv_res. subst. simpl in *.
    match goal with E : vec_set _ _ _ = _ |- _ =>
      apply vec_set_Ok in E as [_ ->] end.
    match goal with E : vec_at (hands_ s) _ = Ok ?hd |- _ =>
      apply vec_at_Ok in E as [_ E];
      rewrite (count_in_hands_insert _ _ _ _ hd) by done; simpl end.
    rewrite count_card_app.
    assert (0 ≤ HanabiGame.NumColors (parent_game_ s)) as Hnc
      by (destruct Hcr; lia).
    match goal with E : HanabiDeck.DealCard _ _ _ = _ |- _ =>
      destruct (DealCard_cases (parent_game_ s) _ _ _ _ _ Hdeck Hnc E)
        as [[-> ->]|(n & Hn & Hpos & -> & ->)] end.
    + rewrite (card_indicator_invalid (parent_game_ s)) by done.
      exists k. split; [done|]. split; [done|]. lia.
    + pose proof (vec_at_size _ _ _ Hn) as Hidx.
      rewrite (deck_wf_size _ _ Hdeck) in Hidx.
      rewrite (card_indicator_index (parent_game_ s)) by done.
      rewrite (deck_with_count (parent_game_ s)) by
        (done || (destruct Hcr; nia)).
      case_decide as Hsame.
      * assert (k = n) as ->.
        { apply (CardCount_Ok (parent_game_ s)) in Hk; [|done]. congruence. }
        exists (n - 1). split; [done|]. split; lia.
      * exists k. split; [done|]. split; [done|]. lia.
Qed.

Lemma before_effect_frame s :
  parent_game_ (before_effect s) = parent_game_ s ∧
  deck_ (before_effect s) = deck_ s ∧
  discard_pile_ (before_effect s) = discard_pile_ s ∧
  hands_ (before_effect s) = hands_ s ∧
  move_history_ (before_effect s) = move_history_ s ∧
  cur_player_ (before_effect s) = cur_player_ s ∧
  next_non_chance_player_ (before_effect s) = next_non_chance_player_ s ∧
  information_tokens_ (before_effect s) = information_tokens_ s ∧
  life_tokens_ (before_effect s) = life_tokens_ s ∧
  fireworks_ (before_effect s) = fireworks_ s.
Proof. unfold before_effect. by destruct (HanabiDeck.Empty _). Qed.

(** The state built by the constructor. *)
Lemma new_state_Ok game start_player s :
  game_wf game → new_state game start_player = Ok s →
  parent_game_ s = game ∧
  deck_filled game (HanabiGame.NumColors game * HanabiGame.NumRanks game)
    (deck_ s) ∧
  discard_pile_ s = [] ∧
  hands_ s = replicate (Z.to_nat (HanabiGame.NumPlayers game)) HanabiHand.empty ∧
  cur_player_ s = kChancePlayerId ∧
  0 ≤ next_non_chance_player_ s < HanabiGame.NumPlayers game ∧
  information_tokens_ s = HanabiGame.MaxInformationTokens game ∧
  life_tokens_ s = HanabiGame.MaxLifeTokens game ∧
  fireworks_ s = replicate (Z.to_nat (HanabiGame.NumColors game)) 0 ∧
  turns_to_play_ s = HanabiGame.NumPlayers game.
Proof.
  intros Hgame. unfold new_state.
  destruct (HanabiDeck_new_filled game (game_colors _ Hgame)
              (game_ranks _ Hgame)) as (d & -> & Hfilled).
  simpl. intros [= <-]. simpl. repeat (split; [done|]).
  split; [|done].
  pose proof (game_start_player _ Hgame).
  destruct (Z.leb_spec 0 start_player),
    (Z.ltb_spec start_player (HanabiGame.NumPlayers game)); simpl; lia.
Qed.

Lemma new_state_defined game start_player :
  game_wf game → ∃ s, new_state game start_player = Ok s.
Proof.
  intros Hgame. unfold new_state.
  destruct (HanabiDeck_new_filled game (game_colors _ Hgame)
              (game_ranks _ Hgame)) as (d & -> & _).
  simpl. eauto.
Qed.

Lemma conservation_inv_new game start_player s :
  game_wf game → new_state game start_player = Ok s →
  conservation_inv game s.
Proof.
  intros Hgame Hnew.
  destruct (new_state_Ok _ _ _ Hgame Hnew)
    as (Hg & Hfilled & Hpile & Hhands & _ & _ & _ & _ & Hfw & _).
  split; [done|]. split; [by apply deck_filled_wf|].
  intros c r Hcr. unfold conserved, ParentGame.
  rewrite Hg, Hhands, Hpile, Hfw.
  exists (HanabiGame.NumberCardInstances game c r).
  split; [by apply deck_filled_count|]. split; [apply Hgame|].
  rewrite count_in_hands_replicate_empty.
  rewrite in_fireworks_replicate_0 by (destruct Hcr; lia).
  unfold count_card. simpl. lia.
Qed.

Lemma conservation_inv_step game s m s' :
  0 ≤ HanabiGame.NumColors game →
  conservation_inv game s → ApplyMove s m = Ok s' → conservation_inv game s'.
Proof.
  intros Hnc (Hg & Hdeck & Hcons) Happly.
  apply ApplyMove_Ok in Happly as (_ & s1 & h & Heffect & Hadvance).
  pose proof (before_effect_frame s)
    as (Hg0 & Hd0 & Hp0 & Hh0 & _ & _ & _ & _ & _ & Hf0).
  pose proof (apply_effect_frame _ _ _ _ _ Heffect) as (Hg1 & _).
  apply AdvanceToNextPlayer_frame in Hadvance
    as (Hg' & Hd' & Hp' & Hh' & _ & _ & _ & Hf' & _).
  simpl in *.
  assert (deck_wf (ParentGame (before_effect s)) (deck_ (before_effect s)))
    as Hdeck0 by (unfold ParentGame; by rewrite Hg0, Hd0, Hg).
  split; [congruence|]. split.
  - rewrite Hd'. 
    pose proof (apply_effect_deck_wf _ _ _ _ _ Hdeck0
                  ltac:(unfold ParentGame; by rewrite Hg0, Hg) Heffect)
      as Hdeck1.
    unfold ParentGame in Hdeck1. by rewrite Hg1, Hg0, Hg in Hdeck1.
  - intros c r Hcr.
    assert (conserved (before_effect s) c r) as Hcons0.
    { destruct (Hcons c r Hcr) as (n & Hn & Hpos & Hsum).
      exists n. unfold ParentGame in *. by rewrite Hd0, Hh0, Hp0, Hf0, Hg0. }
    pose proof (apply_effect_conserved _ _ _ _ _ c r Hdeck0
                  ltac:(unfold ParentGame; by rewrite Hg0, Hg) Heffect Hcons0)
      as (n & Hn & Hpos & Hsum).
    exists n. unfold ParentGame in *. by rewrite Hd', Hh', Hp', Hf', Hg'.
Qed.

Lemma reachable_conservation_inv game s :
  game_wf game → reachable game s → conservation_inv game s.
Proof.
  intros Hgame. induction 1 as [start s Hnew|s m s' _ IH Happly].
  - by eapply conservation_inv_new.
  - eapply conservation_inv_step; [apply Hgame | done | done].
Qed.

(** C5.  In every state reached from a freshly constructed state by legal
    moves, and for every identity (color, rank): the supply's remaining
    count, plus the occurrences of the identity in all hands, plus its
    occurrences in the discard pile, plus one if the rank is below the
    fireworks progress of the color, equals the multiplicity configured for
    the identity; and the count is not negative. *)
Theorem cards_conserved game s c r
    (Hgame : game_wf game) (Hreach : reachable game s)
    (Hcr : in_range game c r) :
  ∃ n, HanabiDeck.CardCount (deck_ s) c r = Ok n ∧ 0 ≤ n ∧
       n + count_in_hands c r (hands_ s)
         + count_card c r (discard_pile_ s)
         + in_fireworks c r (fireworks_ s)
       = HanabiGame.NumberCardInstances game c r.
Proof.
  destruct (reachable_conservation_inv game s Hgame Hreach)
    as (Hg & _ & Hcons).
  destruct (Hcons c r Hcr) as (n & Hn & Hpos & Hsum).
  exists n. unfold ParentGame in Hsum. by rewrite Hg in Hsum.
Qed.

(** ** Token bounds *)

Lemma IncrementInformationTokens_bound s s' gained :
  IncrementInformationTokens s = (s', gained) →
  information_tokens_ s ≤ information_tokens_ s' ∧
  (information_tokens_ s ≤ HanabiGame.MaxInformationTokens (ParentGame s) →
   information_tokens_ s' ≤ HanabiGame.MaxInformationTokens (ParentGame s)).
Proof.
  unfold IncrementInformationTokens.
  destruct (Z.ltb_spec (information_tokens_ s)
              (HanabiGame.MaxInformationTokens (ParentGame s)));
    intros [= <- <-]; simpl; lia.
Qed.

Lemma apply_effect_tokens s m h s1 h1 :
  apply_effect s m h = Ok (s1, h1) → tokens_in_range s → tokens_in_range s1.
Proof.
  intros Heffect [Hinfo Hlife].
  pose proof (apply_effect_frame _ _ _ _ _ Heffect) as (Hgame & _).
  unfold tokens_in_range, ParentGame in *. rewrite Hgame. revert Heffect.
  unfold apply_effect, DecrementInformationTokens, HanabiHand.RemoveFromHand.
  intros H. destruct (HanabiMove.MoveType m); inv_res; subst; simpl in *;
    try done;
    repeat match goal with
    | E : (0 <? _) = true |- _ => apply Z.ltb_lt in E
    end; try lia.
  - match goal with E : AddToFireworks _ _ = _ |- _ =>
      apply AddToFireworks_inv in E
        as [(_ & _ & _ & -> & [-> | [? ->]])|(_ & _ & _ & ? & -> & ->)] end;
      unfold ParentGame in *; lia.
  - match goal with E : IncrementInformationTokens _ = _ |- _ =>
      pose proof (IncrementInformationTokens_frame _ _ _ E)
        as (_ & _ & _ & _ & _ & _ & _ & -> & _);
      apply IncrementInformationTokens_bound in E end.
    unfold ParentGame in *. lia.
Qed.

Lemma tokens_in_range_step s m s' :
  tokens_in_range s → ApplyMove s m = Ok s' → tokens_in_range s'.
Proof.
  intros Htokens Happly.
  apply ApplyMove_Ok in Happly as (_ & s1 & h & Heffect & Hadvance).
  pose proof (before_effect_frame s)
    as (Hg0 & _ & _ & _ & _ & _ & _ & Hi0 & Hl0 & _).
  assert (tokens_in_range (before_effect s)) as Htokens0.
  { unfold tokens_in_range, ParentGame in *. by rewrite Hg0, Hi0, Hl0. }
  pose proof (apply_effect_tokens _ _ _ _ _ Heffect Htokens0) as Htokens1.
  apply AdvanceToNextPlayer_frame in Hadvance
    as (Hg' & _ & _ & _ & _ & Hi' & Hl' & _).
  simpl in *. unfold tokens_in_range, ParentGame in *.
  by rewrite Hg', Hi', Hl'.
Qed.

Lemma reachable_parent_game game s :
  game_wf game → reachable game s → parent_game_ s = game.
Proof.
  intros Hgame Hreach. by destruct (reachable_conservation_inv game s Hgame Hreach).
Qed.

(** The tokens are within their bounds in every reachable state. *)
Lemma reachable_tokens_in_range game s :
  game_wf game → reachable game s → tokens_in_range s.
Proof.
  intros Hgame. induction 1 as [start s Hnew|s m s' _ IH Happly].
  - destruct (new_state_Ok _ _ _ Hgame Hnew)
      as (Hg & _ & _ & _ & _ & _ & Hinfo & Hlife & _).
    unfold tokens_in_range, ParentGame. rewrite Hg, Hinfo, Hlife.
    pose proof (game_information_tokens _ Hgame).
    pose proof (game_life_tokens _ Hgame). lia.
  - by apply (tokens_in_range_step s m s').
Qed.

(** C6.  In every state reached by legal move applications, after every
    application, the information tokens are between 0 and
    MaxInformationTokens and the life tokens are between 0 and
    MaxLifeTokens. *)
Theorem tokens_bounded game s
    (Hgame : game_wf game) (Hreach : reachable game s) :
  0 ≤ information_tokens_ s ≤ HanabiGame.MaxInformationTokens game ∧
  0 ≤ life_tokens_ s ≤ HanabiGame.MaxLifeTokens game.
Proof.
  rewrite <- (reachable_parent_game game s Hgame Hreach).
  exact (reachable_tokens_in_range game s Hgame Hreach).
Qed.

(** ** Invariants of play *)

Lemma PlayerToDeal_from_hand (hands : list HanabiHand.t) (hand_size i : Z) :
  0 ≤ hand_size < 2 ^ 64 → 0 ≤ i →
  i ≤ PlayerToDeal_from i hands hand_size →
  ∃ hand, hands !! Z.to_nat (PlayerToDeal_from i hands hand_size - i)
          = Some hand ∧
          size (HanabiHand.Cards hand) < hand_size.
Proof.
  intros Hsize. revert i. induction hands as [|h hands IH]; intros i Hi;
    simpl; [lia|].
  rewrite to_size_t_small by done.
  destruct (Z.ltb_spec (size (HanabiHand.Cards h)) hand_size) as [Hlt|Hge].
  - intros _. rewrite Z.sub_diag. by exists h.
  - intros Hle.
    assert (i + 1 ≤ PlayerToDeal_from (i + 1) hands hand_size) as Hle'.
    { destruct (Z.le_gt_cases (i + 1)
                  (PlayerToDeal_from (i + 1) hands hand_size)); [done|].
      assert (PlayerToDeal_from (i + 1) hands hand_size = -1
              ∨ i + 1 ≤ PlayerToDeal_from (i + 1) hands hand_size) as [?|?];
        [|lia|lia].
      clear. generalize (i + 1). induction hands as [|h' hands IH];
        intros j; simpl; [by left|].
      destruct (_ <? _); [right; lia|].
      destruct (IH (j + 1)) as [?|?]; [by left | right; lia]. }
    destruct (IH (i + 1) ltac:(lia) Hle') as (hand & Hhand & Hlt).
    exists hand. split; [|done].
    replace (Z.to_nat (PlayerToDeal_from (i + 1) hands hand_size - i))
      with (S (Z.to_nat (PlayerToDeal_from (i + 1) hands hand_size - (i + 1))))
      by lia.
    done.
Qed.

Lemma PlayerToDeal_hand s hand :
  game_wf (ParentGame s) →
  vec_at (hands_ s) (PlayerToDeal s) = Ok hand →
  size (HanabiHand.Cards hand) < HanabiGame.HandSize (ParentGame s).
Proof.
  intros Hgame [Hp Hhand]%vec_at_Ok.
  pose proof (game_hand_size _ Hgame) as Hsize.
  destruct (PlayerToDeal_from_hand (hands_ s)
              (HanabiGame.HandSize (ParentGame s)) 0 ltac:(lia) ltac:(lia) Hp)
    as (hand' & Hhand' & Hlt).
  rewrite Z.sub_0_r in Hhand'. unfold PlayerToDeal in Hhand. congruence.
Qed.

Lemma Forall_delete {A} (P : A → Prop) (l : list A) (i : nat) :
  Forall P l → Forall P (delete i l).
Proof.
  intros H. revert i. induction H as [|x l Hx Hl IH]; intros [|i]; simpl;
    try done; by constructor.
Qed.

Lemma size_delete_le {A} (l : list A) (i : nat) : size (delete i l) ≤ size l.
Proof.
  unfold size. revert i. induction l as [|x l IH]; intros [|i]; simpl;
    try lia. specialize (IH i). lia.
Qed.

(** The effect of a legal move keeps the hands and the fireworks within the
    invariant. *)
Lemma apply_effect_play_inv s m h s1 h1 :
  play_inv s →
  (HanabiMove.MoveType m = HanabiMove.kDeal →
   ∃ n, HanabiDeck.CardCount (deck_ s)
          (HanabiMove.Color m) (HanabiMove.Rank m) = Ok n ∧ n ≠ 0) →
  apply_effect s m h = Ok (s1, h1) →
  Forall (λ hand, size (HanabiHand.Cards hand)
                  ≤ HanabiGame.HandSize (ParentGame s)) (hands_ s1) ∧
  Forall (λ hand,
            Forall (λ card, in_range (ParentGame s)
                              (HanabiCard.Color card) (HanabiCard.Rank card))
              (HanabiHand.Cards hand)) (hands_ s1) ∧
  Forall (λ progress, 0 ≤ progress ≤ HanabiGame.NumRanks (ParentGame s))
    (fireworks_ s1) ∧
  size (fireworks_ s1) = size (fireworks_ s).
Proof.
  intros [Hwf Hsizes Hcards Hfw] Hdeal. unfold apply_effect. intros H.
  destruct (HanabiMove.MoveType m) eqn:Hm.
  - (* kInvalid *) discriminate.
  - (* kPlay *)
    inv_res. rename x into hand, x0 into card. subst.
    unfold HanabiHand.RemoveFromHand in *. inv_res. subst. simpl in *.
    match goal with E : AddToFireworks _ _ = _ |- _ =>
      pose proof (AddToFireworks_frame _ _ _ _ E)
        as (_ & _ & _ & Hh & _ & Hc & _);
      apply AddToFireworks_inv in E
        as [(_ & Hplays & Hf & _)|(_ & _ & Hf & _)] end;
      match goal with E : vec_set _ _ _ = _ |- _ =>
        apply vec_set_Ok in E as [_ ->] end;
      rewrite Hh, Hf;
      match goal with
      | Hhand : vec_at (hands_ s) _ = Ok hand |- _ =>
          apply vec_at_Ok in Hhand as [_ Hhand];
          pose proof (Forall_lookup_1 _ _ _ _ Hsizes Hhand) as Hsize;
          pose proof (Forall_lookup_1 _ _ _ _ Hcards Hhand) as Hrange;
          simpl in Hsize, Hrange
      end.
    + split; [|split; [|split]].
      * apply Forall_insert; [done|]. simpl.
        pose proof (size_delete_le (HanabiHand.Cards hand)
                      (Z.to_nat (HanabiMove.CardIndex m))). lia.
      * apply Forall_insert; [done|]. simpl. by apply Forall_delete.
      * apply Forall_insert; [done|].
        match goal with Hcard : vec_at (HanabiHand.Cards hand) _ = Ok card |- _ =>
          apply vec_at_Ok in Hcard as [_ Hcard];
          pose proof (Forall_lookup_1 _ _ _ _ Hrange Hcard) as [_ Hr] end.
        simpl in Hr. lia.
      * unfold size. by rewrite length_insert.
    + split; [|split; [|split]]; try done.
      * apply Forall_insert; [done|]. simpl.
        pose proof (size_delete_le (HanabiHand.Cards hand)
                      (Z.to_nat (HanabiMove.CardIndex m))). lia.
      * apply Forall_insert; [done|]. simpl. by apply Forall_delete.
  - (* kDiscard *)
    inv_res. rename x into hand, x0 into card. subst.
    unfold HanabiHand.RemoveFromHand in *. inv_res. subst. simpl in *.
    match goal with E : IncrementInformationTokens _ = _ |- _ =>
      apply IncrementInformationTokens_frame in E
        as (_ & _ & _ & Hh & _ & Hc & _ & _ & Hf & _) end.
    match goal with E : vec_set _ _ _ = _ |- _ =>
      apply vec_set_Ok in E as [_ ->] end.
    rewrite Hh, Hf in *.
    match goal with
    | Hhand : vec_at (hands_ s) _ = Ok hand |- _ =>
        apply vec_at_Ok in Hhand as [_ Hhand];
        pose proof (Forall_lookup_1 _ _ _ _ Hsizes Hhand) as Hsize;
        pose proof (Forall_lookup_1 _ _ _ _ Hcards Hhand) as Hrange;
        simpl in Hsize, Hrange
    end.
    split; [|split; [|split]]; try done.
    + apply Forall_insert; [done|]. simpl.
      pose proof (size_delete_le (HanabiHand.Cards hand)
                    (Z.to_nat (HanabiMove.CardIndex m))). lia.
    + apply Forall_insert; [done|]. simpl. by apply Forall_delete.
  - (* kRevealColor *)
    unfold DecrementInformationTokens in H. inv_res. subst. simpl in *.
    match goal with E : HandByOffset _ _ = _ |- _ =>
      apply HandByOffset_hand in E; simpl in E;
      apply vec_at_Ok in E as [_ Hhand] end.
    match goal with E : vec_set _ _ _ = _ |- _ =>
      apply vec_set_Ok in E as [_ ->] end.
    match goal with E : HanabiHand.RevealColor ?hd ?col = _ |- _ =>
      pose proof (reveal_color_cards hd col) as Hsame;
      rewrite E in Hsame; simpl in Hsame end.
    pose proof (Forall_lookup_1 _ _ _ _ Hsizes Hhand) as Hsize.
    pose proof (Forall_lookup_1 _ _ _ _ Hcards Hhand) as Hrange.
    simpl in Hsize, Hrange.
    split; [|split; [|split]]; try done;
      (apply Forall_insert; [done|]); by rewrite Hsame.
  - (* kRevealRank *)
    unfold DecrementInformationTokens in H. inv_res. subst. simpl in *.
    match goal with E : HandByOffset _ _ = _ |- _ =>
      apply HandByOffset_hand in E; simpl in E;
      apply vec_at_Ok in E as [_ Hhand] end.
    match goal with E : vec_set _ _ _ = _ |- _ =>
      apply vec_set_Ok in E as [_ ->] end.
    match goal with E : HanabiHand.RevealRank ?hd ?rk = _ |- _ =>
      pose proof (reveal_rank_cards hd rk) as Hsame;
      rewrite E in Hsame; simpl in Hsame end.
    pose proof (Forall_lookup_1 _ _ _ _ Hsizes Hhand) as Hsize.
    pose proof (Forall_lookup_1 _ _ _ _ Hcards Hhand) as Hrange.
    simpl in Hsize, Hrange.
    split; [|split; [|split]]; try done;
      (apply Forall_insert; [done|]); by rewrite Hsame.
  - (* kDeal *)
    inv_res. subst. simpl in *.
    match goal with E : vec_set _ _ _ = _ |- _ =>
      apply vec_set_Ok in E as [_ ->] end.
    rename x into hand.
    match goal with E : vec_at (hands_ s) _ = Ok hand |- _ =>
      pose proof (PlayerToDeal_hand s hand (wf_game _ Hwf) E) as Hlt;
      apply vec_at_Ok in E as [_ Hhand] end.
    pose proof (Forall_lookup_1 _ _ _ _ Hcards Hhand) as Hrange.
    simpl in Hrange.
    destruct (Hdeal eq_refl) as (n & Hn & Hne).
    pose proof (wf_deck _ Hwf) as Hdeck.
    pose proof (game_colors _ (wf_game _ Hwf)) as Hnc.
    apply (CardCount_Ok (ParentGame s)) in Hn; [|done].
    match goal with E : HanabiDeck.DealCard _ _ _ = _ |- _ =>
      destruct (DealCard_cases (ParentGame s) _ _ _ _ _ Hdeck Hnc E)
        as [[-> ->]|(n' & Hn' & Hpos & -> & ->)] end.
    { (* the counter of a legal Deal is positive *)
      exfalso.
      match goal with E : HanabiDeck.DealCard _ _ _ = _ |- _ =>
        unfold HanabiDeck.DealCard, HanabiDeck.CardToIndex in E;
        rewrite (deck_wf_ranks _ _ Hdeck), Hn in E; simpl in E end.
      pose proof Hn as [_ Hl]%vec_at_Ok.
      pose proof (Forall_lookup_1 _ _ _ _ (deck_wf_nonneg _ _ Hdeck) Hl) as Hp.
      simpl in Hp. destruct (Z.leb_spec n 0); [lia|].
      match goal with E : HanabiDeck.take _ _ = _ |- _ =>
        rewrite (take_Ok (ParentGame s) _ _ n Hdeck Hnc Hn) in E by lia;
        injection E as _ _ Hsame end.
      apply (f_equal HanabiDeck.total_count_) in Hsame. simpl in Hsame. lia. }
    pose proof (vec_at_size _ _ _ Hn') as Hidx.
    rewrite (deck_wf_size _ _ Hdeck) in Hidx.
    destruct (index_decode _ _ _ Hidx Hnc) as (Hq & Hr & _).
    split; [|split; [|split]]; try done.
    + apply Forall_insert; [done|]. simpl. unfold size in *.
      rewrite length_app. simpl. lia.
    + apply Forall_insert; [done|]. simpl. apply Forall_app. split; [done|].
      apply Forall_singleton. by split.
Qed.

Lemma legal_deal_count s m :
  HanabiMove.MoveType m = HanabiMove.kDeal →
  MoveIsLegal s m = Ok true →
  ∃ n, HanabiDeck.CardCount (deck_ s)
         (HanabiMove.Color m) (HanabiMove.Rank m) = Ok n ∧ n ≠ 0.
Proof.
  intros Hm. unfold MoveIsLegal. rewrite Hm.
  destruct (negb _); [discriminate|]. intros H. inv_res.
  exists x. split; [done|]. by destruct (Z.eqb_spec x 0).
Qed.

Lemma AdvanceToNextPlayer_players s s' :
  size (hands_ s) = HanabiGame.NumPlayers (ParentGame s) →
  0 < HanabiGame.NumPlayers (ParentGame s) < 2 ^ 31 →
  0 ≤ next_non_chance_player_ s < HanabiGame.NumPlayers (ParentGame s) →
  AdvanceToNextPlayer s = Ok s' →
  (cur_player_ s' = kChancePlayerId
   ∨ 0 ≤ cur_player_ s' < HanabiGame.NumPlayers (ParentGame s)) ∧
  0 ≤ next_non_chance_player_ s' < HanabiGame.NumPlayers (ParentGame s).
Proof.
  intros Hhands Hplayers Hnext. unfold AdvanceToNextPlayer.
  destruct (_ && _).
  - intros [= <-]. simpl. by split; [left|].
  - rewrite Hhands.
    destruct (Z.eqb_spec (HanabiGame.NumPlayers (ParentGame s)) 0); [lia|].
    intros [= <-]. simpl. split; [by right|].
    apply Z.mod_pos_bound. lia.
Qed.

Lemma play_inv_new game start_player s :
  game_wf game → new_state game start_player = Ok s → play_inv s.
Proof.
  intros Hgame Hnew.
  destruct (new_state_Ok _ _ _ Hgame Hnew)
    as (Hg & Hfilled & _ & Hhands & Hcur & Hnext & _ & _ & Hfw & _).
  pose proof (game_players _ Hgame) as Hplayers.
  pose proof (game_colors _ Hgame) as Hcolors.
  pose proof (game_ranks _ Hgame) as Hranks.
  pose proof (game_hand_size _ Hgame) as Hhand.
  unfold ParentGame. split; [split|..]; unfold ParentGame; rewrite ?Hg.
  - done.
  - by apply deck_filled_wf.
  - rewrite Hhands. unfold size. rewrite length_replicate. lia.
  - by left.
  - done.
  - rewrite Hfw. unfold size. rewrite length_replicate. lia.
  - rewrite Hhands. apply Forall_replicate. simpl. unfold size. simpl. lia.
  - rewrite Hhands. apply Forall_replicate. simpl. constructor.
  - rewrite Hfw. apply Forall_replicate. lia.
Qed.

Lemma play_inv_step s m s' :
  play_inv s → ApplyMove s m = Ok s' → play_inv s'.
Proof.
  intros Hinv Happly. pose proof Hinv as [Hwf Hsizes Hcards Hfw].
  apply ApplyMove_Ok in Happly as (Hlegal & s1 & h & Heffect & Hadvance).
  pose proof (before_effect_frame s)
    as (Hg0 & Hd0 & _ & Hh0 & _ & Hc0 & Hn0 & _ & _ & Hf0).
  assert (play_inv (before_effect s)) as Hinv0.
  { destruct Hwf. unfold ParentGame in *.
    split; [split|..]; unfold ParentGame;
      rewrite ?Hg0, ?Hd0, ?Hh0, ?Hc0, ?Hn0, ?Hf0; done. }
  pose proof (apply_effect_frame _ _ _ _ _ Heffect)
    as (Hg1 & Hc1 & Hn1 & _ & Hs1).
  destruct (apply_effect_play_inv _ _ _ _ _ Hinv0
              ltac:(intros Hm; rewrite Hd0; by apply legal_deal_count) Heffect)
    as (Hsizes1 & Hcards1 & Hfw1 & Hfs1).
  pose proof (apply_effect_deck_wf _ _ _ _ _ (wf_deck _ (play_wf _ Hinv0))
                (game_colors _ (wf_game _ (play_wf _ Hinv0))) Heffect)
    as Hdeck1.
  set (s2 := set_move_history s1 (move_history_ s1 ++ [h])) in *.
  destruct (AdvanceToNextPlayer_players s2 s') as [Hcur' Hnext']; try done.
  { unfold ParentGame. simpl. rewrite Hs1, Hh0, Hg1, Hg0. apply Hwf. }
  { unfold ParentGame. simpl. rewrite Hg1, Hg0.
    apply (game_players _ (wf_game _ Hwf)). }
  { unfold ParentGame. simpl. rewrite Hn1, Hn0, Hg1, Hg0. apply Hwf. }
  apply AdvanceToNextPlayer_frame in Hadvance
    as (Hg' & Hd' & _ & Hh' & _ & _ & _ & Hf' & _).
  simpl in *. unfold ParentGame in *. simpl in *.
  rewrite Hg1, Hg0 in *.
  split; [split|..]; unfold ParentGame;
    rewrite ?Hg', ?Hd', ?Hh', ?Hf', ?Hg1, ?Hg0; try done.
  - apply Hwf.
  - rewrite Hs1, Hh0. apply Hwf.
  - rewrite Hfs1, Hf0. apply Hwf.
Qed.

(** Every reachable state satisfies the structural invariant and the
    invariant of play. *)
Lemma reachable_play_inv game s :
  game_wf game → reachable game s → play_inv s.
Proof.
  intros Hgame. induction 1 as [start s Hnew|s m s' _ IH Happly].
  - by eapply play_inv_new.
  - by eapply play_inv_step.
Qed.

Lemma play_inv_hands_sized s : play_inv s → hands_sized s.
Proof.
  intros [Hwf Hsizes _ _]. unfold hands_sized.
  pose proof (game_hand_size _ (wf_game _ Hwf)).
  eapply Forall_impl; [exact Hsizes|]. simpl. intros hand ?. lia.
Qed.

Lemma sumZ_le_bound (v : list Z) (b : Z) :
  Forall (λ x, 0 ≤ x ≤ b) v → sumZ v ≤ size v * b.
Proof.
  unfold size. induction 1 as [|x v Hx Hv IH]; simpl; [lia|]. nia.
Qed.

Lemma play_inv_fireworks_total s :
  play_inv s →
  sumZ (fireworks_ s)
  ≤ HanabiGame.NumColors (ParentGame s) * HanabiGame.NumRanks (ParentGame s).
Proof.
  intros [Hwf _ _ Hfw]. rewrite <- (wf_fireworks _ Hwf).
  by apply sumZ_le_bound.
Qed.

(** ** Example games *)

Lemma small_game_wf : game_wf small_game.
Proof.
  split; simpl; try lia.
  intros c r. unfold small_instances. destruct (_ || _); lia.
Qed.

Lemma play_moves_reachable game s moves s' :
  reachable game s → play_moves s moves = Ok s' → reachable game s'.
Proof.
  unfold play_moves. revert s. induction moves as [|m moves IH]; intros s Hs;
    simpl.
  - by intros [= <-].
  - intros H. apply bind_Ok in H as (s1 & Happly & Hrest).
    apply (IH s1); [|done]. by eapply reachable_apply.
Qed.

Lemma small_start_new : new_state small_game 0 = Ok small_start.
Proof. vm_compute. reflexivity. Qed.

Lemma small_dealt_moves :
  play_moves small_start
    [HanabiMove.Deal 0 0; HanabiMove.Deal 0 1;
     HanabiMove.Deal 1 0; HanabiMove.Deal 1 1]
  = Ok small_dealt.
Proof. vm_compute. reflexivity. Qed.

Lemma small_misplayed_move :
  ApplyMove small_dealt (HanabiMove.Play 1) = Ok small_misplayed.
Proof. vm_compute. reflexivity. Qed.

Lemma small_start_reachable : reachable small_game small_start.
Proof. eapply reachable_new. exact small_start_new. Qed.

Lemma small_dealt_reachable : reachable small_game small_dealt.
Proof.
  eapply play_moves_reachable;
    [exact small_start_reachable | exact small_dealt_moves].
Qed.

Lemma small_misplayed_reachable : reachable small_game small_misplayed.
Proof.
  eapply reachable_apply;
    [exact small_dealt_reachable | exact small_misplayed_move].
Qed.

Lemma example_start_new : new_state example_game 0 = Ok example_start.
Proof. vm_compute. reflexivity. Qed.

Lemma example_start_reachable : reachable example_game example_start.
Proof. eapply reachable_new. exact example_start_new. Qed.

Lemma small_dealt_wf : state_wf small_dealt ∧ hands_sized small_dealt.
Proof.
  pose proof (reachable_play_inv _ _ small_game_wf small_dealt_reachable)
    as Hinv.
  split; [apply Hinv | by apply play_inv_hands_sized].
Qed.

(** A legal move whose application does not return: once the life tokens
    are at zero a Play is still legal, and playing a card that does not
    score stops at the assertion of [DecrementLifeTokens]. *)
Example play_without_life_tokens :
  life_tokens_ small_misplayed = 0 ∧
  MoveIsLegal small_misplayed (HanabiMove.Play 1) = Ok true ∧
  ApplyMove small_misplayed (HanabiMove.Play 1) = Fault AssertFailed.
Proof. vm_compute. done. Qed.

(** ** The theorems at the example games *)

Lemma turns_to_play_countdown_witness :
  deck_wf (ParentGame small_dealt) (deck_ small_dealt) ∧
  ApplyMove small_dealt (HanabiMove.Play 1) = Ok small_misplayed ∧
  turns_to_play_ small_misplayed = turns_to_play_ small_dealt - 1.
Proof.
  pose proof (wf_deck _ (proj1 small_dealt_wf)) as Hdeck.
  split; [exact Hdeck|]. split; [exact small_misplayed_move|].
  rewrite (turns_to_play_countdown small_dealt (HanabiMove.Play 1)
             small_misplayed Hdeck small_misplayed_move).
  vm_compute. reflexivity.
Defined.

Example EndOfGameStatus_out_of_life :
  EndOfGameStatus small_misplayed = kOutOfLifeTokens ∧
  Score small_misplayed = 0.
Proof. by vm_compute. Qed.

Lemma MoveIsLegal_spec_witness :
  state_wf small_dealt ∧ hands_sized small_dealt ∧
  move_wf (HanabiMove.Play 1) ∧
  legal_by_table small_dealt (HanabiMove.Play 1) ∧
  ¬ legal_by_table small_dealt (HanabiMove.Play 2).
Proof.
  destruct small_dealt_wf as [Hwf Hsized].
  assert (∀ i, is_int i → move_wf (HanabiMove.Play i)) as Hmove.
  { intros i Hi. split; simpl; (done || (unfold is_int; lia)). }
  split; [exact Hwf|]. split; [exact Hsized|].
  split; [apply Hmove; unfold is_int; lia|]. split.
  - apply (MoveIsLegal_spec small_dealt (HanabiMove.Play 1) Hwf Hsized).
    + apply Hmove. unfold is_int. lia.
    + vm_compute. reflexivity.
  - apply (MoveIsLegal_spec small_dealt (HanabiMove.Play 2) Hwf Hsized).
    + apply Hmove. unfold is_int. lia.
    + vm_compute. discriminate.
    + vm_compute. reflexivity.
Defined.

(** C3, where the code leaves the table.  While the chance actor is current
    the table makes every Play and every Discard illegal, since the chance
    actor holds no hand.  The legality check of a Play, and that of a
    Discard with the information tokens below the maximum, does not return
    false there: it reads [hands_[cur_player_]] at index -1, outside the
    vector (the Deal branch tests [cur_player_] first, the Play and Discard
    branches do not), and so does [ApplyMove] before its REQUIRE can
    fail. *)
Theorem MoveIsLegal_chance_actor s m
    (Hchance : cur_player_ s = kChancePlayerId)
    (Hmove :
       HanabiMove.MoveType m = HanabiMove.kPlay
       ∨ (HanabiMove.MoveType m = HanabiMove.kDiscard
          ∧ InformationTokens s
            < HanabiGame.MaxInformationTokens (ParentGame s))) :
  ¬ legal_by_table s m ∧
  vec_at (hands_ s) (cur_player_ s) = Fault OutOfBounds ∧
  MoveIsLegal s m = Fault OutOfBounds ∧
  ApplyMove s m = Fault OutOfBounds.
Proof.
  assert (vec_at (hands_ s) (cur_player_ s) = Fault OutOfBounds) as Hread
    by (by rewrite Hchance).
  assert (MoveIsLegal s m = Fault OutOfBounds) as Hlegal.
  { unfold MoveIsLegal. destruct Hmove as [-> | [-> Htokens]].
    - by rewrite Hread.
    - rewrite Z.geb_leb. destruct (Z.leb_spec
        (HanabiGame.MaxInformationTokens (ParentGame s)) (InformationTokens s));
        [lia|]. by rewrite Hread. }
  split; [|split; [exact Hread|split; [exact Hlegal|]]].
  - unfold legal_by_table.
    destruct Hmove as [-> | [-> _]]; rewrite Hread;
      [intros (hand & Hhand & _) | intros (_ & hand & Hhand & _)];
      discriminate Hhand.
  - unfold ApplyMove. by rewrite Hlegal.
Qed.

Lemma MoveIsLegal_chance_actor_witness :
  reachable small_game small_start ∧
  cur_player_ small_start = kChancePlayerId ∧
  ¬ legal_by_table small_start (HanabiMove.Play 0) ∧
  MoveIsLegal small_start (HanabiMove.Play 0) = Fault OutOfBounds ∧
  ApplyMove small_start (HanabiMove.Play 0) = Fault OutOfBounds.
Proof.
  assert (cur_player_ small_start = kChancePlayerId) as Hchance
    by reflexivity.
  split; [exact small_start_reachable|]. split; [exact Hchance|].
  destruct (MoveIsLegal_chance_actor small_start (HanabiMove.Play 0) Hchance
              (or_introl eq_refl)) as (Htable & _ & Hlegal & Happly).
  split; [exact Htable|]. split; [exact Hlegal | exact Happly].
Defined.

Lemma next_actor_after_move_witness :
  state_wf small_dealt ∧
  ApplyMove small_dealt (HanabiMove.Play 1) = Ok small_misplayed ∧
  cur_player_ small_misplayed = 1 ∧
  next_non_chance_player_ small_misplayed = 0.
Proof.
  destruct small_dealt_wf as [Hwf _].
  split; [exact Hwf|]. split; [exact small_misplayed_move|].
  destruct (next_actor_after_move small_dealt (HanabiMove.Play 1)
              small_misplayed Hwf small_misplayed_move) as [_ Hplayer].
  destruct Hplayer as [-> ->].
  - intros [Hempty _]. vm_compute in Hempty. discriminate.
  - vm_compute. done.
Defined.

Lemma Play_effect_witness :
  size (fireworks_ small_dealt)
  = HanabiGame.NumColors (ParentGame small_dealt) ∧
  hands_sized small_dealt ∧ is_int 1 ∧
  MoveIsLegal small_dealt (HanabiMove.Play 1) = Ok true ∧
  ∃ hand card,
    played small_dealt hand 1 card small_misplayed ∧
    card = HanabiCard.mk 0 1.
Proof.
  destruct small_dealt_wf as [Hwf Hsized].
  assert (is_int 1) as Hint by (unfold is_int; lia).
  assert (MoveIsLegal small_dealt (HanabiMove.Play 1) = Ok true) as Hlegal
    by (vm_compute; reflexivity).
  split; [exact (wf_fireworks _ Hwf)|]. split; [exact Hsized|].
  split; [exact Hint|]. split; [exact Hlegal|].
  destruct (Play_effect small_dealt 1 (wf_fireworks _ Hwf) Hsized Hint Hlegal)
    as (_ & hand & card & Hhand & Hcard & _ & Hplayed).
  exists hand, card. split; [exact (Hplayed _ small_misplayed_move)|].
  vm_compute in Hhand. injection Hhand as <-.
  vm_compute in Hcard. injection Hcard as <-. reflexivity.
Defined.

Lemma cards_conserved_witness :
  game_wf small_game ∧ reachable small_game small_misplayed ∧
  in_range small_game 0 1 ∧
  HanabiDeck.CardCount (deck_ small_misplayed) 0 1 = Ok 0 ∧
  count_in_hands 0 1 (hands_ small_misplayed) = 0 ∧
  count_card 0 1 (discard_pile_ small_misplayed) = 1 ∧
  in_fireworks 0 1 (fireworks_ small_misplayed) = 0.
Proof.
  assert (in_range small_game 0 1) as Hrange by (split; simpl; lia).
  split; [exact small_game_wf|]. split; [exact small_misplayed_reachable|].
  split; [exact Hrange|].
  destruct (cards_conserved small_game small_misplayed 0 1 small_game_wf
              small_misplayed_reachable Hrange) as (n & Hn & Hpos & Hsum).
  vm_compute in Hn. injection Hn as <-. vm_compute. done.
Defined.

Lemma tokens_bounded_witness :
  game_wf small_game ∧ reachable small_game small_misplayed ∧
  0 ≤ information_tokens_ small_misplayed ≤ 2 ∧
  0 ≤ life_tokens_ small_misplayed ≤ 1.
Proof.
  split; [exact small_game_wf|]. split; [exact small_misplayed_reachable|].
  exact (tokens_bounded small_game small_misplayed small_game_wf
           small_misplayed_reachable).
Defined.

Lemma SetHandCard_effect_witness :
  state_wf small_dealt ∧
  ∃ s', SetHandCard small_dealt 0 0 (HanabiCard.mk 1 1) = Ok s' ∧
        HanabiDeck.CardCount (deck_ s') 0 0 = Ok 1 ∧
        HanabiDeck.CardCount (deck_ s') 1 1 = Ok 0 ∧
        (HanabiHand.Cards <$> hands_ s')
        = [[HanabiCard.mk 1 1; HanabiCard.mk 0 1];
           [HanabiCard.mk 1 0; HanabiCard.mk 1 1]].
Proof.
  destruct small_dealt_wf as [Hwf _]. split; [exact Hwf|].
  destruct (SetHandCard_effect small_dealt 0 0 (HanabiCard.mk 1 1)
              (HanabiHand.mk [HanabiCard.mk 0 0; HanabiCard.mk 0 1]
                 [HanabiHand.new_knowledge 2 2; HanabiHand.new_knowledge 2 2])
              (HanabiCard.mk 0 0) Hwf)
    as (s' & d1 & n & Hset & _).
  - simpl. lia.
  - unfold is_int. lia.
  - vm_compute. reflexivity.
  - vm_compute. reflexivity.
  - split; simpl; lia.
  - split; simpl; lia.
  - exists s'. split; [exact Hset|].
    vm_compute in Hset. injection Hset as <-. vm_compute. done.
Defined.

(** ** Chance outcomes *)

Lemma sumZ_perm (u v : list Z) : u ≡ₚ v → sumZ u = sumZ v.
Proof. induction 1; simpl; lia. Qed.

Lemma upto_lookup (n : Z) (i : nat) :
  (i < Z.to_nat n)%nat → upto n !! i = Some (Z.of_nat i).
Proof.
  intros Hi. unfold upto. rewrite list_lookup_fmap.
  by rewrite lookup_seq_lt.
Qed.

Lemma upto_elem (n i : Z) : i ∈ upto n ↔ 0 ≤ i < n.
Proof.
  unfold upto. rewrite list_elem_of_fmap. split.
  - intros (k & -> & Hk). apply elem_of_seq in Hk. lia.
  - intros Hi. exists (Z.to_nat i). split; [lia|]. apply elem_of_seq. lia.
Qed.

(** Reading a vector at every index gives the vector back. *)
Lemma vec_at_upto (v : list Z) :
  (λ i, from_result 0 (vec_at v i)) <$> upto (size v) = v.
Proof.
  apply list_eq. intros i. rewrite list_lookup_fmap.
  destruct (decide (i < length v)%nat) as [Hi|Hi].
  - rewrite upto_lookup by (unfold size; lia). simpl.
    destruct (lookup_lt_is_Some_2 v i Hi) as [x Hx]. rewrite Hx.
    f_equal. unfold vec_at.
    destruct (Z.leb_spec 0 (Z.of_nat i)); [|lia].
    by rewrite Nat2Z.id, Hx.
  - rewrite (lookup_ge_None_2 v) by lia.
    unfold upto. rewrite list_lookup_fmap, lookup_seq_ge; [done|].
    unfold size. lia.
Qed.

(** The counts named by the Deals of all identities add up to the total. *)
Lemma remaining_all_deals s :
  deck_wf (ParentGame s) (deck_ s) →
  0 ≤ HanabiGame.NumColors (ParentGame s) →
  sumZ (remaining s <$> all_deals (ParentGame s)) = HanabiDeck.Size (deck_ s).
Proof.
  intros Hdeck Hnc. unfold HanabiDeck.Size.
  rewrite (deck_wf_total _ _ Hdeck).
  transitivity
    (sumZ ((λ i, from_result 0 (vec_at (HanabiDeck.card_count_ (deck_ s)) i))
             <$> upto (size (HanabiDeck.card_count_ (deck_ s)))));
    [|by rewrite vec_at_upto].
  rewrite (deck_wf_size _ _ Hdeck). unfold all_deals.
  rewrite <- list_fmap_compose. f_equal.
  apply list_fmap_ext. intros _ i Hi%list_elem_of_lookup_2%upto_elem.
  simpl. unfold remaining, HanabiDeck.CardCount, HanabiDeck.CardToIndex.
  simpl. rewrite (deck_wf_ranks _ _ Hdeck).
  destruct (index_decode _ _ i Hi Hnc) as (_ & _ & <-). done.
Qed.

(** On a Deal of an identity of the game, asked of the chance actor, the
    legality test is the test for a positive count. *)
Lemma MoveIsLegal_deal s m :
  deck_wf (ParentGame s) (deck_ s) →
  0 ≤ HanabiGame.NumColors (ParentGame s) →
  cur_player_ s = kChancePlayerId →
  m ∈ all_deals (ParentGame s) →
  MoveIsLegal s m = Ok (has_supply s m) ∧
  ChanceOutcomeProb s m = Ok (double_probability s m).
Proof.
  intros Hdeck Hnc Hcur Hm. unfold all_deals in Hm.
  apply list_elem_of_fmap in Hm as (i & -> & Hi%upto_elem).
  destruct (index_decode _ _ i Hi Hnc) as (Hq & Hr & Hsplit).
  destruct (CardCount_defined (ParentGame s) (deck_ s) _ _ Hdeck
              (conj Hq Hr)) as (n & Hn & Hpos).
  unfold MoveIsLegal, ChanceOutcomeProb, has_supply, double_probability,
    remaining.
  simpl. rewrite Hcur, Hn. simpl. split; [|done].
  destruct (Z.eqb_spec n 0), (Z.ltb_spec 0 n); (done || lia).
Qed.

Lemma bind_ret {A B} (a : A) (f : A → result B) : Ok a ≫= f = f a.
Proof. reflexivity. Qed.

(** The loop of [ChanceOutcomes] over a list of outcome ids. *)
Lemma ChanceOutcomes_loop s uids moves probs :
  (∀ uid, uid ∈ uids →
     let m := HanabiGame.GetChanceOutcome (ParentGame s) uid in
     MoveIsLegal s m = Ok (has_supply s m) ∧
     ChanceOutcomeProb s m = Ok (double_probability s m)) →
  for_each
    (λ rv uid,
       let m := HanabiGame.GetChanceOutcome (ParentGame s) uid in
       legal ← MoveIsLegal s m;
       if legal : bool then
         p ← ChanceOutcomeProb s m;
         Ok (rv.1 ++ [m], rv.2 ++ [p])
       else Ok rv)
    (moves, probs) uids
  = Ok (moves ++ filter (λ m, has_supply s m = true)
                   (HanabiGame.GetChanceOutcome (ParentGame s) <$> uids),
        probs ++ (double_probability s
                    <$> filter (λ m, has_supply s m = true)
                          (HanabiGame.GetChanceOutcome (ParentGame s) <$> uids))).
Proof.
  revert moves probs. induction uids as [|uid uids IH]; intros moves probs Hall.
  - simpl. by rewrite !app_nil_r.
  - destruct (Hall uid ltac:(left)) as [Hlegal Hprob].
    rewrite fmap_cons, filter_cons.
    cbn [for_each]. cbn zeta. rewrite Hlegal, bind_ret.
    destruct (has_supply s _) eqn:Hsupply.
    + rewrite Hprob, !bind_ret. cbn [fst snd].
      rewrite IH by (intros; apply Hall; by right).
      rewrite decide_True by done. rewrite fmap_cons.
      by rewrite <- !app_assoc.
    + rewrite bind_ret. rewrite IH by (intros; apply Hall; by right).
      by rewrite decide_False by done.
Qed.

(** ** Binary64 division of two [int] values *)

(** The number of binary digits of a positive number. *)
Lemma digits2_pos_bounds (p : positive) :
  2 ^ (Z.pos (SpecFloat.digits2_pos p) - 1) ≤ Z.pos p
  < 2 ^ Z.pos (SpecFloat.digits2_pos p).
Proof.
  induction p as [p IH|p IH|]; cbn [SpecFloat.digits2_pos];
    [rewrite Pos2Z.inj_succ, (Pos2Z.inj_xI p)
    |rewrite Pos2Z.inj_succ, (Pos2Z.inj_xO p)
    |simpl; lia];
    replace (Z.succ (Z.pos (SpecFloat.digits2_pos p)) - 1)
      with (Z.succ (Z.pos (SpecFloat.digits2_pos p) - 1)) by lia;
    rewrite !Z.pow_succ_r by lia;
    destruct IH as [Hlo Hhi]; revert Hlo Hhi;
    generalize (2 ^ (Z.pos (SpecFloat.digits2_pos p) - 1));
    generalize (2 ^ Z.pos (SpecFloat.digits2_pos p)); lia.
Qed.

Lemma digits2_pos_unique (p : positive) (d : Z) :
  2 ^ (d - 1) ≤ Z.pos p < 2 ^ d → Z.pos (SpecFloat.digits2_pos p) = d.
Proof.
  intros [Hlo Hhi]. pose proof (digits2_pos_bounds p) as [Hlo' Hhi'].
  set (d' := Z.pos (SpecFloat.digits2_pos p)) in *.
  assert (0 < d) as Hd.
  { destruct (Z.ltb_spec 0 d); [done|].
    assert (2 ^ d ≤ 1)
      by (destruct (Z.eq_dec d 0) as [->|];
          [simpl; lia | rewrite Z.pow_neg_r by lia; lia]).
    lia. }
  destruct (Z.lt_trichotomy d d') as [Hlt | [-> | Hgt]]; [|done|].
  - assert (2 ^ d ≤ 2 ^ (d' - 1)) by (apply Z.pow_le_mono_r; lia). lia.
  - assert (2 ^ d' ≤ 2 ^ (d - 1)) by (apply Z.pow_le_mono_r; lia). lia.
Qed.

(** Appending [k] zero bits multiplies by 2^k. *)
Lemma iter_xO_spec (p k : positive) :
  Z.pos (Pos.iter xO p k) = Z.pos p * 2 ^ Z.pos k.
Proof.
  induction k as [|k IH] using Pos.peano_ind.
  - simpl. lia.
  - rewrite Pos.iter_succ, (Pos2Z.inj_xO (Pos.iter xO p k)), IH, Pos2Z.inj_succ.
    rewrite Z.pow_succ_r by lia. lia.
Qed.

(** Away from the subnormal range the canonical exponent of a number
    below 2^z is [z - 53]. *)
Lemma fexp_small (z : Z) :
  -1021 ≤ z → SpecFloat.fexp FloatOps.prec FloatOps.emax z = z - 53.
Proof.
  intros Hz. unfold SpecFloat.fexp, SpecFloat.emin, FloatOps.prec, FloatOps.emax.
  lia.
Qed.

(** A mantissa of 53 digits is not shifted. *)
Lemma shr_fexp_53 (m : positive) (e : Z) (l : SpecFloat.location) :
  Z.pos (SpecFloat.digits2_pos m) = 53 → -1074 ≤ e →
  SpecFloat.shr_fexp FloatOps.prec FloatOps.emax (Z.pos m) e l
  = (SpecFloat.shr_record_of_loc (Z.pos m) l, e).
Proof.
  intros Hm He. unfold SpecFloat.shr_fexp. cbn [SpecFloat.Zdigits2].
  rewrite Hm, fexp_small by lia.
  replace (53 + e - 53 - e) with 0 by lia. reflexivity.
Qed.

(** A mantissa of 54 digits is shifted by one binary place. *)
Lemma shr_fexp_54 (m : positive) (e : Z) (l : SpecFloat.location) :
  Z.pos (SpecFloat.digits2_pos m) = 54 → -1075 ≤ e →
  SpecFloat.shr_fexp FloatOps.prec FloatOps.emax (Z.pos m) e l
  = (SpecFloat.shr_1 (SpecFloat.shr_record_of_loc (Z.pos m) l), e + 1).
Proof.
  intros Hm He. unfold SpecFloat.shr_fexp. cbn [SpecFloat.Zdigits2].
  rewrite Hm, fexp_small by lia.
  replace (54 + e - 53 - e) with 1 by lia. reflexivity.
Qed.

Lemma loc_of_shr_record_of_loc (m : Z) (l : SpecFloat.location) :
  SpecFloat.loc_of_shr_record (SpecFloat.shr_record_of_loc m l) = l.
Proof. by destruct l as [|[]]. Qed.

Lemma shr_m_of_loc (m : Z) (l : SpecFloat.location) :
  SpecFloat.shr_m (SpecFloat.shr_record_of_loc m l) = m.
Proof. by destruct l as [|[]]. Qed.

(** The last step of [binary_round_aux]: a rounded mantissa between 2^52
    and 2^53 is kept, 2^53 itself becoming 2^52 one exponent higher. *)
Lemma round_finish (sx : bool) (m1 e : Z) :
  2 ^ 52 ≤ m1 ≤ 2 ^ 53 → -1074 ≤ e ≤ 900 →
  ∃ m t,
    (let '(mrs, e') :=
       SpecFloat.shr_fexp FloatOps.prec FloatOps.emax m1 e SpecFloat.loc_Exact in
     match SpecFloat.shr_m mrs with
     | Z0 => SpecFloat.S754_zero sx
     | Z.pos m =>
         if Z.leb e' (Z.sub FloatOps.emax FloatOps.prec)
         then SpecFloat.S754_finite sx m e' else SpecFloat.S754_infinity sx
     | _ => SpecFloat.S754_nan
     end) = SpecFloat.S754_finite sx m (e + t) ∧
    0 ≤ t ≤ 1 ∧ Z.pos m * 2 ^ t = m1.
Proof.
  intros Hm1 He. destruct m1 as [|p|p]; [lia| |lia].
  destruct (Z.eq_dec (Z.pos p) (2 ^ 53)) as [Heq | Hne].
  - rewrite shr_fexp_54; [|apply digits2_pos_unique; lia|lia].
    injection Heq as ->. cbn [SpecFloat.shr_record_of_loc SpecFloat.shr_1].
    cbn [orb SpecFloat.shr_m].
    exists 4503599627370496%positive, 1. split; [|split; [lia|reflexivity]].
    destruct (Z.leb_spec (e + 1) (FloatOps.emax - FloatOps.prec)) as [|Hgt];
      [done|]. unfold FloatOps.emax, FloatOps.prec in Hgt. lia.
  - rewrite shr_fexp_53; [|apply digits2_pos_unique; lia|lia].
    cbn [SpecFloat.shr_record_of_loc SpecFloat.shr_m].
    exists p, 0. split; [|split; [lia|lia]].
    rewrite Z.add_0_r.
    destruct (Z.leb_spec e (FloatOps.emax - FloatOps.prec)) as [|Hgt];
      [done|]. unfold FloatOps.emax, FloatOps.prec in Hgt. lia.
Qed.

(** What the location computed by the division says about the remainder. *)
Lemma new_location_cases (B r : Z) :
  0 ≤ r < B →
  let l := SpecFloat.new_location B r in
  (l = SpecFloat.loc_Exact ∧ r = 0)
  ∨ (l = SpecFloat.loc_Inexact Lt ∧ 0 < r ∧ 2 * r < B)
  ∨ (l = SpecFloat.loc_Inexact Eq ∧ 2 * r = B)
  ∨ (l = SpecFloat.loc_Inexact Gt ∧ B < 2 * r).
Proof.
  intros Hr. unfold SpecFloat.new_location.
  destruct (Z.even B) eqn:Heven.
  - unfold SpecFloat.new_location_even.
    destruct (Z.eqb_spec r 0) as [->|Hne]; [by left|]. right.
    destruct (Z.compare_spec (2 * r) B); [right; left|left|right; right];
      (split; [done|lia]).
  - unfold SpecFloat.new_location_odd.
    destruct (Z.eqb_spec r 0) as [->|Hne]; [by left|]. right.
    assert (B ≠ 2 * r).
    { intros ->. rewrite Z.even_mul in Heven. discriminate Heven. }
    destruct (Z.compare_spec (2 * r + 1) B); [left|left|right; right];
      (split; [done|lia]).
Qed.

(** Rounding the quotient to nearest: the error is at most half a unit. *)
Lemma round_error_53 (q B r : Z) :
  0 ≤ r < B →
  let m1 := SpecFloat.round_nearest_even q (SpecFloat.new_location B r) in
  q ≤ m1 ≤ q + 1 ∧ 2 * Z.abs (m1 * B - (q * B + r)) ≤ B.
Proof.
  intros Hr m1. subst m1.
  destruct (new_location_cases B r Hr) as [[-> ?]|[[-> ?]|[[-> ?]|[-> ?]]]];
    cbn [SpecFloat.round_nearest_even]; try destruct (Z.even q); nia.
Qed.

(** Rounding after one binary place is dropped: the error is at most one
    unit of the quotient, half a unit of the result. *)
Lemma round_error_54 (q : positive) (B r : Z) :
  0 ≤ r < B →
  let mrs :=
    SpecFloat.shr_1
      (SpecFloat.shr_record_of_loc (Z.pos q) (SpecFloat.new_location B r)) in
  let m1 :=
    SpecFloat.round_nearest_even (SpecFloat.shr_m mrs)
      (SpecFloat.loc_of_shr_record mrs) in
  Z.pos q ≤ 2 * m1 + 1 ∧ 2 * m1 ≤ Z.pos q + 2 ∧
  Z.abs (2 * m1 * B - (Z.pos q * B + r)) ≤ B.
Proof.
  intros Hr mrs m1. subst m1 mrs.
  destruct (new_location_cases B r Hr) as [[-> ?]|[[-> ?]|[[-> ?]|[-> ?]]]];
    destruct q as [p|p|];
    cbn [SpecFloat.shr_record_of_loc SpecFloat.shr_1 orb SpecFloat.shr_m
         SpecFloat.loc_of_shr_record SpecFloat.round_nearest_even];
    try destruct (Z.even _); nia.
Qed.

(** Rounding a quotient of 53 or 54 digits with its remainder: the result
    is finite and within the relative error 2^-53 of the exact quotient
    [(q * B + r) / B]. *)
Lemma binary_round_aux_quotient (q B r e : Z) :
  2 ^ 52 ≤ q < 2 ^ 54 → 0 ≤ r < B → -1000 ≤ e ≤ 800 →
  ∃ m T,
    SpecFloat.binary_round_aux FloatOps.prec FloatOps.emax false q e
      (SpecFloat.new_location B r)
    = SpecFloat.S754_finite false m (e + T) ∧
    0 ≤ T ≤ 2 ∧
    2 ^ 53 * Z.abs (Z.pos m * 2 ^ T * B - (q * B + r)) ≤ q * B + r.
Proof.
  intros Hq Hr He. destruct q as [|q|q]; [lia| |lia].
  unfold SpecFloat.binary_round_aux.
  destruct (Z.ltb_spec (Z.pos q) (2 ^ 53)) as [Hlt | Hge].
  - rewrite shr_fexp_53; [|apply digits2_pos_unique; lia|lia].
    rewrite shr_m_of_loc, loc_of_shr_record_of_loc.
    destruct (round_error_53 (Z.pos q) B r Hr) as [Hm1 Herr].
    set (m1 := SpecFloat.round_nearest_even _ _) in *.
    destruct (round_finish false m1 e) as (m & t & Hfin & Ht & Hm);
      [lia|lia|].
    exists m, t. split; [exact Hfin|]. split; [lia|].
    rewrite Hm. nia.
  - rewrite shr_fexp_54; [|apply digits2_pos_unique; lia|lia].
    destruct (round_error_54 q B r Hr) as (Hlo & Hhi & Herr).
    set (mrs := SpecFloat.shr_1 _) in *.
    set (m1 := SpecFloat.round_nearest_even _ _) in *.
    destruct (round_finish false m1 (e + 1)) as (m & t & Hfin & Ht & Hm);
      [lia|lia|].
    exists m, (1 + t). split; [|split; [lia|]].
    + rewrite Z.add_assoc. exact Hfin.
    + rewrite Z.pow_add_r by lia. change (2 ^ 1) with 2.
      replace (Z.pos m * (2 * 2 ^ t)) with (2 * (Z.pos m * 2 ^ t)) by ring.
      rewrite Hm. nia.
Qed.

(** The quotient of two binary64 numbers with full mantissas: a finite
    number within the relative error 2^-53 of the exact quotient. *)
Lemma SFdiv_normal (ma mb : positive) (ea eb : Z) :
  Z.pos (SpecFloat.digits2_pos ma) = 53 →
  Z.pos (SpecFloat.digits2_pos mb) = 53 →
  -60 ≤ ea ≤ 0 → -60 ≤ eb ≤ 0 →
  ∃ m T,
    SpecFloat.SFdiv FloatOps.prec FloatOps.emax
      (SpecFloat.S754_finite false ma ea) (SpecFloat.S754_finite false mb eb)
    = SpecFloat.S754_finite false m (ea - eb - 53 + T) ∧
    0 ≤ T ≤ 2 ∧
    2 ^ 53 * Z.abs (Z.pos m * 2 ^ T * Z.pos mb - Z.pos ma * 2 ^ 53)
    ≤ Z.pos ma * 2 ^ 53.
Proof.
  intros Hda Hdb Hea Heb.
  pose proof (digits2_pos_bounds ma) as Ha. rewrite Hda in Ha.
  pose proof (digits2_pos_bounds mb) as Hb. rewrite Hdb in Hb.
  unfold SpecFloat.SFdiv, SpecFloat.SFdiv_core_binary.
  cbn [SpecFloat.Zdigits2 xorb]. rewrite Hda, Hdb.
  rewrite fexp_small by lia.
  replace (Z.min (53 + ea - (53 + eb) - 53) (ea - eb)) with (ea - eb - 53)
    by lia.
  replace (ea - eb - (ea - eb - 53)) with 53 by lia.
  cbv beta iota zeta. rewrite Z.shiftl_mul_pow2 by lia.
  pose proof (Z_div_mod (Z.pos ma * 2 ^ 53) (Z.pos mb) eq_refl) as Hdiv.
  destruct (Z.div_eucl (Z.pos ma * 2 ^ 53) (Z.pos mb)) as [q r].
  destruct Hdiv as [Hdiv Hr].
  destruct (binary_round_aux_quotient q (Z.pos mb) r (ea - eb - 53))
    as (m & T & Hround & HT & Herr); [nia|lia|lia|].
  exists m, T. split; [exact Hround|]. split; [exact HT|].
  rewrite Hdiv. replace (Z.pos mb * q + r) with (q * Z.pos mb + r) by ring.
  exact Herr.
Qed.

Lemma digits2_pos_iter_xO (p k : positive) :
  SpecFloat.digits2_pos (Pos.iter xO p k) = (SpecFloat.digits2_pos p + k)%positive.
Proof.
  induction k as [|k IH] using Pos.peano_ind.
  - simpl. lia.
  - rewrite Pos.iter_succ. cbn [SpecFloat.digits2_pos]. rewrite IH. lia.
Qed.

(** The double of a positive [int]: the mantissa is the integer shifted to
    53 digits. *)
Lemma to_double_int (n : Z) :
  0 < n < 2 ^ 31 →
  ∃ m e,
    FloatOps.Prim2SF (to_double n) = SpecFloat.S754_finite false m e ∧
    Z.pos (SpecFloat.digits2_pos m) = 53 ∧ -52 ≤ e ≤ -22 ∧
    Z.pos m = n * 2 ^ (- e).
Proof.
  intros Hn. unfold to_double.
  destruct (Z.leb_spec 0 n); [|lia].
  rewrite FloatAxioms.of_uint63_spec, Uint63.of_Z_spec.
  rewrite Z.mod_small by (change Uint63.wB with (2 ^ 63); lia).
  destruct n as [|p|p]; [lia| |lia].
  cbn [SpecFloat.binary_normalize]. unfold SpecFloat.binary_round.
  pose proof (digits2_pos_bounds p) as Hd.
  set (d := SpecFloat.digits2_pos p) in *.
  assert (Z.pos d ≤ 31) as Hd31.
  { destruct (Z.leb_spec (Z.pos d) 31); [done|].
    assert (2 ^ 31 ≤ 2 ^ (Z.pos d - 1)) by (apply Z.pow_le_mono_r; lia).
    lia. }
  rewrite fexp_small by lia. unfold SpecFloat.shl_align.
  destruct (Z.pos d + 0 - 53 - 0) as [|k|k] eqn:Hk; [lia|lia|].
  assert (Z.pos k = 53 - Z.pos d) as Hk' by lia.
  exists (Pos.iter xO p k), (Z.pos d + 0 - 53).
  split; [|split; [|split]].
  - unfold SpecFloat.binary_round_aux.
    rewrite shr_fexp_53; [|rewrite digits2_pos_iter_xO; fold d; lia|lia].
    cbn [SpecFloat.shr_record_of_loc SpecFloat.shr_m
         SpecFloat.loc_of_shr_record SpecFloat.round_nearest_even].
    rewrite shr_fexp_53; [|rewrite digits2_pos_iter_xO; fold d; lia|lia].
    cbn [SpecFloat.shr_record_of_loc SpecFloat.shr_m].
    destruct (Z.leb_spec (Z.pos d + 0 - 53) (FloatOps.emax - FloatOps.prec))
      as [|Hgt]; [done|]. unfold FloatOps.emax, FloatOps.prec in Hgt. lia.
  - rewrite digits2_pos_iter_xO. fold d. lia.
  - lia.
  - rewrite iter_xO_spec. f_equal. f_equal. lia.
Qed.

(** The double quotient of two positive [int] values is a finite double
    [m * 2^e] with a negative exponent. *)
Lemma double_quotient (a b : Z) :
  0 < a < 2 ^ 31 → 0 < b < 2 ^ 31 →
  ∃ m e,
    FloatOps.Prim2SF (PrimFloat.div (to_double a) (to_double b))
    = SpecFloat.S754_finite false m e ∧
    e < 0 ∧
    2 ^ 53 * Z.abs (Z.pos m * b - a * 2 ^ (- e)) ≤ a * 2 ^ (- e).
Proof.
  intros Ha Hb.
  destruct (to_double_int a Ha) as (ma & ea & Hfa & Hda & Hea & Hma).
  destruct (to_double_int b Hb) as (mb & eb & Hfb & Hdb & Heb & Hmb).
  rewrite FloatAxioms.div_spec, Hfa, Hfb. unfold FloatAxioms.SF64div.
  destruct (SFdiv_normal ma mb ea eb Hda Hdb) as (m & T & -> & HT & Herr);
    [lia|lia|].
  exists m, (ea - eb - 53 + T). split; [done|]. split; [lia|].
  rewrite Hma, Hmb in Herr.
  set (E := 2 ^ (- (ea - eb - 53 + T))).
  set (K := 2 ^ T * 2 ^ (- eb)).
  assert (0 < K) as HK by (unfold K; apply Z.mul_pos_pos; apply Z.pow_pos_nonneg; lia).
  assert (E * K = 2 ^ (- ea) * 2 ^ 53) as HE.
  { unfold E, K. rewrite <- !Z.pow_add_r by lia. f_equal. lia. }
  replace (Z.pos m * 2 ^ T * (b * 2 ^ (- eb)) - a * 2 ^ (- ea) * 2 ^ 53)
    with ((Z.pos m * b - a * E) * K) in Herr
    by (rewrite Z.mul_sub_distr_r, <- (Z.mul_assoc a E K), HE; unfold K; ring).
  replace (a * 2 ^ (- ea) * 2 ^ 53) with (a * E * K) in Herr
    by (rewrite <- (Z.mul_assoc a E K), HE; ring).
  rewrite Z.abs_mul, (Z.abs_eq K), Z.mul_assoc in Herr by lia.
  by apply Z.mul_le_mono_pos_r in Herr.
Qed.

Lemma double_value_finite (f : PrimFloat.float) (m : positive) (e : Z) :
  FloatOps.Prim2SF f = SpecFloat.S754_finite false m e → e < 0 →
  (double_value f == Z.pos m # Z.to_pos (2 ^ (- e)))%Q.
Proof.
  intros Hf He. unfold double_value. rewrite Hf.
  destruct (Z.leb_spec 0 e); [lia|]. apply Qred_correct.
Qed.

(** The double quotient of two positive [int] values lies within the
    relative error 2^-53 of the exact quotient. *)
Lemma double_quotient_error (a b : Z) :
  0 < a < 2 ^ 31 → 0 < b < 2 ^ 31 →
  (Qabs (double_value (PrimFloat.div (to_double a) (to_double b))
         - inject_Z a / inject_Z b)
   <= inject_Z a / inject_Z b * unit_roundoff)%Q.
Proof.
  intros Ha Hb. destruct (double_quotient a b Ha Hb) as (m & e & Hf & He & Herr).
  rewrite (double_value_finite _ m e Hf He).
  assert (0 < 2 ^ (- e)) as HE by (apply Z.pow_pos_nonneg; lia).
  revert Herr. generalize HE.
  rewrite <- (Z2Pos.id (2 ^ (-e)) HE) at 1 2 3.
  generalize (Z.to_pos (2 ^ (- e))). intros E _ Herr.
  destruct b as [|b|b]; [lia| |lia]. clear Hf.
  assert (inject_Z a / inject_Z (Z.pos b) == a # b)%Q as ->.
  { unfold Qeq, Qdiv, Qmult, Qinv, inject_Z. simpl. lia. }
  apply Qabs_Qle_condition.
  unfold Qle, Qminus, Qplus, Qopp, Qmult, unit_roundoff.
  cbn [Qnum Qden]. rewrite !Pos2Z.inj_mul.
  change (Z.pos 9007199254740992) with (2 ^ 53).
  split; nia.
Qed.

(** No count exceeds the size of the supply. *)
Lemma remaining_le_size s m :
  deck_wf (ParentGame s) (deck_ s) → remaining s m ≤ HanabiDeck.Size (deck_ s).
Proof.
  intros Hwf. unfold remaining, HanabiDeck.Size, HanabiDeck.CardCount.
  rewrite (deck_wf_total _ _ Hwf).
  destruct (vec_at _ _) as [n|e] eqn:Hn; simpl.
  - apply vec_at_Ok in Hn as [_ Hn].
    by apply (sumZ_lookup_le _ _ _ (deck_wf_nonneg _ _ Hwf) Hn).
  - apply sumZ_nonneg, Hwf.
Qed.

(** Errors relative to the exact values add up to an error relative to the
    exact sum. *)
Lemma sumQ_relative_error {A} (f g : A → Q) (u : Q) (l : list A) :
  Forall (λ x, (Qabs (f x - g x) <= g x * u)%Q) l →
  (Qabs (sumQ (f <$> l) - sumQ (g <$> l)) <= sumQ (g <$> l) * u)%Q.
Proof.
  induction 1 as [|x l Hx Hl IH].
  - simpl. rewrite Qmult_0_l. apply Qle_refl.
  - rewrite !fmap_cons. unfold sumQ in *. cbn [foldr].
    setoid_replace (f x + foldr Qplus 0 (f <$> l)
                    - (g x + foldr Qplus 0 (g <$> l)))%Q
      with ((f x - g x)
            + (foldr Qplus 0 (f <$> l) - foldr Qplus 0 (g <$> l)))%Q
      using relation Qeq by ring.
    eapply Qle_trans; [apply Qabs_triangle|].
    rewrite Qmult_plus_distr_l. by apply Qplus_le_compat.
Qed.

(** ** The distribution of the chance outcomes *)

Lemma sumQ_probability s (moves : list HanabiMove.t) :
  (sumQ (probability s <$> moves)
   == inject_Z (sumZ (remaining s <$> moves))
      / inject_Z (HanabiDeck.Size (deck_ s)))%Q.
Proof.
  induction moves as [|m moves IH].
  - simpl. unfold Qdiv. by rewrite Qmult_0_l.
  - rewrite !fmap_cons. unfold sumQ, sumZ in *. cbn [foldr].
    rewrite IH. unfold probability, Qdiv. rewrite inject_Z_plus. ring.
Qed.

(** Moves without supply contribute nothing to the total. *)
Lemma remaining_filter s (moves : list HanabiMove.t) :
  Forall (λ m, 0 ≤ remaining s m) moves →
  sumZ (remaining s <$> filter (λ m, has_supply s m = true) moves)
  = sumZ (remaining s <$> moves).
Proof.
  induction 1 as [|m moves Hm Hmoves IH]; [done|].
  rewrite filter_cons. case_decide as Hsupply.
  - rewrite !fmap_cons. cbn [sumZ foldr]. fold (sumZ). unfold sumZ in *.
    cbn [foldr]. by rewrite IH.
  - unfold has_supply in Hsupply. apply not_true_is_false, Z.ltb_ge in Hsupply.
    rewrite fmap_cons. unfold sumZ in *. cbn [foldr]. rewrite IH. lia.
Qed.

(** C8.  When the current actor is the chance actor and the supply is
    non-empty (its size an [int]), ChanceOutcomes returns exactly the Deal
    moves of the chance-outcome catalog whose identity has a positive
    remaining count, each paired with the double quotient of the identity's
    remaining count by the total remaining size.  Each returned double lies
    within the relative error 2^-53 of the exact quotient; the exact
    quotients of the returned moves sum to 1, and the returned doubles sum
    to 1 within 2^-53. *)
Theorem ChanceOutcomes_distribution s
    (Hwf : state_wf s)
    (Hcatalog : catalog_complete (ParentGame s))
    (Hchance : cur_player_ s = kChancePlayerId)
    (Hsupply : HanabiDeck.Empty (deck_ s) = false)
    (Hint : HanabiDeck.Size (deck_ s) < 2 ^ 31) :
  let outcomes :=
    filter (λ m, has_supply s m = true) (chance_catalog (ParentGame s)) in
  let probabilities := double_probability s <$> outcomes in
  ChanceOutcomes s = Ok (outcomes, probabilities) ∧
  Forall (λ m, HanabiMove.MoveType m = HanabiMove.kDeal) outcomes ∧
  Forall (λ m, (Qabs (double_value (double_probability s m) - probability s m)
                <= probability s m * unit_roundoff)%Q) outcomes ∧
  (sumQ (probability s <$> outcomes) == 1)%Q ∧
  (Qabs (sumQ (double_value <$> probabilities) - 1) <= unit_roundoff)%Q.
Proof.
  pose proof (wf_deck _ Hwf) as Hdeck.
  pose proof (game_colors _ (wf_game _ Hwf)) as Hnc.
  assert (∀ m, m ∈ chance_catalog (ParentGame s) → m ∈ all_deals (ParentGame s))
    as Hin by (intros m; unfold catalog_complete in Hcatalog;
               by rewrite Hcatalog).
  assert (0 < HanabiDeck.Size (deck_ s)) as Hsize.
  { assert (0 ≤ HanabiDeck.Size (deck_ s)).
    { unfold HanabiDeck.Size. rewrite (deck_wf_total _ _ Hdeck).
      apply sumZ_nonneg, Hdeck. }
    unfold HanabiDeck.Empty, HanabiDeck.Size in *.
    apply Z.eqb_neq in Hsupply. lia. }
  intros outcomes probabilities.
  assert (Forall (λ m, (Qabs (double_value (double_probability s m)
                              - probability s m)
                        <= probability s m * unit_roundoff)%Q) outcomes)
    as Herror.
  { apply Forall_forall. intros m [Hm _]%list_elem_of_filter.
    unfold has_supply in Hm. apply Z.ltb_lt in Hm.
    pose proof (remaining_le_size s m Hdeck).
    apply double_quotient_error; lia. }
  assert (sumQ (probability s <$> outcomes) == 1)%Q as Hsum.
  { rewrite sumQ_probability. unfold outcomes.
    rewrite remaining_filter.
    + rewrite (sumZ_perm _ (remaining s <$> all_deals (ParentGame s)))
        by (by apply fmap_Permutation).
      rewrite remaining_all_deals by done.
      apply Qmult_inv_r. intros Hzero.
      unfold Qeq in Hzero. simpl in Hzero. lia.
    + apply Forall_forall. intros m Hm%Hin.
      unfold all_deals in Hm.
      apply list_elem_of_fmap in Hm as (i & -> & Hi%upto_elem).
      destruct (index_decode _ _ i Hi Hnc) as (Hq & Hr & _).
      destruct (CardCount_defined (ParentGame s) (deck_ s) _ _ Hdeck
                  (conj Hq Hr)) as (n & Hn & Hpos).
      unfold remaining. simpl. by rewrite Hn. }
  split; [|split; [|split; [exact Herror|split; [exact Hsum|]]]].
  - unfold ChanceOutcomes.
    rewrite (ChanceOutcomes_loop s _ [] []); [done|].
    intros uid Huid m. apply MoveIsLegal_deal; try done.
    apply Hin. unfold chance_catalog. by apply list_elem_of_fmap_2.
  - apply Forall_forall. intros m [_ Hm%Hin]%list_elem_of_filter.
    unfold all_deals in Hm. by apply list_elem_of_fmap in Hm as (i & -> & _).
  - unfold probabilities. rewrite <- list_fmap_compose.
    pose proof (sumQ_relative_error
                  (double_value ∘ double_probability s) (probability s)
                  unit_roundoff outcomes Herror) as Htotal.
    rewrite Hsum, Qmult_1_l in Htotal. exact Htotal.
Qed.

Lemma small_start_wf : state_wf small_start.
Proof.
  apply (reachable_play_inv _ _ small_game_wf small_start_reachable).
Qed.

Lemma small_catalog_complete : catalog_complete small_game.
Proof. unfold catalog_complete. by vm_compute. Qed.

Lemma example_catalog_complete : catalog_complete example_game.
Proof. unfold catalog_complete. by vm_compute. Qed.

(** At the start of the example game of five colors and five ranks, with
    fifty cards in the supply, the twenty-five returned doubles are not
    exact quotients: they add up to more than 1, within 2^-53 of it. *)
Lemma ChanceOutcomes_distribution_witness :
  state_wf example_start ∧ catalog_complete (ParentGame example_start) ∧
  cur_player_ example_start = kChancePlayerId ∧
  HanabiDeck.Empty (deck_ example_start) = false ∧
  HanabiDeck.Size (deck_ example_start) < 2 ^ 31 ∧
  ∃ moves probs,
    ChanceOutcomes example_start = Ok (moves, probs) ∧
    length moves = 25%nat ∧
    (Qabs (sumQ (double_value <$> probs) - 1) <= unit_roundoff)%Q ∧
    (1 < sumQ (double_value <$> probs))%Q.
Proof.
  assert (state_wf example_start) as Hwf
    by apply (reachable_play_inv _ _ example_game_wf example_start_reachable).
  assert (cur_player_ example_start = kChancePlayerId) as Hchance
    by reflexivity.
  assert (HanabiDeck.Empty (deck_ example_start) = false) as Hsupply
    by reflexivity.
  assert (HanabiDeck.Size (deck_ example_start) < 2 ^ 31) as Hint
    by reflexivity.
  split; [exact Hwf|]. split; [exact example_catalog_complete|].
  split; [exact Hchance|]. split; [exact Hsupply|]. split; [exact Hint|].
  destruct (ChanceOutcomes_distribution example_start Hwf
              example_catalog_complete Hchance Hsupply Hint)
    as (Hout & _ & _ & _ & Hbound).
  eexists _, _. split; [exact Hout|].
  split; [vm_compute; reflexivity|]. split; [exact Hbound|].
  vm_compute. reflexivity.
Defined.

(** ** Terminal status and score on the data model *)

(** Over counters between 0 and [b] every partial sum of [accumulate] lies
    between 0 and the number of counters times [b]. *)
Lemma accumulate_take_bounds (v : list Z) (b : Z) (k : nat) :
  Forall (λ x, 0 ≤ x ≤ b) v → 0 ≤ accumulate (take k v) ≤ size v * b.
Proof.
  intros Hv. rewrite accumulate_sumZ.
  assert (Forall (λ n, 0 ≤ n) v) as Hpos
    by (eapply Forall_impl; [exact Hv | simpl; lia]).
  pose proof (sumZ_le_bound v b Hv) as Hle.
  rewrite <- (take_drop k v) in Hle at 1. rewrite sumZ_app in Hle.
  pose proof (sumZ_nonneg (take k v) (Forall_take _ k _ Hpos)).
  pose proof (sumZ_nonneg (drop k v) (Forall_drop _ k _ Hpos)).
  lia.
Qed.

(** Every reachable state is a state of the data model: the life tokens are
    not negative, there is one fireworks counter per color, and each counter
    lies between 0 and the number of ranks. *)
Lemma reachable_data_model game s :
  game_wf game → reachable game s →
  0 ≤ life_tokens_ s ∧
  size (fireworks_ s) = HanabiGame.NumColors (ParentGame s) ∧
  Forall (λ progress, 0 ≤ progress ≤ HanabiGame.NumRanks (ParentGame s))
    (fireworks_ s).
Proof.
  intros Hgame Hreach.
  pose proof (reachable_play_inv _ _ Hgame Hreach) as [Hwf _ _ Hfw].
  split; [apply (reachable_tokens_in_range game s Hgame Hreach)|].
  split; [apply (wf_fireworks _ Hwf) | exact Hfw].
Qed.

(** C2.  On the states of the data model (the life tokens are not negative,
    there is one fireworks counter per color, each between 0 and the number
    of ranks) of a configuration whose number of identities
    NumColors x NumRanks is an [int], the sum of the fireworks counters
    stays within the [int] range at every step of the addition, and the
    terminal status is a total function of the state: out of life tokens
    when the life tokens are at zero; otherwise completed when the total
    fireworks progress equals NumColors x NumRanks; otherwise out of cards
    when the countdown is at or below zero; otherwise not finished.  The
    score is 0 when the life tokens are at zero and the sum of the fireworks
    counters otherwise. *)
Theorem EndOfGameStatus_Score_model s
    (Hlife : 0 ≤ life_tokens_ s)
    (Hsize : size (fireworks_ s) = HanabiGame.NumColors (ParentGame s))
    (Hfireworks :
       Forall (λ progress, 0 ≤ progress ≤ HanabiGame.NumRanks (ParentGame s))
         (fireworks_ s))
    (Hint : HanabiGame.NumColors (ParentGame s)
            * HanabiGame.NumRanks (ParentGame s) < 2 ^ 31) :
  (∀ k, is_int (accumulate (take k (fireworks_ s)))) ∧
  EndOfGameStatus s = status_as_specified s ∧
  Score s = score_as_specified s.
Proof.
  split.
  - intros k. pose proof (accumulate_take_bounds _ _ k Hfireworks) as Hk.
    rewrite Hsize in Hk. unfold is_int. lia.
  - apply EndOfGameStatus_Score_spec; [exact Hlife|].
    rewrite <- Hsize. by apply sumZ_le_bound.
Qed.

Lemma EndOfGameStatus_Score_model_witness :
  (0 ≤ life_tokens_ small_misplayed ∧
   size (fireworks_ small_misplayed) = 2 ∧
   fireworks_ small_misplayed = [0; 0] ∧
   EndOfGameStatus small_misplayed = kOutOfLifeTokens ∧
   Score small_misplayed = 0) ∧
  (0 ≤ life_tokens_ small_scored ∧
   size (fireworks_ small_scored) = 2 ∧
   fireworks_ small_scored = [1; 0] ∧
   EndOfGameStatus small_scored = kNotFinished ∧
   Score small_scored = 1).
Proof.
  split.
  - assert (0 ≤ life_tokens_ small_misplayed) as Hlife
      by (vm_compute; discriminate).
    split; [exact Hlife|]. split; [reflexivity|]. split; [reflexivity|].
    destruct (EndOfGameStatus_Score_model small_misplayed Hlife)
      as (_ & -> & ->).
    + reflexivity.
    + repeat constructor; vm_compute; discriminate.
    + reflexivity.
    + by vm_compute.
  - assert (0 ≤ life_tokens_ small_scored) as Hlife
      by (vm_compute; discriminate).
    split; [exact Hlife|]. split; [reflexivity|]. split; [reflexivity|].
    destruct (EndOfGameStatus_Score_model small_scored Hlife)
      as (_ & -> & ->).
    + reflexivity.
    + repeat constructor; vm_compute; discriminate.
    + reflexivity.
    + by vm_compute.
Defined.

(** ** The supply: construction, round trips and forced content *)




Lemma deck_with_undo game d index n n' :
  deck_wf game d → vec_at (HanabiDeck.card_count_ d) index = Ok n →
  deck_with (deck_with d index n n') index n' n = d.
Proof.
  intros Hwf [Hi Hn]%vec_at_Ok. destruct d as [counts total ranks].
  unfold deck_with. simpl in *. f_equal; [|lia].
  rewrite list_insert_insert_eq. by apply list_insert_id.
Qed.

(** X2.  Returning a card to the supply and drawing the same identity are
    inverse to each other: [AddCard] followed by [DealCard] of the identity
    gives the card and the supply as it was, and a [DealCard] of an identity
    with a positive count followed by [AddCard] restores the supply. *)
Theorem AddCard_DealCard_round_trip game d c r
    (Hwf : deck_wf game d) (Hcr : in_range game c r) :
  (∃ d1, HanabiDeck.AddCard d c r = Ok d1 ∧
         HanabiDeck.DealCard d1 c r = Ok (HanabiCard.mk c r, d)) ∧
  (∀ n, HanabiDeck.CardCount d c r = Ok n → 0 < n →
     ∃ d1, HanabiDeck.DealCard d c r = Ok (HanabiCard.mk c r, d1) ∧
           HanabiDeck.AddCard d1 c r = Ok d).
Proof.
  pose proof Hcr as [Hc Hr]. split.
  - destruct (AddCard_Ok game d c r Hwf Hcr) as (n & Hn & Hpos & Hadd).
    eexists. split; [exact Hadd|].
    apply (CardCount_Ok game) in Hn; [|done].
    assert (deck_wf game
              (deck_with d (c * HanabiGame.NumRanks game + r) n (n + 1)))
      as Hwf1 by (apply deck_with_wf; (done || lia)).
    rewrite (DealCard_positive game _ c r (n + 1)); [| done | done | | lia].
    + replace (n + 1 - 1) with n by lia.
      by rewrite (deck_with_undo game d _ n (n + 1)).
    + rewrite (deck_with_count game) by (done || nia). by rewrite decide_True.
  - intros n Hn Hpos.
    rewrite (DealCard_positive game d c r n) by done.
    eexists. split; [done|].
    apply (CardCount_Ok game) in Hn; [|done].
    assert (deck_wf game
              (deck_with d (c * HanabiGame.NumRanks game + r) n (n - 1)))
      as Hwf1 by (apply deck_with_wf; (done || lia)).
    destruct (AddCard_Ok game _ c r Hwf1 Hcr) as (n1 & Hn1 & _ & Hadd).
    rewrite (deck_with_count game) in Hn1 by (done || nia).
    rewrite decide_True in Hn1 by done. injection Hn1 as <-.
    rewrite Hadd. replace (n - 1 + 1) with n by lia.
    by rewrite (deck_with_undo game d _ n (n - 1)).
Qed.

Lemma AddCard_DealCard_round_trip_witness :
  deck_wf example_game example_deck ∧ in_range example_game 2 4 ∧
  ∃ d1, HanabiDeck.AddCard example_deck 2 4 = Ok d1 ∧
        HanabiDeck.DealCard d1 2 4 = Ok (HanabiCard.mk 2 4, example_deck).
Proof.
  assert (in_range example_game 2 4) as Hcr by (vm_compute; intuition discriminate).
  split; [exact example_deck_wf|]. split; [exact Hcr|].
  exact (proj1 (AddCard_DealCard_round_trip example_game example_deck 2 4
                  example_deck_wf Hcr)).
Defined.

Lemma card_indicator_index_eq game c r card :
  in_range game c r →
  in_range game (HanabiCard.Color card) (HanabiCard.Rank card) →
  card_indicator c r card
  = if decide (HanabiCard.Color card * HanabiGame.NumRanks game
               + HanabiCard.Rank card
               = c * HanabiGame.NumRanks game + r) then 1 else 0.
Proof.
  intros [Hc Hr] [Hc' Hr']. unfold card_indicator. destruct card as [c' r'].
  simpl in *. case_decide as E; case_decide as E'; try done.
  - injection E as -> ->. done.
  - apply index_inj in E' as [-> ->]; [done | lia | lia].
Qed.

Lemma card_indicator_not_valid game c r card :
  in_range game c r → HanabiCard.IsValid card = false →
  card_indicator c r card = 0.
Proof.
  intros [Hc Hr] Hv. unfold card_indicator. case_decide as E; [|done].
  subst card. unfold HanabiCard.IsValid in Hv. simpl in Hv.
  apply andb_false_iff in Hv as [Hv|Hv]; apply Z.leb_gt in Hv; lia.
Qed.

Lemma count_card_in_AddCard d card :
  HanabiDeck.count_card_in d card
  = if HanabiCard.IsValid card
    then HanabiDeck.AddCard d (HanabiCard.Color card) (HanabiCard.Rank card)
    else Ok d.
Proof. reflexivity. Qed.

Lemma for_each_count_card_in game cards : ∀ d,
  deck_wf game d → cards_of_game game cards →
  ∃ d', for_each HanabiDeck.count_card_in d cards = Ok d' ∧
        deck_wf game d' ∧
        (∀ c r, in_range game c r →
           ∃ n, HanabiDeck.CardCount d c r = Ok n ∧
                HanabiDeck.CardCount d' c r = Ok (n + count_card c r cards)) ∧
        HanabiDeck.Size d' = HanabiDeck.Size d + size (valid_cards cards).
Proof.
  induction cards as [|card cards IH]; intros d Hwf Hcards.
  - exists d. split; [done|]. split; [done|]. split; [|unfold size; simpl; lia].
    intros c r Hcr. destruct (CardCount_defined game d c r Hwf Hcr) as (n & Hn & _).
    exists n. split; [done|]. unfold count_card. simpl. by rewrite Z.add_0_r.
  - apply Forall_cons in Hcards as [Hcard Hcards].
    cbn [for_each]. rewrite count_card_in_AddCard.
    destruct (HanabiCard.IsValid card) eqn:Hv.
    + specialize (Hcard eq_refl).
      destruct (AddCard_Ok game d _ _ Hwf Hcard) as (n & Hn & Hpos & Hadd).
      rewrite Hadd. rewrite bind_ret.
      apply (CardCount_Ok game) in Hn; [|done].
      assert (deck_wf game
                (deck_with d (HanabiCard.Color card * HanabiGame.NumRanks game
                              + HanabiCard.Rank card) n (n + 1)))
        as Hwf1 by (apply deck_with_wf; (done || lia)).
      destruct (IH _ Hwf1 Hcards) as (d' & Hd' & Hwf' & Hcount & Hsize).
      exists d'. split; [done|]. split; [done|]. split.
      * intros c r Hcr. destruct (Hcount c r Hcr) as (n1 & Hn1 & Hn').
        rewrite (deck_with_count game) in Hn1 by (done || destruct Hcr; nia).
        change (count_card c r (card :: cards))
          with (card_indicator c r card + count_card c r cards).
        rewrite (card_indicator_index_eq game) by done.
        case_decide as E.
        -- injection Hn1 as <-. exists n. split.
           ++ apply (CardCount_Ok game); [done|]. by rewrite <- E.
           ++ rewrite Hn'. f_equal; lia.
        -- exists n1. split; [done|]. rewrite Hn'. f_equal; lia.
      * rewrite Hsize. unfold HanabiDeck.Size, valid_cards. simpl.
        rewrite filter_cons_True by done. unfold size. simpl length. lia.
    + rewrite bind_ret.
      destruct (IH _ Hwf Hcards) as (d' & Hd' & Hwf' & Hcount & Hsize).
      exists d'. split; [done|]. split; [done|]. split.
      * intros c r Hcr. destruct (Hcount c r Hcr) as (n1 & Hn1 & Hn').
        exists n1. split; [done|].
        change (count_card c r (card :: cards))
          with (card_indicator c r card + count_card c r cards).
        rewrite (card_indicator_not_valid game) by done. by rewrite Z.add_0_l.
      * rewrite Hsize. unfold valid_cards.
        rewrite filter_cons_False; [done|]. by rewrite Hv.
Qed.

(** X3.  [SetDeck] overwrites the supply: whatever the counters were, after
    the call the counter of every identity is the number of its occurrences
    in the given list and the size is the number of valid cards in the list;
    invalid cards are skipped, and no other part of the state changes. *)
Theorem SetDeck_counts s cards
    (Hranks : HanabiDeck.num_ranks_ (deck_ s)
              = HanabiGame.NumRanks (ParentGame s))
    (Hsize : size (HanabiDeck.card_count_ (deck_ s))
             = HanabiGame.NumColors (ParentGame s)
               * HanabiGame.NumRanks (ParentGame s))
    (Hcards : cards_of_game (ParentGame s) cards) :
  ∃ d, SetDeck s cards = Ok (set_deck s d) ∧
       deck_wf (ParentGame s) d ∧
       (∀ c r, in_range (ParentGame s) c r →
          HanabiDeck.CardCount d c r = Ok (count_card c r cards)) ∧
       HanabiDeck.Size d = size (valid_cards cards).
Proof.
  set (zero := HanabiDeck.mk
                 (replicate (length (HanabiDeck.card_count_ (deck_ s))) 0) 0
                 (HanabiDeck.num_ranks_ (deck_ s))).
  assert (deck_wf (ParentGame s) zero) as Hzero.
  { split; simpl.
    - done.
    - unfold size in *. by rewrite length_replicate.
    - apply Forall_replicate. lia.
    - by rewrite sumZ_replicate_0. }
  destruct (for_each_count_card_in _ cards zero Hzero Hcards)
    as (d & Hd & Hwf & Hcount & Hsz).
  exists d. split; [|split; [done|split]].
  - unfold SetDeck, HanabiDeck.SetContent. fold zero. by rewrite Hd.
  - intros c r Hcr. destruct (Hcount c r Hcr) as (n & Hn & ->).
    apply (CardCount_Ok _ _ _ _ _ Hzero), vec_at_Ok in Hn as [_ Hn].
    simpl in Hn. apply lookup_replicate_1 in Hn as [-> _]. by rewrite Z.add_0_l.
  - rewrite Hsz. unfold HanabiDeck.Size. simpl. lia.
Qed.

Lemma SetDeck_counts_witness :
  cards_of_game (ParentGame small_dealt)
    [HanabiCard.mk 1 0; HanabiCard.invalid; HanabiCard.mk 1 0] ∧
  ∃ d, SetDeck small_dealt
         [HanabiCard.mk 1 0; HanabiCard.invalid; HanabiCard.mk 1 0]
       = Ok (set_deck small_dealt d) ∧
       HanabiDeck.CardCount d 1 0 = Ok 2 ∧
       HanabiDeck.CardCount d 0 0 = Ok 0 ∧
       HanabiDeck.Size d = 2.
Proof.
  assert (cards_of_game (ParentGame small_dealt)
            [HanabiCard.mk 1 0; HanabiCard.invalid; HanabiCard.mk 1 0])
    as Hcards.
  { repeat apply Forall_cons_2; [| | |apply Forall_nil_2];
      vm_compute; intuition discriminate. }
  split; [exact Hcards|].
  destruct (SetDeck_counts small_dealt _ eq_refl eq_refl Hcards)
    as (d & Hd & _ & Hcount & Hsize).
  exists d. split; [exact Hd|].
  split; [apply (Hcount 1 0); vm_compute; intuition discriminate|].
  split; [apply (Hcount 0 0); vm_compute; intuition discriminate|].
  exact Hsize.
Defined.

(** ** The player to deal to *)

Lemma PlayerToDeal_from_least (hands : list HanabiHand.t) (hand_size : Z) :
  0 ≤ hand_size < 2 ^ 64 → ∀ i,
  (PlayerToDeal_from i hands hand_size = -1 ∧
   Forall (λ hand, hand_size ≤ size (HanabiHand.Cards hand)) hands)
  ∨ ∃ (k : nat) hand,
      PlayerToDeal_from i hands hand_size = i + Z.of_nat k ∧
      hands !! k = Some hand ∧
      size (HanabiHand.Cards hand) < hand_size ∧
      Forall (λ hand, hand_size ≤ size (HanabiHand.Cards hand)) (take k hands).
Proof.
  intros Hsize. induction hands as [|hand hands IH]; intros i; simpl.
  - left. split; [done | apply Forall_nil_2].
  - rewrite to_size_t_small by done.
    destruct (Z.ltb_spec (size (HanabiHand.Cards hand)) hand_size) as [Hlt|Hge].
    + right. exists 0%nat, hand. simpl. split; [lia|]. split; [done|].
      split; [done | apply Forall_nil_2].
    + destruct (IH (i + 1)) as [[Hp Hall]|(k & hand' & Hp & Hk & Hlt & Hall)].
      * left. split; [done | by apply Forall_cons_2].
      * right. exists (S k), hand'. simpl. split; [lia|]. split; [done|].
        split; [done | by apply Forall_cons_2].
Qed.

(** X4.  [PlayerToDeal] returns the least index of a hand below the full
    hand size: every hand before it is full, and it returns -1 exactly when
    every hand is full. *)
Theorem PlayerToDeal_least s
    (Hsize : 0 ≤ HanabiGame.HandSize (ParentGame s) < 2 ^ 31) :
  (PlayerToDeal s = -1 ∧
   Forall (λ hand, HanabiGame.HandSize (ParentGame s)
                   ≤ size (HanabiHand.Cards hand)) (hands_ s))
  ∨ ∃ hand,
      vec_at (hands_ s) (PlayerToDeal s) = Ok hand ∧
      size (HanabiHand.Cards hand) < HanabiGame.HandSize (ParentGame s) ∧
      ∀ j hand', 0 ≤ j < PlayerToDeal s → vec_at (hands_ s) j = Ok hand' →
        HanabiGame.HandSize (ParentGame s) ≤ size (HanabiHand.Cards hand').
Proof.
  unfold PlayerToDeal.
  destruct (PlayerToDeal_from_least (hands_ s)
              (HanabiGame.HandSize (ParentGame s)) ltac:(lia) 0)
    as [[Hp Hall]|(k & hand & Hp & Hk & Hlt & Hall)]; [by left|].
  right. exists hand. rewrite Hp, Z.add_0_l. split; [|split; [done|]].
  - apply vec_at_Ok. split; [lia|]. by rewrite Nat2Z.id.
  - intros j hand' Hj [_ Hj']%vec_at_Ok.
    apply (Forall_lookup_1 _ _ (Z.to_nat j) hand' Hall).
    rewrite lookup_take_lt by lia. done.
Qed.

Lemma PlayerToDeal_least_witness :
  0 ≤ HanabiGame.HandSize (ParentGame small_start) < 2 ^ 31 ∧
  PlayerToDeal small_start = 0 ∧
  ∃ hand, vec_at (hands_ small_start) 0 = Ok hand ∧
          size (HanabiHand.Cards hand) < 2.
Proof.
  assert (0 ≤ HanabiGame.HandSize (ParentGame small_start) < 2 ^ 31) as Hsize
    by (vm_compute; intuition discriminate).
  split; [exact Hsize|].
  destruct (PlayerToDeal_least small_start Hsize) as [[Hp _]|(hand & Hh & Hlt & _)].
  - vm_compute in Hp. discriminate.
  - split; [reflexivity|]. exists hand. split; [exact Hh | exact Hlt].
Defined.

(** ** One move at a time *)

Lemma DealCard_size d c r card d' :
  HanabiDeck.DealCard d c r = Ok (card, d') →
  d' = d ∨ HanabiDeck.Size d' = HanabiDeck.Size d - 1.
Proof.
  unfold HanabiDeck.DealCard, HanabiDeck.take. intros H. inv_res.
  destruct (_ <=? 0); inv_res; subst; [by left | by right].
Qed.

Lemma apply_effect_one_step s m h s1 h1 :
  apply_effect s m h = Ok (s1, h1) →
  one_step s s1 ∧ move h1 = move h ∧ player h1 = player h.
Proof.
  intros H.
  pose proof (apply_effect_frame _ _ _ _ _ H) as (Hgame & _ & _ & _ & Hhands).
  revert H. unfold apply_effect.
  destruct (HanabiMove.MoveType m) eqn:Hm; intros H.
  - discriminate.
  - (* kPlay *)
    inv_res. subst. unfold HanabiHand.RemoveFromHand in *. inv_res. subst.
    simpl in *.
    match goal with E : AddToFireworks _ _ = _ |- _ =>
      pose proof (AddToFireworks_frame _ _ _ _ E) as (_ & Hd & Hp & _);
      apply AddToFireworks_inv in E
        as [(-> & Hplays & Hf & Hl & Hi)|(-> & _ & Hf & Hpos & Hl & Hi)] end.
    + split; [|done]. split; simpl; rewrite ?Hd, ?Hp; try done.
      * by left.
      * destruct Hi as [Hi|Hi]; [by left | right; by left].
      * by left.
      * by left.
      * right. eexists _, _. split; [exact Hplays | exact Hf].
    + split; [|done]. split; simpl; rewrite ?Hd, ?Hp; try done.
      * by right.
      * by left.
      * right. by eexists.
      * by left.
      * by left.
  - (* kDiscard *)
    inv_res. subst. unfold HanabiHand.RemoveFromHand in *. inv_res. subst.
    simpl in *.
    match goal with E : IncrementInformationTokens _ = _ |- _ =>
      pose proof (IncrementInformationTokens_frame _ _ _ E)
        as (_ & Hd & Hp & _ & _ & _ & _ & Hl & Hf & _);
      unfold IncrementInformationTokens in E;
      destruct (_ <? _) eqn:Hlt in E; injection E as <- <- end;
      (split; [|done]); split; simpl in *; try done;
      try (by left); try (right; by eexists).
    right. left. apply Z.ltb_lt in Hlt. by split.
  - (* kRevealColor *)
    unfold DecrementInformationTokens in H. inv_res. subst. simpl in *.
    split; [|done]. split; simpl; try done; try (by left).
    right. right. match goal with E : (0 <? _) = true |- _ =>
      apply Z.ltb_lt in E end. by split.
  - (* kRevealRank *)
    unfold DecrementInformationTokens in H. inv_res. subst. simpl in *.
    split; [|done]. split; simpl; try done; try (by left).
    right. right. match goal with E : (0 <? _) = true |- _ =>
      apply Z.ltb_lt in E end. by split.
  - (* kDeal *)
    inv_res. subst. simpl in *.
    split; [|done]. split; simpl; try done; try (by left).
    match goal with E : HanabiDeck.DealCard _ _ _ = _ |- _ =>
      by apply DealCard_size in E end.
Qed.

Lemma one_step_before_effect s s' :
  one_step (before_effect s) s' → one_step s s'.
Proof.
  pose proof (before_effect_frame s)
    as (Hg & Hd & Hp & Hh & _ & _ & _ & Hi & Hl & Hf).
  intros [H1 H2 H3 H4 H5 H6 H7]. unfold ParentGame in *.
  rewrite Hl in H1. rewrite Hi, Hg in H2. rewrite Hp in H3. rewrite Hd in H4.
  rewrite Hf in H5. rewrite Hh in H6. rewrite Hg in H7. by split.
Qed.

Lemma ApplyMove_one_step s m s' :
  ApplyMove s m = Ok s' →
  one_step s s' ∧
  ∃ h, move_history_ s' = move_history_ s ++ [h] ∧
       move h = m ∧ player h = cur_player_ s.
Proof.
  intros (Hlegal & s1 & h & Heffect & Hadvance)%ApplyMove_Ok.
  pose proof (apply_effect_one_step _ _ _ _ _ Heffect) as (Hstep & Hmove & Hplayer).
  pose proof (apply_effect_frame _ _ _ _ _ Heffect) as (_ & _ & _ & Hhist & _).
  pose proof (before_effect_frame s) as (_ & _ & _ & _ & Hh0 & Hc0 & _).
  apply one_step_before_effect in Hstep.
  apply AdvanceToNextPlayer_frame in Hadvance
    as (Hg & Hd & Hp & Hh & Hm & Hi & Hl & Hf & _).
  simpl in *. split.
  - destruct Hstep as [H1 H2 H3 H4 H5 H6 H7].
    split; unfold ParentGame in *; rewrite ?Hg, ?Hd, ?Hp, ?Hh, ?Hi, ?Hl, ?Hf;
      simpl; done.
  - exists h. split; [congruence|]. split; [done|]. congruence.
Qed.

(** X5.  One move changes every counter by at most one.  A returned
    application leaves the life tokens as they were or spends one; moves the
    information tokens by at most one, up only below the cap and down only
    from a positive count; appends at most one card to the discard pile;
    leaves the supply as it was or takes one card from it; leaves the
    fireworks as they were or advances one counter by one; and keeps the
    number of hands and the configuration. *)
Theorem ApplyMove_step s m s' (Happly : ApplyMove s m = Ok s') :
  (life_tokens_ s' = life_tokens_ s
   ∨ 0 < life_tokens_ s ∧ life_tokens_ s' = life_tokens_ s - 1) ∧
  (information_tokens_ s' = information_tokens_ s
   ∨ information_tokens_ s < HanabiGame.MaxInformationTokens (ParentGame s)
     ∧ information_tokens_ s' = information_tokens_ s + 1
   ∨ 0 < information_tokens_ s
     ∧ information_tokens_ s' = information_tokens_ s - 1) ∧
  (discard_pile_ s' = discard_pile_ s
   ∨ ∃ card, discard_pile_ s' = discard_pile_ s ++ [card]) ∧
  (deck_ s' = deck_ s
   ∨ HanabiDeck.Size (deck_ s') = HanabiDeck.Size (deck_ s) - 1) ∧
  (fireworks_ s' = fireworks_ s
   ∨ ∃ c progress,
       vec_at (fireworks_ s) c = Ok progress ∧
       fireworks_ s' = <[Z.to_nat c := progress + 1]> (fireworks_ s)) ∧
  size (hands_ s') = size (hands_ s) ∧
  parent_game_ s' = parent_game_ s.
Proof.
  apply ApplyMove_one_step in Happly as [[? ? ? ? ? ? ?] _]. done.
Qed.

Lemma ApplyMove_step_witness :
  ApplyMove small_dealt (HanabiMove.Play 1) = Ok small_misplayed ∧
  life_tokens_ small_misplayed = life_tokens_ small_dealt - 1 ∧
  ∃ card, discard_pile_ small_misplayed = discard_pile_ small_dealt ++ [card].
Proof.
  split; [exact small_misplayed_move|].
  destruct (ApplyMove_step small_dealt (HanabiMove.Play 1) small_misplayed
              small_misplayed_move) as (Hlife & _ & Hpile & _).
  split.
  - destruct Hlife as [Hlife|[_ Hlife]]; [|exact Hlife].
    vm_compute in Hlife. discriminate Hlife.
  - destruct Hpile as [Hpile|Hpile]; [|exact Hpile].
    vm_compute in Hpile. discriminate Hpile.
Defined.

(** X6.  Every returned application appends exactly one record to the
    history, after the records already there; the record names the applied
    move and the actor who was current when it was applied. *)
Theorem ApplyMove_history s m s' (Happly : ApplyMove s m = Ok s') :
  ∃ h, move_history_ s' = move_history_ s ++ [h] ∧
       move h = m ∧ player h = cur_player_ s.
Proof. by apply ApplyMove_one_step in Happly as [_ ?]. Qed.

Lemma ApplyMove_history_witness :
  ApplyMove small_dealt (HanabiMove.Play 1) = Ok small_misplayed ∧
  ∃ h, move_history_ small_misplayed = move_history_ small_dealt ++ [h] ∧
       move h = HanabiMove.Play 1 ∧ player h = 0.
Proof.
  split; [exact small_misplayed_move|].
  exact (ApplyMove_history small_dealt (HanabiMove.Play 1) small_misplayed
           small_misplayed_move).
Defined.

(** ** After the last life token and after the last card *)

Lemma EndOfGameStatus_out_of_life_tokens s :
  EndOfGameStatus s = kOutOfLifeTokens ↔ life_tokens_ s < 1.
Proof.
  unfold EndOfGameStatus, LifeTokens.
  destruct (Z.ltb_spec (life_tokens_ s) 1); [done|].
  split; [|lia]. by repeat case_match.
Qed.

(** X7.  Running out of life tokens is final: once [EndOfGameStatus] reports
    out-of-life-tokens, no sequence of applied moves changes the life
    tokens, the status stays out-of-life-tokens and the score stays 0. *)
Theorem out_of_life_tokens_is_final s moves s'
    (Hout : EndOfGameStatus s = kOutOfLifeTokens)
    (Hplay : play_moves s moves = Ok s') :
  life_tokens_ s' = life_tokens_ s ∧
  EndOfGameStatus s' = kOutOfLifeTokens ∧ Score s' = 0.
Proof.
  assert (life_tokens_ s' = life_tokens_ s) as Hlife.
  { apply EndOfGameStatus_out_of_life_tokens in Hout.
    revert s Hout Hplay. unfold play_moves.
    induction moves as [|m moves IH]; intros s Hout Hplay; simpl in Hplay.
    - by injection Hplay as ->.
    - apply bind_Ok in Hplay as (s1 & Hstep & Hplay).
      apply ApplyMove_one_step in Hstep as [[Hl _ _ _ _ _ _] _].
      assert (life_tokens_ s1 = life_tokens_ s) as E by lia.
      rewrite <- E. apply IH; [lia | done]. }
  split; [done|].
  pose proof (proj1 (EndOfGameStatus_out_of_life_tokens s) Hout).
  split; [apply EndOfGameStatus_out_of_life_tokens; lia|].
  unfold Score, LifeTokens. destruct (Z.leb_spec (life_tokens_ s') 0); [done|lia].
Qed.

Lemma out_of_life_tokens_is_final_witness :
  EndOfGameStatus small_misplayed = kOutOfLifeTokens ∧
  ∃ s', play_moves small_misplayed
          [HanabiMove.Play 0; HanabiMove.RevealColor 1 1] = Ok s' ∧
        life_tokens_ s' = 0 ∧ Score s' = 0.
Proof.
  assert (EndOfGameStatus small_misplayed = kOutOfLifeTokens) as Hout
    by reflexivity.
  split; [exact Hout|].
  destruct (play_moves small_misplayed
              [HanabiMove.Play 0; HanabiMove.RevealColor 1 1]) as [s'|e] eqn:E;
    [|vm_compute in E; discriminate E].
  exists s'. split; [reflexivity|].
  destruct (out_of_life_tokens_is_final small_misplayed _ s' Hout E)
    as (Hlife & _ & Hscore).
  split; [exact Hlife | exact Hscore].
Defined.

Lemma ApplyMove_turns s m s' :
  ApplyMove s m = Ok s' →
  turns_to_play_ s'
  = if HanabiDeck.Empty (deck_ s)
    then turns_to_play_ s - 1 else turns_to_play_ s.
Proof.
  intros (_ & s1 & h & Heffect & Hadvance)%ApplyMove_Ok.
  apply apply_effect_turns in Heffect as [Ht _].
  apply AdvanceToNextPlayer_frame in Hadvance as (_ & _ & _ & _ & _ & _ & _ & _ & Ht').
  simpl in Ht'. rewrite Ht', Ht. unfold before_effect. by destruct (HanabiDeck.Empty _).
Qed.

Lemma ApplyMove_deck_wf s m s' :
  deck_wf (ParentGame s) (deck_ s) →
  0 ≤ HanabiGame.NumColors (ParentGame s) →
  ApplyMove s m = Ok s' →
  deck_wf (ParentGame s') (deck_ s').
Proof.
  intros Hdeck Hnc (_ & s1 & h & Heffect & Hadvance)%ApplyMove_Ok.
  pose proof (before_effect_frame s) as (Hg & Hd & _).
  apply apply_effect_deck_wf in Heffect;
    [|unfold ParentGame; by rewrite Hg, Hd|unfold ParentGame; by rewrite Hg].
  apply AdvanceToNextPlayer_frame in Hadvance as (Hg' & Hd' & _).
  unfold ParentGame in *. simpl in *. by rewrite Hg', Hd'.
Qed.

Lemma deck_wf_size_nonneg game d : deck_wf game d → 0 ≤ HanabiDeck.Size d.
Proof.
  intros Hwf. unfold HanabiDeck.Size. rewrite (deck_wf_total _ _ Hwf).
  apply sumZ_nonneg, Hwf.
Qed.

Lemma ApplyMove_empty_deck s m s' :
  deck_wf (ParentGame s) (deck_ s) →
  0 ≤ HanabiGame.NumColors (ParentGame s) →
  HanabiDeck.Empty (deck_ s) = true →
  ApplyMove s m = Ok s' →
  deck_ s' = deck_ s ∧ HanabiMove.MoveType m ≠ HanabiMove.kDeal.
Proof.
  intros Hdeck Hnc Hempty Happly.
  pose proof (ApplyMove_deck_wf _ _ _ Hdeck Hnc Happly) as Hdeck'.
  apply deck_wf_size_nonneg in Hdeck'.
  pose proof Happly as [Hlegal _]%ApplyMove_Ok.
  apply ApplyMove_one_step in Happly as [[_ _ _ Hd _ _ _] _].
  apply Z.eqb_eq in Hempty. unfold HanabiDeck.Size in *. split.
  - destruct Hd as [Hd|Hd]; [done|lia].
  - intros Hm. pose proof (legal_deal_not_empty s m Hdeck Hm Hlegal) as E.
    apply Z.eqb_neq in E. lia.
Qed.

(** X8.  Once the supply is empty it stays empty, no Deal is applied any
    more, and every applied move takes one turn off the countdown: after
    [k] further moves the countdown has dropped by exactly [k]. *)
Theorem countdown_after_exhaustion s moves s'
    (Hdeck : deck_wf (ParentGame s) (deck_ s))
    (Hcolors : 0 ≤ HanabiGame.NumColors (ParentGame s))
    (Hempty : HanabiDeck.Empty (deck_ s) = true)
    (Hplay : play_moves s moves = Ok s') :
  deck_ s' = deck_ s ∧
  turns_to_play_ s' = turns_to_play_ s - size moves ∧
  Forall (λ m, HanabiMove.MoveType m ≠ HanabiMove.kDeal) moves.
Proof.
  revert s Hdeck Hcolors Hempty Hplay. unfold play_moves.
  induction moves as [|m moves IH]; intros s Hdeck Hcolors Hempty Hplay;
    simpl in Hplay.
  - injection Hplay as ->. split; [done|]. split; [|apply Forall_nil_2].
    unfold size. simpl. lia.
  - apply bind_Ok in Hplay as (s1 & Hstep & Hplay).
    pose proof (ApplyMove_empty_deck _ _ _ Hdeck Hcolors Hempty Hstep)
      as [Hd Hm].
    pose proof (ApplyMove_turns _ _ _ Hstep) as Ht. rewrite Hempty in Ht.
    pose proof (ApplyMove_deck_wf _ _ _ Hdeck Hcolors Hstep) as Hdeck1.
    pose proof Hstep as [[_ _ _ _ _ _ Hg] _]%ApplyMove_one_step.
    destruct (IH s1) as (Hd' & Ht' & Hall); [done| |by rewrite Hd|done|].
    { unfold ParentGame. by rewrite Hg. }
    split; [congruence|]. split; [|by apply Forall_cons_2].
    rewrite Ht', Ht. unfold size. simpl length. lia.
Qed.

Lemma countdown_after_exhaustion_witness :
  deck_wf (ParentGame small_dealt) (deck_ small_dealt) ∧
  HanabiDeck.Empty (deck_ small_dealt) = true ∧
  ∃ s', play_moves small_dealt
          [HanabiMove.Play 0; HanabiMove.RevealColor 1 0] = Ok s' ∧
        turns_to_play_ small_dealt = 2 ∧ turns_to_play_ s' = 0 ∧
        EndOfGameStatus s' = kOutOfCards.
Proof.
  pose proof (wf_deck _ (proj1 small_dealt_wf)) as Hdeck.
  split; [exact Hdeck|]. split; [reflexivity|].
  destruct (play_moves small_dealt
              [HanabiMove.Play 0; HanabiMove.RevealColor 1 0]) as [s'|e] eqn:E;
    [|vm_compute in E; discriminate E].
  exists s'. split; [reflexivity|]. split; [reflexivity|].
  assert (0 ≤ HanabiGame.NumColors (ParentGame small_dealt)) as Hnc
    by (vm_compute; discriminate).
  destruct (countdown_after_exhaustion small_dealt _ s' Hdeck Hnc eq_refl E)
    as (_ & Hturns & _).
  split; [exact Hturns|].
  vm_compute in E. injection E as <-. reflexivity.
Defined.

(** X9.  The countdown starts at the number of players and stays there as
    long as the supply is non-empty: in every reachable state it is at most
    the number of players, and while the supply is non-empty it equals the
    number of players, also right after the next applied move (the Deal that
    takes the last card does not start the countdown). *)
Theorem countdown_before_exhaustion game s
    (Hgame : game_wf game) (Hreach : reachable game s) :
  turns_to_play_ s ≤ HanabiGame.NumPlayers game ∧
  (HanabiDeck.Empty (deck_ s) = false →
   turns_to_play_ s = HanabiGame.NumPlayers game ∧
   ∀ m s', ApplyMove s m = Ok s' →
     turns_to_play_ s' = HanabiGame.NumPlayers game).
Proof.
  assert (turns_to_play_ s ≤ HanabiGame.NumPlayers game ∧
          (HanabiDeck.Empty (deck_ s) = false →
           turns_to_play_ s = HanabiGame.NumPlayers game)) as [Hle Heq].
  { induction Hreach as [start s Hnew|s m s' Hreach IH Happly].
    - destruct (new_state_Ok _ _ _ Hgame Hnew)
        as (_ & _ & _ & _ & _ & _ & _ & _ & _ & ->). split; [lia|done].
    - destruct IH as [Hle Heq].
      pose proof (reachable_play_inv _ _ Hgame Hreach) as Hinv.
      pose proof (wf_deck _ (play_wf _ Hinv)) as Hdeck.
      pose proof (game_colors _ (wf_game _ (play_wf _ Hinv))) as Hnc.
      rewrite (ApplyMove_turns _ _ _ Happly).
      destruct (HanabiDeck.Empty (deck_ s)) eqn:Hempty.
      + destruct (ApplyMove_empty_deck _ _ _ Hdeck Hnc Hempty Happly) as [Hd _].
        rewrite Hd, Hempty. split; [lia|done].
      + specialize (Heq eq_refl). split; [lia|done]. }
  split; [done|]. intros Hempty. split; [by apply Heq|].
  intros m s' Happly. rewrite (ApplyMove_turns _ _ _ Happly), Hempty.
  by apply Heq.
Qed.

Lemma countdown_before_exhaustion_witness :
  game_wf small_game ∧ reachable small_game small_start ∧
  HanabiDeck.Empty (deck_ small_start) = false ∧
  turns_to_play_ small_start = 2.
Proof.
  split; [exact small_game_wf|]. split; [exact small_start_reachable|].
  split; [reflexivity|].
  destruct (countdown_before_exhaustion small_game small_start small_game_wf
              small_start_reachable) as [_ Heq].
  exact (proj1 (Heq eq_refl)).
Defined.

(** ** Discarding a card *)

Lemma before_effect_fields s :
  hands_ (before_effect s) = hands_ s
  ∧ cur_player_ (before_effect s) = cur_player_ s
  ∧ fireworks_ (before_effect s) = fireworks_ s
  ∧ parent_game_ (before_effect s) = parent_game_ s
  ∧ life_tokens_ (before_effect s) = life_tokens_ s
  ∧ information_tokens_ (before_effect s) = information_tokens_ s
  ∧ discard_pile_ (before_effect s) = discard_pile_ s
  ∧ deck_ (before_effect s) = deck_ s
  ∧ move_history_ (before_effect s) = move_history_ s
  ∧ next_non_chance_player_ (before_effect s) = next_non_chance_player_ s.
Proof. unfold before_effect. by destruct (HanabiDeck.Empty _). Qed.

(** [ApplyMove] returns as soon as the move is legal and its effect
    returns, and then differs from the state after the effect in the two
    actor fields and the appended history record only. *)
Lemma ApplyMove_from_effect s m s1 h1 :
  MoveIsLegal s m = Ok true →
  apply_effect (before_effect s) m
    (mkHistory m (cur_player_ (before_effect s)) false false (-1) (-1) 0 0 (-1))
  = Ok (s1, h1) →
  size (hands_ s1) ≠ 0 →
  ∃ s', ApplyMove s m = Ok s' ∧
        parent_game_ s' = parent_game_ s1 ∧ deck_ s' = deck_ s1 ∧
        discard_pile_ s' = discard_pile_ s1 ∧ hands_ s' = hands_ s1 ∧
        move_history_ s' = move_history_ s1 ++ [h1] ∧
        information_tokens_ s' = information_tokens_ s1 ∧
        life_tokens_ s' = life_tokens_ s1 ∧ fireworks_ s' = fireworks_ s1 ∧
        turns_to_play_ s' = turns_to_play_ s1.
Proof.
  intros Hlegal Heffect Hhands.
  destruct (AdvanceToNextPlayer_defined
              (set_move_history s1 (move_history_ s1 ++ [h1])))
    as [s' Hadvance]; [done|].
  exists s'. split; [apply ApplyMove_Ok; eauto|].
  by apply AdvanceToNextPlayer_frame in Hadvance.
Qed.

Lemma legal_discard_card s i :
  hands_sized s → is_int i →
  MoveIsLegal s (HanabiMove.Discard i) = Ok true →
  information_tokens_ s < HanabiGame.MaxInformationTokens (ParentGame s) ∧
  ∃ hand card,
    vec_at (hands_ s) (cur_player_ s) = Ok hand ∧
    vec_at (HanabiHand.Cards hand) i = Ok card ∧
    0 ≤ cur_player_ s < size (hands_ s).
Proof.
  intros Hsized Hi. unfold MoveIsLegal, InformationTokens. simpl.
  destruct (_ >=? _) eqn:Hinfo; [discriminate|].
  rewrite Z.geb_leb in Hinfo. apply Z.leb_gt in Hinfo.
  intros H. inv_res. rename x into hand.
  match goal with E : vec_at (hands_ s) _ = _ |- _ => rename E into Hhand end.
  destruct (_ >=? _) eqn:Hidx; [discriminate|].
  pose proof Hhand as [_ Hl]%vec_at_Ok.
  pose proof (Forall_lookup_1 _ _ _ _ Hsized Hl) as Hlt. simpl in Hlt.
  apply to_size_t_index in Hidx; [|done|unfold size in *; lia].
  destruct (vec_at_in_range (HanabiHand.Cards hand) i Hidx) as [card Hcard].
  split; [done|].
  exists hand, card. split; [done|]. split; [done|]. by eapply vec_at_size.
Qed.

(** X10.  A legal Discard of the card at index [i] always returns: the card
    leaves the hand of the current player and is appended to the discard
    pile, and exactly one information token is recovered (the move is legal
    only below the cap, so the recovery never fails and the history records
    it); life tokens, fireworks and supply are unchanged. *)
Theorem Discard_effect s i
    (Hsized : hands_sized s) (Hi : is_int i)
    (Hlegal : MoveIsLegal s (HanabiMove.Discard i) = Ok true) :
  ∃ hand card s',
    vec_at (hands_ s) (cur_player_ s) = Ok hand ∧
    vec_at (HanabiHand.Cards hand) i = Ok card ∧
    ApplyMove s (HanabiMove.Discard i) = Ok s' ∧
    hands_ s'
    = <[Z.to_nat (cur_player_ s) := hand_without hand i]> (hands_ s) ∧
    discard_pile_ s' = discard_pile_ s ++ [card] ∧
    information_tokens_ s' = information_tokens_ s + 1 ∧
    life_tokens_ s' = life_tokens_ s ∧
    fireworks_ s' = fireworks_ s ∧
    deck_ s' = deck_ s ∧
    ∃ h, move_history_ s' = move_history_ s ++ [h] ∧
         information_token h = true ∧
         color h = HanabiCard.Color card ∧ rank h = HanabiCard.Rank card.
Proof.
  destruct (legal_discard_card s i Hsized Hi Hlegal)
    as (Hinfo & hand & card & Hhand & Hcard & Hcur).
  exists hand, card.
  pose proof (before_effect_fields s)
    as (Hh0 & Hc0 & Hf0 & Hg0 & Hl0 & Hi0 & Hd0 & Hk0 & Hm0 & _).
  set (s0 := before_effect s) in *.
  set (h0 := mkHistory (HanabiMove.Discard i) (cur_player_ s0)
               false false (-1) (-1) 0 0 (-1)).
  assert (apply_effect s0 (HanabiMove.Discard i) h0
          = Ok (set_discard_pile
                  (set_hands (set_information_tokens s0 (information_tokens_ s0 + 1))
                     (<[Z.to_nat (cur_player_ s) := hand_without hand i]>
                        (hands_ s)))
                  (discard_pile_ s ++ [card]),
                mkHistory (HanabiMove.Discard i) (cur_player_ s0) false true
                  (HanabiCard.Color card) (HanabiCard.Rank card) 0 0 (-1)))
    as Heffect.
  { unfold apply_effect, IncrementInformationTokens, ParentGame. simpl.
    rewrite Hg0, Hi0. destruct (Z.ltb_spec (information_tokens_ s)
      (HanabiGame.MaxInformationTokens (parent_game_ s))); [|unfold ParentGame in *; lia].
    simpl. rewrite Hh0, Hc0, Hhand. simpl. rewrite Hcard. simpl.
    unfold HanabiHand.RemoveFromHand. rewrite Hcard. simpl.
    rewrite (proj2 (vec_set_Ok (hands_ s) _ (cur_player_ s) _)
               (conj (vec_at_size _ _ _ Hhand) eq_refl)). simpl.
    by rewrite Hd0. }
  destruct (ApplyMove_from_effect s _ _ _ Hlegal Heffect)
    as (s' & Happly & _ & Hk' & Hd' & Hh' & Hm' & Hi' & Hl' & Hf' & _).
  { simpl. unfold size. rewrite length_insert. unfold size in Hcur. lia. }
  exists s'. simpl in *.
  split; [done|]. split; [done|]. split; [done|].
  split; [done|]. split; [done|]. split; [congruence|].
  split; [congruence|]. split; [congruence|]. split; [congruence|].
  eexists. split; [by rewrite Hm', Hm0|]. done.
Qed.

Lemma small_hinted_move :
  ApplyMove small_dealt (HanabiMove.RevealColor 1 1) = Ok small_hinted.
Proof. vm_compute. reflexivity. Qed.

Lemma small_hinted_reachable : reachable small_game small_hinted.
Proof.
  eapply reachable_apply; [exact small_dealt_reachable | exact small_hinted_move].
Qed.

Lemma small_hinted_wf : state_wf small_hinted ∧ hands_sized small_hinted.
Proof.
  pose proof (reachable_play_inv _ _ small_game_wf small_hinted_reachable)
    as Hinv.
  split; [apply Hinv | by apply play_inv_hands_sized].
Qed.

Lemma Discard_effect_witness :
  hands_sized small_hinted ∧ is_int 0 ∧
  MoveIsLegal small_hinted (HanabiMove.Discard 0) = Ok true ∧
  ∃ s', ApplyMove small_hinted (HanabiMove.Discard 0) = Ok s' ∧
        discard_pile_ s' = [HanabiCard.mk 1 0] ∧
        information_tokens_ small_hinted = 1 ∧ information_tokens_ s' = 2.
Proof.
  assert (is_int 0) as Hint by (vm_compute; intuition discriminate).
  assert (MoveIsLegal small_hinted (HanabiMove.Discard 0) = Ok true) as Hlegal
    by (vm_compute; reflexivity).
  split; [exact (proj2 small_hinted_wf)|]. split; [exact Hint|].
  split; [exact Hlegal|].
  destruct (Discard_effect small_hinted 0 (proj2 small_hinted_wf) Hint Hlegal)
    as (hand & card & s' & Hhand & Hcard & Happly & _ & Hpile & Hinfo & _).
  exists s'. split; [exact Happly|].
  vm_compute in Hhand. injection Hhand as <-.
  vm_compute in Hcard. injection Hcard as <-.
  split; [exact Hpile|]. split; [reflexivity | exact Hinfo].
Defined.

(** ** Hints *)

Lemma testbit_uint8_lor (mask : Z) (i : nat) (k : Z) :
  0 ≤ mask < 2 ^ 8 → (i < 8)%nat → 0 ≤ k →
  Z.testbit (to_uint8 (Z.lor mask (Z.shiftl 1 (Z.of_nat i)))) k
  = Z.testbit mask k || (Z.of_nat i =? k).
Proof.
  intros Hmask Hi Hk. unfold to_uint8.
  destruct (Z.ltb_spec k 8) as [Hlow|Hhigh].
  - rewrite Z.mod_pow2_bits_low by lia.
    rewrite Z.lor_spec, Z.shiftl_1_l, Z.pow2_bits_eqb by lia. done.
  - rewrite Z.mod_pow2_bits_high by lia.
    rewrite <- (Z.mod_small mask (2 ^ 8)) by lia.
    rewrite Z.mod_pow2_bits_high by lia.
    symmetry. apply Z.eqb_neq. lia.
Qed.

Lemma bitmask_from_bits (matches : list bool) : ∀ (i : nat) (mask k : Z),
  (i + length matches ≤ 8)%nat → 0 ≤ mask < 2 ^ 8 → 0 ≤ k →
  0 ≤ bitmask_from i matches mask < 2 ^ 8 ∧
  Z.testbit (bitmask_from i matches mask) k
  = Z.testbit mask k
    || (if decide (Z.of_nat i ≤ k)
        then default false (matches !! (Z.to_nat k - i)%nat) else false).
Proof.
  induction matches as [|m rest IH]; intros i mask k Hlen Hmask Hk; simpl.
  - split; [done|]. case_decide; by rewrite orb_false_r.
  - simpl in Hlen.
    set (mask' := if m then to_uint8 (Z.lor mask (Z.shiftl 1 (Z.of_nat i)))
                  else mask).
    assert (0 ≤ mask' < 2 ^ 8) as Hmask'.
    { unfold mask'. destruct m; [|done]. apply Z.mod_pos_bound. lia. }
    assert (Z.testbit mask' k
            = Z.testbit mask k || (m && (Z.of_nat i =? k))) as Hbit.
    { unfold mask'. destruct m; simpl.
      - apply testbit_uint8_lor; (done || lia).
      - by rewrite orb_false_r. }
    destruct (IH (S i) mask' k ltac:(lia) Hmask' Hk) as [Hrange ->].
    split; [done|]. rewrite Hbit.
    destruct (Z.eqb_spec (Z.of_nat i) k) as [<-|Hne].
    + rewrite decide_False by lia. rewrite decide_True by lia.
      rewrite Nat2Z.id, Nat.sub_diag. simpl.
      by rewrite andb_true_r, orb_false_r.
    + rewrite andb_false_r, orb_false_r.
      destruct (decide (Z.of_nat i ≤ k)) as [Hle|Hgt].
      * rewrite decide_True by lia.
        replace (Z.to_nat k - i)%nat with (S (Z.to_nat k - S i)) by lia.
        done.
      * by rewrite decide_False by lia.
Qed.

(** X11.  The bitmask of the matching positions: for a hand of at most eight
    cards the two bitmask functions return a value that fits [uint8_t]
    whose bit [k] is set exactly when the hand has a card at index [k] of
    the given color (rank); for a hand of more than eight cards their
    assertion fails. *)
Theorem HandBitmask_bits hand v :
  if decide (size (HanabiHand.Cards hand) ≤ 8) then
    ∃ color_mask rank_mask,
      HandColorBitmask hand v = Ok color_mask ∧
      HandRankBitmask hand v = Ok rank_mask ∧
      0 ≤ color_mask < 2 ^ 8 ∧ 0 ≤ rank_mask < 2 ^ 8 ∧
      ∀ k, 0 ≤ k →
        Z.testbit color_mask k
        = match HanabiHand.Cards hand !! Z.to_nat k with
          | Some card => HanabiCard.Color card =? v
          | None => false
          end ∧
        Z.testbit rank_mask k
        = match HanabiHand.Cards hand !! Z.to_nat k with
          | Some card => HanabiCard.Rank card =? v
          | None => false
          end
  else
    HandColorBitmask hand v = Fault AssertFailed ∧
    HandRankBitmask hand v = Fault AssertFailed.
Proof.
  unfold HandColorBitmask, HandRankBitmask.
  case_decide as Hsize.
  - destruct (Z.leb_spec (size (HanabiHand.Cards hand)) 8); [simpl|lia].
    eexists _, _. split; [done|]. split; [done|].
    assert (∀ f : HanabiCard.t → bool,
              (0 + length (f <$> HanabiHand.Cards hand) ≤ 8)%nat) as Hlen.
    { intros f. rewrite length_fmap. unfold size in Hsize. lia. }
    split; [|split].
    + apply (bitmask_from_bits _ 0 0 0); (done || lia).
    + apply (bitmask_from_bits _ 0 0 0); (done || lia).
    + intros k Hk. split.
      * rewrite (proj2 (bitmask_from_bits _ 0 0 k (Hlen _) ltac:(lia) Hk)).
        rewrite Z.bits_0, decide_True by (simpl; lia). simpl.
        rewrite Nat.sub_0_r, list_lookup_fmap. by destruct (_ !! _).
      * rewrite (proj2 (bitmask_from_bits _ 0 0 k (Hlen _) ltac:(lia) Hk)).
        rewrite Z.bits_0, decide_True by (simpl; lia). simpl.
        rewrite Nat.sub_0_r, list_lookup_fmap. by destruct (_ !! _).
  - by destruct (Z.leb_spec (size (HanabiHand.Cards hand)) 8); [lia|].
Qed.

Lemma apply_effect_hint s m h idx hand :
  HanabiMove.MoveType m = HanabiMove.kRevealColor
  ∨ HanabiMove.MoveType m = HanabiMove.kRevealRank →
  0 < information_tokens_ s →
  HandByOffset s (HanabiMove.TargetOffset m) = Ok (idx, hand) →
  apply_effect s m h
  = mask ← hint_bitmask hand m;
    Ok (set_hands (set_information_tokens s (information_tokens_ s - 1))
          (<[Z.to_nat idx := (hinted_hand hand m).1]> (hands_ s)),
        mkHistory (move h) (player h) (scored h) (information_token h)
          (color h) (rank h) mask (hinted_hand hand m).2 (deal_to_player h)).
Proof.
  intros Hhint Hinfo Hhand.
  pose proof (HandByOffset_hand _ _ _ _ Hhand) as Hat.
  pose proof (proj2 (vec_set_Ok (hands_ s) _ idx (hinted_hand hand m).1)
                (conj (vec_at_size _ _ _ Hat) eq_refl)) as Hset.
  unfold apply_effect, hint_bitmask, hinted_hand in *.
  unfold DecrementInformationTokens.
  destruct (Z.ltb_spec 0 (information_tokens_ s)); [|lia].
  destruct Hhint as [E|E]; rewrite E in *; simpl;
    change (HandByOffset (set_information_tokens s (information_tokens_ s - 1))
              (HanabiMove.TargetOffset m))
      with (HandByOffset s (HanabiMove.TargetOffset m));
    rewrite Hhand; simpl.
  - destruct (HandColorBitmask hand (HanabiMove.Color m)); [simpl|done].
    destruct (HanabiHand.RevealColor hand (HanabiMove.Color m)) eqn:Hr.
    simpl in *. by rewrite Hset.
  - destruct (HandRankBitmask hand (HanabiMove.Rank m)); [simpl|done].
    destruct (HanabiHand.RevealRank hand (HanabiMove.Rank m)) eqn:Hr.
    simpl in *. by rewrite Hset.
Qed.

Lemma hint_bitmask_defined hand m :
  (∃ mask, hint_bitmask hand m = Ok mask) ↔ size (HanabiHand.Cards hand) ≤ 8.
Proof.
  unfold hint_bitmask, HandColorBitmask, HandRankBitmask.
  destruct (Z.leb_spec (size (HanabiHand.Cards hand)) 8); simpl;
    (split; [intros [mask Hmask]|intros Hle]);
    try lia; try (destruct (HanabiMove.MoveType m); by eexists);
    destruct (HanabiMove.MoveType m); discriminate.
Qed.

Lemma hinted_hand_cards hand m :
  HanabiHand.Cards (hinted_hand hand m).1 = HanabiHand.Cards hand.
Proof.
  unfold hinted_hand.
  destruct (HanabiMove.MoveType m);
    (apply reveal_color_cards || apply reveal_rank_cards).
Qed.

Lemma legal_hint_target s m :
  state_wf s →
  HanabiMove.MoveType m = HanabiMove.kRevealColor
  ∨ HanabiMove.MoveType m = HanabiMove.kRevealRank →
  MoveIsLegal s m = Ok true →
  0 < information_tokens_ s ∧
  ∃ hand,
    target_hand s (HanabiMove.TargetOffset m) = Some hand ∧
    HandByOffset s (HanabiMove.TargetOffset m)
    = Ok ((cur_player_ s + HanabiMove.TargetOffset m)
          mod HanabiGame.NumPlayers (ParentGame s), hand).
Proof.
  intros Hwf Hhint. unfold MoveIsLegal.
  assert (HintingIsLegal s m = true →
          0 < information_tokens_ s ∧
          ∃ hand,
            target_hand s (HanabiMove.TargetOffset m) = Some hand ∧
            HandByOffset s (HanabiMove.TargetOffset m)
            = Ok ((cur_player_ s + HanabiMove.TargetOffset m)
                  mod HanabiGame.NumPlayers (ParentGame s), hand)) as Hyes.
  { intros [Hinfo Hoffset]%HintingIsLegal_true. split; [done|].
    by apply HandByOffset_Ok. }
  destruct Hhint as [E|E]; rewrite E;
    destruct (HintingIsLegal s m); try discriminate; intros _; by apply Hyes.
Qed.

(** X12.  A legal hint (RevealColor or RevealRank) spends exactly one
    information token and changes nothing but the knowledge held with the
    target hand: the cards of every hand, the discard pile, the fireworks,
    the life tokens and the supply stay as they are.  The history records
    the bitmask of the matching positions of the target hand and the
    bitmask the hand returns.  The application returns exactly when the
    target hand holds at most eight cards. *)
Theorem hint_effect s m
    (Hwf : state_wf s)
    (Hhint : HanabiMove.MoveType m = HanabiMove.kRevealColor
             ∨ HanabiMove.MoveType m = HanabiMove.kRevealRank)
    (Hlegal : MoveIsLegal s m = Ok true) :
  ∃ hand,
    target_hand s (HanabiMove.TargetOffset m) = Some hand ∧
    ((∃ s', ApplyMove s m = Ok s') ↔ size (HanabiHand.Cards hand) ≤ 8) ∧
    ∀ s', ApplyMove s m = Ok s' →
      information_tokens_ s' = information_tokens_ s - 1 ∧
      hands_ s'
      = <[target_index s (HanabiMove.TargetOffset m)
          := (hinted_hand hand m).1]> (hands_ s) ∧
      HanabiHand.Cards <$> hands_ s' = HanabiHand.Cards <$> hands_ s ∧
      discard_pile_ s' = discard_pile_ s ∧
      fireworks_ s' = fireworks_ s ∧
      life_tokens_ s' = life_tokens_ s ∧
      deck_ s' = deck_ s ∧
      ∃ h, move_history_ s' = move_history_ s ++ [h] ∧
           hint_bitmask hand m = Ok (reveal_bitmask h) ∧
           newly_revealed_bitmask h = (hinted_hand hand m).2.
Proof.
  destruct (legal_hint_target s m Hwf Hhint Hlegal)
    as (Hinfo & hand & Htarget & Hhand).
  exists hand. split; [done|].
  pose proof (before_effect_fields s)
    as (Hh0 & Hc0 & Hf0 & Hg0 & Hl0 & Hi0 & Hd0 & Hk0 & Hm0 & _).
  set (h0 := mkHistory m (cur_player_ (before_effect s))
               false false (-1) (-1) 0 0 (-1)).
  assert (HandByOffset (before_effect s) (HanabiMove.TargetOffset m)
          = HandByOffset s (HanabiMove.TargetOffset m)) as Hsame
    by (unfold HandByOffset; by rewrite Hh0, Hc0).
  pose proof (apply_effect_hint (before_effect s) m h0 _ hand Hhint
                ltac:(by rewrite Hi0) ltac:(by rewrite Hsame)) as Heffect.
  rewrite Hh0, Hi0 in Heffect.
  pose proof (wf_hands _ Hwf) as Hsize.
  pose proof (game_players _ (wf_game _ Hwf)) as Hplayers.
  split.
  - rewrite <- (hint_bitmask_defined hand m). split.
    + intros [s' (_ & s1 & h1 & Heffect' & _)%ApplyMove_Ok].
      fold h0 in Heffect'. rewrite Heffect in Heffect'.
      destruct (hint_bitmask hand m); [by eexists | discriminate].
    + intros [mask Hmask]. rewrite Hmask in Heffect. simpl in Heffect.
      destruct (ApplyMove_from_effect s m _ _ Hlegal Heffect) as (s' & Hs' & _).
      { simpl. unfold size in *. rewrite length_insert. lia. }
      by exists s'.
  - intros s' (_ & s1 & h1 & Heffect' & Hadvance)%ApplyMove_Ok.
    fold h0 in Heffect'. rewrite Heffect in Heffect'.
    destruct (hint_bitmask hand m) as [mask|]; [|discriminate].
    simpl in Heffect'. injection Heffect' as <- <-.
    apply AdvanceToNextPlayer_frame in Hadvance
      as (_ & Hk' & Hd' & Hh' & Hm' & Hi' & Hl' & Hf' & _).
    simpl in *.
    split; [done|]. split; [done|]. split.
    { rewrite Hh', list_fmap_insert, hinted_hand_cards.
      apply list_insert_id. rewrite list_lookup_fmap.
      unfold target_hand in Htarget. by rewrite Htarget. }
    split; [congruence|]. split; [congruence|]. split; [congruence|].
    split; [congruence|].
    eexists. split; [by rewrite Hm', Hm0|]. done.
Qed.

Lemma hint_effect_witness :
  state_wf small_dealt ∧
  MoveIsLegal small_dealt (HanabiMove.RevealColor 1 1) = Ok true ∧
  ApplyMove small_dealt (HanabiMove.RevealColor 1 1) = Ok small_hinted ∧
  information_tokens_ small_dealt = 2 ∧
  information_tokens_ small_hinted = 1 ∧
  ∃ h, move_history_ small_hinted = move_history_ small_dealt ++ [h] ∧
       reveal_bitmask h = 3.
Proof.
  assert (MoveIsLegal small_dealt (HanabiMove.RevealColor 1 1) = Ok true)
    as Hlegal by (vm_compute; reflexivity).
  split; [exact (proj1 small_dealt_wf)|]. split; [exact Hlegal|].
  split; [exact small_hinted_move|]. split; [reflexivity|].
  destruct (hint_effect small_dealt (HanabiMove.RevealColor 1 1)
              (proj1 small_dealt_wf) (or_introl eq_refl) Hlegal)
    as (hand & Htarget & _ & Heffect).
  destruct (Heffect small_hinted small_hinted_move)
    as (Hinfo & _ & _ & _ & _ & _ & _ & h & Hh & Hmask & _).
  split; [exact Hinfo|]. exists h. split; [exact Hh|].
  vm_compute in Htarget. injection Htarget as <-.
  vm_compute in Hmask. injection Hmask as Hmask. symmetry. exact Hmask.
Defined.

(** ** Dealing a card *)

Lemma legal_deal s c r :
  deck_wf (ParentGame s) (deck_ s) → in_range (ParentGame s) c r →
  MoveIsLegal s (HanabiMove.Deal c r) = Ok true →
  cur_player_ s = kChancePlayerId ∧
  ∃ n, HanabiDeck.CardCount (deck_ s) c r = Ok n ∧ 0 < n.
Proof.
  intros Hdeck Hcr Hlegal.
  destruct (legal_deal_count s (HanabiMove.Deal c r) eq_refl Hlegal)
    as (n & Hn & Hne).
  simpl in Hn.
  destruct (CardCount_defined _ _ c r Hdeck Hcr) as (n' & Hn' & Hpos).
  assert (n' = n) as -> by congruence.
  split; [|exists n; split; [done|lia]].
  revert Hlegal. unfold MoveIsLegal. simpl.
  destruct (Z.eqb_spec (cur_player_ s) kChancePlayerId); [done|discriminate].
Qed.

Lemma PlayerToDeal_range s :
  0 ≤ HanabiGame.HandSize (ParentGame s) < 2 ^ 64 →
  PlayerToDeal s = -1 ∨ 0 ≤ PlayerToDeal s < size (hands_ s).
Proof.
  intros Hsize. unfold PlayerToDeal.
  destruct (PlayerToDeal_from_least (hands_ s) _ Hsize 0)
    as [[-> _]|(k & hand & -> & Hk & _)]; [by left|right].
  apply lookup_lt_Some in Hk. unfold size. lia.
Qed.

(** X13.  A legal Deal of an identity of the game is made by the chance
    actor and returns exactly when some hand is below the full hand size;
    the card goes to the end of the hand of the first such player, the
    supply loses one card of the identity, and tokens, fireworks and
    discard pile are unchanged.  With every hand full the application reads
    outside the vector of hands. *)
Theorem Deal_effect s c r
    (Hwf : state_wf s) (Hcr : in_range (ParentGame s) c r)
    (Hlegal : MoveIsLegal s (HanabiMove.Deal c r) = Ok true) :
  cur_player_ s = kChancePlayerId ∧
  ((∃ s', ApplyMove s (HanabiMove.Deal c r) = Ok s') ↔ 0 ≤ PlayerToDeal s) ∧
  (PlayerToDeal s < 0 →
   ApplyMove s (HanabiMove.Deal c r) = Fault OutOfBounds) ∧
  ∀ s', ApplyMove s (HanabiMove.Deal c r) = Ok s' →
    ∃ hand hand',
      vec_at (hands_ s) (PlayerToDeal s) = Ok hand ∧
      size (HanabiHand.Cards hand) < HanabiGame.HandSize (ParentGame s) ∧
      hands_ s' = <[Z.to_nat (PlayerToDeal s) := hand']> (hands_ s) ∧
      HanabiHand.Cards hand' = HanabiHand.Cards hand ++ [HanabiCard.mk c r] ∧
      drawn_from (ParentGame s) (deck_ s) (deck_ s') c r ∧
      information_tokens_ s' = information_tokens_ s ∧
      life_tokens_ s' = life_tokens_ s ∧
      fireworks_ s' = fireworks_ s ∧
      discard_pile_ s' = discard_pile_ s ∧
      ∃ h, move_history_ s' = move_history_ s ++ [h] ∧
           deal_to_player h = PlayerToDeal s.
Proof.
  pose proof (wf_deck _ Hwf) as Hdeck.
  pose proof (wf_game _ Hwf) as Hgame.
  destruct (legal_deal s c r Hdeck Hcr Hlegal) as (Hcur & n & Hn & Hpos).
  split; [done|].
  pose proof (before_effect_fields s)
    as (Hh0 & Hc0 & Hf0 & Hg0 & Hl0 & Hi0 & Hd0 & Hk0 & Hm0 & _).
  set (h0 := mkHistory (HanabiMove.Deal c r) (cur_player_ (before_effect s))
               false false (-1) (-1) 0 0 (-1)).
  assert (PlayerToDeal (before_effect s) = PlayerToDeal s) as Hp0
    by (unfold PlayerToDeal, ParentGame; by rewrite Hh0, Hg0).
  set (d' := deck_with (deck_ s) (c * HanabiGame.NumRanks (ParentGame s) + r)
               n (n - 1)).
  assert (∃ knowledge,
            apply_effect (before_effect s) (HanabiMove.Deal c r) h0
            = hand ← vec_at (hands_ s) (PlayerToDeal s);
              hands ← vec_set (hands_ s) (PlayerToDeal s)
                (HanabiHand.AddCard hand (HanabiCard.mk c r) knowledge);
              Ok (set_hands (set_deck (before_effect s) d') hands,
                  mkHistory (HanabiMove.Deal c r)
                    (cur_player_ (before_effect s)) false false (-1) (-1) 0 0
                    (PlayerToDeal s)))
    as [knowledge Heffect].
  { eexists. unfold apply_effect. simpl. rewrite Hp0, Hk0, Hh0.
    rewrite (DealCard_positive _ _ _ _ n Hdeck Hcr Hn Hpos). simpl.
    reflexivity. }
  pose proof (game_hand_size _ Hgame) as Hhs.
  destruct (PlayerToDeal_range s ltac:(lia)) as [Hnone|Hsome].
  - (* every hand is full *)
    rewrite Hnone in *. simpl in Heffect.
    assert (ApplyMove s (HanabiMove.Deal c r) = Fault OutOfBounds) as Hfault.
    { unfold ApplyMove. rewrite Hlegal.
      cbn [mbind result_bind REQUIRE]. fold (before_effect s). fold h0.
      by rewrite Heffect. }
    rewrite Hfault.
    split; [split; [intros [s' ?]; discriminate | lia]|].
    split; [done|]. intros s' ?. discriminate.
  - destruct (vec_at_in_range _ _ Hsome) as [hand Hhand].
    rewrite Hhand in Heffect. simpl in Heffect.
    rewrite (proj2 (vec_set_Ok (hands_ s) _ (PlayerToDeal s) _)
               (conj Hsome eq_refl)) in Heffect. simpl in Heffect.
    destruct (ApplyMove_from_effect s _ _ _ Hlegal Heffect)
      as (s' & Happly & _ & Hk' & Hd' & Hh' & Hm' & Hi' & Hl' & Hf' & _).
    { simpl. unfold size in *. rewrite length_insert. lia. }
    split; [split; [lia | by exists s']|]. split; [lia|].
    intros s'' Happly'. rewrite Happly in Happly'. injection Happly' as <-.
    simpl in *. exists hand, (HanabiHand.AddCard hand (HanabiCard.mk c r) knowledge).
    split; [done|].
    split; [by apply PlayerToDeal_hand|].
    split; [done|]. split; [done|].
    split; [rewrite Hk'; by apply deck_with_drawn|].
    split; [congruence|]. split; [congruence|]. split; [congruence|].
    split; [congruence|].
    eexists. split; [by rewrite Hm', Hm0|]. done.
Qed.

Lemma Deal_effect_witness :
  state_wf small_start ∧ in_range (ParentGame small_start) 1 0 ∧
  MoveIsLegal small_start (HanabiMove.Deal 1 0) = Ok true ∧
  PlayerToDeal small_start = 0 ∧
  ∃ s', ApplyMove small_start (HanabiMove.Deal 1 0) = Ok s' ∧
        HanabiDeck.Size (deck_ s') = 3 ∧
        (HanabiHand.Cards <$> hands_ s') = [[HanabiCard.mk 1 0]; []].
Proof.
  assert (in_range (ParentGame small_start) 1 0) as Hcr
    by (vm_compute; intuition discriminate).
  assert (MoveIsLegal small_start (HanabiMove.Deal 1 0) = Ok true) as Hlegal
    by (vm_compute; reflexivity).
  split; [exact small_start_wf|]. split; [exact Hcr|]. split; [exact Hlegal|].
  split; [reflexivity|].
  destruct (Deal_effect small_start 1 0 small_start_wf Hcr Hlegal)
    as (_ & [_ Hreturns] & _ & Heffect).
  destruct (Hreturns ltac:(vm_compute; discriminate)) as [s' Happly].
  exists s'. split; [exact Happly|].
  destruct (Heffect s' Happly)
    as (hand & hand' & Hhand & _ & Hhands & Hcards & (_ & _ & Hsize & _) & _).
  split; [exact Hsize|].
  vm_compute in Hhand. injection Hhand as <-.
  rewrite Hhands. destruct hand' as [cards ks]. simpl in Hcards. subst cards.
  reflexivity.
Defined.

(** ** Enumerating the legal moves *)

Lemma legal_moves_loop s (get : Z → HanabiMove.t) uids : ∀ acc,
  (∀ uid, uid ∈ uids → ∃ b, MoveIsLegal s (get uid) = Ok b) →
  for_each
    (λ movelist uid,
       let m := get uid in
       legal ← MoveIsLegal s m;
       if legal : bool then Ok (movelist ++ [m]) else Ok movelist)
    acc uids
  = Ok (acc ++ filter (λ m, MoveIsLegal s m = Ok true) (get <$> uids)).
Proof.
  induction uids as [|uid uids IH]; intros acc Hdef.
  - simpl. by rewrite app_nil_r.
  - cbn [for_each]. rewrite fmap_cons.
    destruct (Hdef uid ltac:(left)) as [b Hb]. cbn zeta. rewrite Hb, bind_ret.
    destruct b; rewrite bind_ret;
      rewrite IH by (intros uid' Hin; apply Hdef; by right).
    + rewrite filter_cons_True by done. by rewrite <- app_assoc.
    + rewrite filter_cons_False; [done|]. by rewrite Hb.
Qed.

Lemma MoveIsLegal_of_player s m :
  state_wf s → cur_player_ s ≠ kChancePlayerId →
  ∃ b, MoveIsLegal s m = Ok b ∧
       (HanabiMove.MoveType m = HanabiMove.kDeal → b = false).
Proof.
  intros Hwf Hcur.
  destruct (decide (HanabiMove.MoveType m = HanabiMove.kDeal)) as [E|E].
  - exists false. split; [|done]. unfold MoveIsLegal. rewrite E.
    by destruct (Z.eqb_spec (cur_player_ s) kChancePlayerId).
  - destruct (MoveIsLegal_defined s m Hwf) as [b Hb]; [|by exists b].
    unfold legality_defined. by destruct (HanabiMove.MoveType m).
Qed.

(** X14.  [LegalMoves] requires a player index: for the chance actor or any
    other index outside the players its REQUIRE fails.  For a player who is
    not the current actor it returns the empty list.  For the current player
    it returns the moves of the catalog that [MoveIsLegal] accepts, in
    catalog order; none of them is a Deal. *)
Theorem LegalMoves_spec
    (MaxMoves : HanabiGame.t → Z) (GetMove : HanabiGame.t → Z → HanabiMove.t)
    s player (Hwf : state_wf s) :
  LegalMoves MaxMoves GetMove s player
  = (if decide (0 ≤ player < HanabiGame.NumPlayers (ParentGame s)) then
       if decide (player = cur_player_ s)
       then Ok (legal_in_catalog MaxMoves GetMove s)
       else Ok []
     else Fault RequireFailed)
  ∧ ∀ moves, LegalMoves MaxMoves GetMove s player = Ok moves →
      Forall (λ m, MoveIsLegal s m = Ok true
                   ∧ HanabiMove.MoveType m ≠ HanabiMove.kDeal) moves.
Proof.
  assert (LegalMoves MaxMoves GetMove s player
          = (if decide (0 ≤ player < HanabiGame.NumPlayers (ParentGame s)) then
               if decide (player = cur_player_ s)
               then Ok (legal_in_catalog MaxMoves GetMove s)
               else Ok []
             else Fault RequireFailed)) as Heq.
  { unfold LegalMoves.
    destruct (Z.leb_spec 0 player), (Z.ltb_spec player
      (HanabiGame.NumPlayers (ParentGame s))); simpl;
      case_decide; try lia; try done.
    destruct (Z.eqb_spec player (cur_player_ s)) as [->|Hne]; simpl;
      case_decide; try done.
    rewrite (legal_moves_loop s (GetMove (ParentGame s))); [done|].
    intros uid _.
    destruct (MoveIsLegal_of_player s (GetMove (ParentGame s) uid) Hwf)
      as (b & Hb & _); [unfold kChancePlayerId; lia | by exists b]. }
  split; [done|]. rewrite Heq. intros moves Hmoves.
  repeat case_decide; try discriminate.
  - injection Hmoves as <-. apply Forall_forall.
    intros m [Hlegal _]%list_elem_of_filter. split; [done|]. intros Hdeal.
    destruct (MoveIsLegal_of_player s m Hwf) as (b & Hb & Hfalse);
      [unfold kChancePlayerId; lia|].
    rewrite (Hfalse Hdeal) in Hb. congruence.
  - injection Hmoves as <-. apply Forall_nil_2.
Qed.

Lemma LegalMoves_spec_witness :
  state_wf small_dealt ∧
  LegalMoves small_MaxMoves small_GetMove small_dealt 0
  = Ok [HanabiMove.Play 0; HanabiMove.Play 1; HanabiMove.RevealColor 1 1;
        HanabiMove.RevealRank 1 0; HanabiMove.RevealRank 1 1] ∧
  LegalMoves small_MaxMoves small_GetMove small_dealt 1 = Ok [] ∧
  LegalMoves small_MaxMoves small_GetMove small_dealt (-1)
  = Fault RequireFailed.
Proof.
  split; [exact (proj1 small_dealt_wf)|].
  split; [|split].
  - rewrite (proj1 (LegalMoves_spec small_MaxMoves small_GetMove small_dealt 0
                      (proj1 small_dealt_wf))).
    vm_compute. reflexivity.
  - vm_compute. reflexivity.
  - vm_compute. reflexivity.
Defined.

(** ** Chance outcomes away from a deal *)

Lemma chance_outcomes_loop_none s uids : ∀ rv,
  (∀ uid, uid ∈ uids →
     MoveIsLegal s (HanabiGame.GetChanceOutcome (ParentGame s) uid) = Ok false) →
  for_each
    (λ rv uid,
       let m := HanabiGame.GetChanceOutcome (ParentGame s) uid in
       legal ← MoveIsLegal s m;
       if legal : bool then
         p ← ChanceOutcomeProb s m;
         Ok (rv.1 ++ [m], rv.2 ++ [p])
       else Ok rv)
    rv uids
  = Ok rv.
Proof.
  induction uids as [|uid uids IH]; intros rv Hnone; [done|].
  cbn [for_each]. cbn zeta. rewrite (Hnone uid ltac:(left)), !bind_ret.
  apply IH. intros uid' Hin. apply Hnone. by right.
Qed.

Lemma catalog_deals s m :
  catalog_complete (ParentGame s) → m ∈ chance_catalog (ParentGame s) →
  m ∈ all_deals (ParentGame s) ∧
  HanabiMove.MoveType m = HanabiMove.kDeal.
Proof.
  unfold catalog_complete. intros Hcatalog Hm. rewrite Hcatalog in Hm.
  split; [done|]. unfold all_deals in Hm.
  by apply list_elem_of_fmap in Hm as (i & -> & _).
Qed.

Lemma sumZ_positive (v : list Z) : 0 < sumZ v → ∃ x, x ∈ v ∧ 0 < x.
Proof.
  induction v as [|x v IH]; simpl; [lia|]. intros Hsum.
  destruct (Z.ltb_spec 0 x).
  - exists x. split; [left | done].
  - destruct IH as (y & Hy & Hpos); [lia|]. exists y. split; [by right | done].
Qed.

Lemma supplied_outcomes_nonempty s :
  state_wf s → catalog_complete (ParentGame s) →
  HanabiDeck.Empty (deck_ s) = false → supplied_outcomes s ≠ [].
Proof.
  intros Hwf Hcatalog Hempty.
  pose proof (wf_deck _ Hwf) as Hdeck.
  pose proof (game_colors _ (wf_game _ Hwf)) as Hnc.
  pose proof (remaining_all_deals s Hdeck Hnc) as Hsum.
  pose proof (deck_wf_size_nonneg _ _ Hdeck) as Hsize.
  apply Z.eqb_neq in Hempty. unfold HanabiDeck.Size in *.
  destruct (sumZ_positive (remaining s <$> all_deals (ParentGame s)))
    as (x & Hx & Hpos); [lia|].
  apply list_elem_of_fmap in Hx as (m & -> & Hm).
  assert (m ∈ supplied_outcomes s) as Hin.
  { unfold supplied_outcomes. apply list_elem_of_filter. split.
    - unfold has_supply. by apply Z.ltb_lt.
    - unfold catalog_complete in Hcatalog. by rewrite Hcatalog. }
  intros E. rewrite E in Hin. by apply not_elem_of_nil in Hin.
Qed.

Lemma supplied_outcomes_empty_deck s :
  state_wf s → catalog_complete (ParentGame s) →
  HanabiDeck.Empty (deck_ s) = true →
  ∀ m, m ∈ chance_catalog (ParentGame s) → has_supply s m = false.
Proof.
  intros Hwf Hcatalog Hempty m Hm.
  pose proof (wf_deck _ Hwf) as Hdeck.
  pose proof (game_colors _ (wf_game _ Hwf)) as Hnc.
  destruct (catalog_deals s m Hcatalog Hm) as [Hdeal _].
  unfold all_deals in Hdeal.
  apply list_elem_of_fmap in Hdeal as (i & -> & Hi%upto_elem).
  destruct (index_decode _ _ i Hi Hnc) as (Hq & Hr & _).
  destruct (CardCount_defined (ParentGame s) (deck_ s) _ _ Hdeck
              (conj Hq Hr)) as (n & Hn & Hpos).
  unfold has_supply, remaining. simpl. rewrite Hn. simpl.
  apply (CardCount_Ok _ _ _ _ _ Hdeck), vec_at_Ok in Hn as [_ Hn].
  pose proof (sumZ_lookup_le _ _ _ (deck_wf_nonneg _ _ Hdeck) Hn) as Hle.
  rewrite <- (deck_wf_total _ _ Hdeck) in Hle.
  apply Z.eqb_eq in Hempty. apply Z.ltb_ge. lia.
Qed.

Lemma ChanceOutcomes_eq s :
  state_wf s → catalog_complete (ParentGame s) →
  ChanceOutcomes s
  = if decide (cur_player_ s = kChancePlayerId
               ∧ HanabiDeck.Empty (deck_ s) = false)
    then Ok (supplied_outcomes s, double_probability s <$> supplied_outcomes s)
    else Ok ([], []).
Proof.
  intros Hwf Hcatalog.
  pose proof (wf_deck _ Hwf) as Hdeck.
  pose proof (game_colors _ (wf_game _ Hwf)) as Hnc.
  assert (∀ uid, uid ∈ upto (HanabiGame.MaxChanceOutcomes (ParentGame s)) →
            HanabiGame.GetChanceOutcome (ParentGame s) uid
            ∈ chance_catalog (ParentGame s)) as Hin
    by (intros uid Huid; unfold chance_catalog; by apply list_elem_of_fmap_2).
  unfold ChanceOutcomes. case_decide as Hdue.
  - destruct Hdue as [Hcur Hempty].
    rewrite (ChanceOutcomes_loop s _ [] []); [done|].
    intros uid Huid m. apply MoveIsLegal_deal; try done.
    apply (proj1 (catalog_deals s _ Hcatalog (Hin uid Huid))).
  - apply chance_outcomes_loop_none. intros uid Huid.
    destruct (catalog_deals s _ Hcatalog (Hin uid Huid)) as [Hdeal Htype].
    destruct (decide (cur_player_ s = kChancePlayerId)) as [Hcur|Hcur].
    + rewrite (proj1 (MoveIsLegal_deal s _ Hdeck Hnc Hcur Hdeal)).
      f_equal. apply (supplied_outcomes_empty_deck s Hwf Hcatalog);
        [|by apply Hin].
      destruct (HanabiDeck.Empty (deck_ s)); [done|]. by destruct Hdue.
    + unfold MoveIsLegal. rewrite Htype.
      by destruct (Z.eqb_spec (cur_player_ s) kChancePlayerId).
Qed.

(** X15.  Away from a deal there are no chance outcomes: [ChanceOutcomes]
    returns two empty lists exactly when the current actor is a player or
    the supply is empty, and otherwise at least one outcome; the two lists
    it returns always have the same length. *)
Theorem ChanceOutcomes_empty s
    (Hwf : state_wf s) (Hcatalog : catalog_complete (ParentGame s)) :
  (ChanceOutcomes s = Ok ([], [])
   ↔ cur_player_ s ≠ kChancePlayerId ∨ HanabiDeck.Empty (deck_ s) = true) ∧
  ∃ moves probabilities,
    ChanceOutcomes s = Ok (moves, probabilities) ∧
    length moves = length probabilities.
Proof.
  rewrite (ChanceOutcomes_eq s Hwf Hcatalog). case_decide as Hdue.
  - destruct Hdue as [Hcur Hempty]. split.
    + split.
      * intros [= E _].
        by apply (supplied_outcomes_nonempty s Hwf Hcatalog Hempty) in E.
      * intros [?|?]; congruence.
    + eexists _, _. split; [done|]. by rewrite length_fmap.
  - split; [|by eexists _, _]. split; [|done]. intros _.
    destruct (decide (cur_player_ s = kChancePlayerId)); [|by left].
    right. destruct (HanabiDeck.Empty (deck_ s)); [done|]. by destruct Hdue.
Qed.

Lemma ChanceOutcomes_empty_witness :
  state_wf small_dealt ∧ catalog_complete (ParentGame small_dealt) ∧
  cur_player_ small_dealt = 0 ∧
  ChanceOutcomes small_dealt = Ok ([], []).
Proof.
  split; [exact (proj1 small_dealt_wf)|].
  split; [exact small_catalog_complete|]. split; [reflexivity|].
  apply (proj1 (ChanceOutcomes_empty small_dealt (proj1 small_dealt_wf)
                  small_catalog_complete)).
  left. vm_compute. discriminate.
Defined.

(** X16.  [ApplyRandomChance] fails its REQUIRE exactly when no deal is due
    to chance (the current actor is a player or the supply is empty);
    otherwise it applies the move that the sampler returns for the
    supplied outcomes and their probabilities, and every one of these
    outcomes is a legal move. *)
Theorem ApplyRandomChance_spec
    (PickRandomChance :
       HanabiGame.t → list HanabiMove.t * list PrimFloat.float → HanabiMove.t)
    s (Hwf : state_wf s) (Hcatalog : catalog_complete (ParentGame s)) :
  ApplyRandomChance PickRandomChance s
  = (if decide (cur_player_ s = kChancePlayerId
                ∧ HanabiDeck.Empty (deck_ s) = false)
     then ApplyMove s
            (PickRandomChance (ParentGame s)
               (supplied_outcomes s,
                double_probability s <$> supplied_outcomes s))
     else Fault RequireFailed)
  ∧ (cur_player_ s = kChancePlayerId →
     Forall (λ m, MoveIsLegal s m = Ok true) (supplied_outcomes s)).
Proof.
  split.
  - unfold ApplyRandomChance. rewrite (ChanceOutcomes_eq s Hwf Hcatalog).
    case_decide as Hdue; [|done]. destruct Hdue as [Hcur Hempty].
    rewrite bind_ret. cbn [snd].
    pose proof (supplied_outcomes_nonempty s Hwf Hcatalog Hempty) as Hne.
    by destruct (supplied_outcomes s).
  - intros Hcur. apply Forall_forall.
    intros m [Hsupply Hm]%list_elem_of_filter.
    destruct (catalog_deals s m Hcatalog Hm) as [Hdeal _].
    rewrite (proj1 (MoveIsLegal_deal s m (wf_deck _ Hwf)
                      (game_colors _ (wf_game _ Hwf)) Hcur Hdeal)).
    by rewrite Hsupply.
Qed.

Lemma ApplyRandomChance_spec_witness :
  state_wf small_start ∧ catalog_complete (ParentGame small_start) ∧
  (∃ s', ApplyRandomChance first_outcome small_start = Ok s' ∧
         (HanabiHand.Cards <$> hands_ s') = [[HanabiCard.mk 0 0]; []]) ∧
  ApplyRandomChance first_outcome small_dealt = Fault RequireFailed.
Proof.
  split; [exact small_start_wf|]. split; [exact small_catalog_complete|].
  split.
  - rewrite (proj1 (ApplyRandomChance_spec first_outcome small_start
                      small_start_wf small_catalog_complete)).
    eexists. split; vm_compute; reflexivity.
  - vm_compute. reflexivity.
Defined.

(** ** Forcing the fireworks and a hand *)

Lemma sumZ_replicate (n : nat) (x : Z) : sumZ (replicate n x) = Z.of_nat n * x.
Proof. induction n as [|n IH]; simpl; [done|]. rewrite IH. lia. Qed.

(** X17.  [SetFireworks] requires a vector of the length of the fireworks
    and fails its REQUIRE on any other.  Forcing every counter to the
    number of ranks while a life token is left makes the game completed,
    with the score at NumColors x NumRanks. *)
Theorem SetFireworks_completed s
    (Hlife : 0 < life_tokens_ s)
    (Hcolors : 0 ≤ HanabiGame.NumColors (ParentGame s))
    (Hsize : size (fireworks_ s) = HanabiGame.NumColors (ParentGame s)) :
  (∀ fireworks, size fireworks ≠ size (fireworks_ s) →
     SetFireworks s fireworks = Fault RequireFailed) ∧
  ∃ s', SetFireworks s
          (replicate (Z.to_nat (HanabiGame.NumColors (ParentGame s)))
             (HanabiGame.NumRanks (ParentGame s)))
        = Ok s' ∧
        EndOfGameStatus s' = kCompletedFireworks ∧
        Score s'
        = HanabiGame.NumColors (ParentGame s) * HanabiGame.NumRanks (ParentGame s).
Proof.
  split.
  - intros fireworks Hne. unfold SetFireworks.
    by destruct (Z.eqb_spec (size fireworks) (size (fireworks_ s))).
  - eexists. unfold SetFireworks.
    destruct (Z.eqb_spec
                (size (replicate
                         (Z.to_nat (HanabiGame.NumColors (ParentGame s)))
                         (HanabiGame.NumRanks (ParentGame s))))
                (size (fireworks_ s))) as [_|Hne].
    + simpl. split; [done|].
      assert (Score (set_fireworks s
                (replicate (Z.to_nat (HanabiGame.NumColors (ParentGame s)))
                   (HanabiGame.NumRanks (ParentGame s))))
              = HanabiGame.NumColors (ParentGame s)
                * HanabiGame.NumRanks (ParentGame s)) as Hscore.
      { unfold Score, LifeTokens. simpl.
        destruct (Z.leb_spec (life_tokens_ s) 0); [lia|].
        rewrite accumulate_sumZ, sumZ_replicate. by rewrite Z2Nat.id. }
      split; [|done]. unfold EndOfGameStatus. rewrite Hscore.
      unfold LifeTokens, ParentGame. simpl.
      destruct (Z.ltb_spec (life_tokens_ s) 1); [lia|].
      by rewrite Z.geb_leb, Z.leb_refl.
    + exfalso. apply Hne. rewrite Hsize. unfold size.
      rewrite length_replicate. lia.
Qed.

Lemma SetFireworks_completed_witness :
  0 < life_tokens_ small_dealt ∧
  ∃ s', SetFireworks small_dealt [2; 2] = Ok s' ∧
        EndOfGameStatus s' = kCompletedFireworks ∧ Score s' = 4.
Proof.
  assert (0 < life_tokens_ small_dealt) as Hlife by (vm_compute; reflexivity).
  split; [exact Hlife|].
  destruct (SetFireworks_completed small_dealt Hlife
              ltac:(vm_compute; discriminate) eq_refl)
    as (_ & s' & Hset & Hstatus & Hscore).
  exists s'. split; [exact Hset|]. split; [exact Hstatus | exact Hscore].
Defined.

Lemma foldl_AddCard cards k : ∀ hand,
  foldl (λ h card, HanabiHand.AddCard h card k) hand cards
  = HanabiHand.mk (HanabiHand.Cards hand ++ cards)
      (HanabiHand.Knowledge hand ++ replicate (length cards) k).
Proof.
  induction cards as [|card cards IH]; intros hand; simpl.
  - rewrite !app_nil_r. by destruct hand.
  - rewrite IH. simpl. by rewrite <- !app_assoc.
Qed.

(** X18.  [SetHand] requires a player index and fails its REQUIRE on any
    other.  For a player it replaces the hand by the given valid cards, in
    order and each with fresh knowledge; the other hands, the supply, the
    discard pile and every counter are left as they are, so the supply is
    not rebalanced for the cards that leave or enter the hand. *)
Theorem SetHand_effect s player_id cards
    (Hint : is_int player_id)
    (Hhands : size (hands_ s) < 2 ^ 63)
    (Hcards : Forall (λ card, HanabiCard.IsValid card = true) cards) :
  SetHand s player_id cards
  = if decide (0 ≤ player_id < size (hands_ s)) then
      Ok (set_hands s
            (<[Z.to_nat player_id :=
                 HanabiHand.mk cards
                   (replicate (length cards) (fresh_knowledge (ParentGame s)))]>
               (hands_ s)))
    else Fault RequireFailed.
Proof.
  unfold SetHand. unfold is_int in Hint.
  destruct (Z.leb_spec 0 player_id); simpl.
  - rewrite to_size_t_small by lia.
    destruct (Z.ltb_spec player_id (size (hands_ s))); simpl;
      case_decide; try lia; [|done].
    destruct (vec_at_in_range (hands_ s) player_id) as [hand Hhand]; [lia|].
    rewrite Hhand. simpl. rewrite foldl_AddCard. simpl.
    unfold fresh_knowledge.
    by rewrite (proj2 (vec_set_Ok (hands_ s) _ player_id _)
                  (conj (vec_at_size _ _ _ Hhand) eq_refl)).
  - case_decide; [lia|done].
Qed.

Lemma SetHand_effect_witness :
  is_int 1 ∧ size (hands_ small_dealt) < 2 ^ 63 ∧
  Forall (λ card, HanabiCard.IsValid card = true)
    [HanabiCard.mk 0 0; HanabiCard.mk 0 0] ∧
  (∃ s', SetHand small_dealt 1 [HanabiCard.mk 0 0; HanabiCard.mk 0 0] = Ok s' ∧
         (HanabiHand.Cards <$> hands_ s')
         = [[HanabiCard.mk 0 0; HanabiCard.mk 0 1];
            [HanabiCard.mk 0 0; HanabiCard.mk 0 0]] ∧
         deck_ s' = deck_ small_dealt) ∧
  SetHand small_dealt 2 [HanabiCard.mk 0 0; HanabiCard.mk 0 0]
  = Fault RequireFailed.
Proof.
  assert (is_int 1) as Hint by (vm_compute; intuition discriminate).
  assert (size (hands_ small_dealt) < 2 ^ 63) as Hhands
    by (vm_compute; reflexivity).
  assert (Forall (λ card, HanabiCard.IsValid card = true)
            [HanabiCard.mk 0 0; HanabiCard.mk 0 0]) as Hcards
    by (repeat constructor).
  split; [exact Hint|]. split; [exact Hhands|]. split; [exact Hcards|].
  split.
  - rewrite (SetHand_effect small_dealt 1 _ Hint Hhands Hcards).
    eexists. split; [vm_compute; reflexivity|]. split; reflexivity.
  - vm_compute. reflexivity.
Defined.

(** ** Forcing a hand slot: refusals, the same card, and the balance of
    cards *)

Lemma in_range_valid game card :
  in_range game (HanabiCard.Color card) (HanabiCard.Rank card) →
  HanabiCard.IsValid card = true.
Proof.
  intros [? ?]. unfold HanabiCard.IsValid.
  apply andb_true_iff. split; apply Z.leb_le; lia.
Qed.

(** The call on a slot that holds an identity of the game, for an identity
    of the game: the supply after the old card went back, the count of the
    requested identity in it, and the state returned. *)
Lemma SetHandCard_eq s player card_index card hand old_card :
  state_wf s →
  0 ≤ player < HanabiGame.NumPlayers (ParentGame s) →
  is_int card_index →
  vec_at (hands_ s) player = Ok hand →
  vec_at (HanabiHand.Cards hand) card_index = Ok old_card →
  in_range (ParentGame s)
    (HanabiCard.Color old_card) (HanabiCard.Rank old_card) →
  in_range (ParentGame s) (HanabiCard.Color card) (HanabiCard.Rank card) →
  ∃ k n,
    HanabiDeck.CardCount (deck_ s)
      (HanabiCard.Color old_card) (HanabiCard.Rank old_card) = Ok k ∧
    0 ≤ k ∧
    let d1 :=
      deck_with (deck_ s)
        (HanabiCard.Color old_card * HanabiGame.NumRanks (ParentGame s)
         + HanabiCard.Rank old_card) k (k + 1) in
    deck_wf (ParentGame s) d1 ∧
    HanabiDeck.CardCount d1 (HanabiCard.Color card) (HanabiCard.Rank card)
    = Ok n ∧
    0 ≤ n ∧
    SetHandCard s player card_index card
    = Ok (set_hands
            (set_deck s
               (if n =? 0 then d1
                else deck_with d1
                       (HanabiCard.Color card
                        * HanabiGame.NumRanks (ParentGame s)
                        + HanabiCard.Rank card) n (n - 1)))
            (<[Z.to_nat player := hand_with (ParentGame s) hand card_index card]>
               (hands_ s))).
Proof.
  intros Hwf Hplayer Hindex Hhand Hold Hold_range Hcard.
  pose proof (wf_deck _ Hwf) as Hdeck.
  pose proof (game_players _ (wf_game _ Hwf)) as Hplayers.
  pose proof (vec_at_size _ _ _ Hold) as Hi.
  destruct (AddCard_Ok _ _ _ _ Hdeck Hold_range) as (k & Hk & Hkpos & Hadd).
  exists k.
  set (d1 := deck_with (deck_ s) _ k (k + 1)) in *.
  assert (deck_wf (ParentGame s) d1) as Hdeck1.
  { apply deck_with_wf; [done| |lia]. by apply (CardCount_Ok _ _ _ _ _ Hdeck). }
  destruct (CardCount_defined _ d1 _ _ Hdeck1 Hcard) as (n & Hn & Hnpos).
  exists n. split; [done|]. split; [done|]. cbn zeta.
  split; [done|]. split; [done|]. split; [done|].
  unfold SetHandCard.
  rewrite (to_size_t_small player) by lia. rewrite (wf_hands _ Hwf).
  destruct (Z.leb_spec 0 player); [|lia].
  destruct (Z.ltb_spec player (HanabiGame.NumPlayers (ParentGame s))); [|lia].
  simpl. rewrite Hhand. simpl.
  rewrite (to_size_t_small card_index) by (unfold is_int in Hindex; lia).
  destruct (Z.leb_spec 0 card_index); [|lia].
  destruct (Z.ltb_spec card_index (size (HanabiHand.Cards hand))); [|lia].
  simpl. rewrite (in_range_valid _ _ Hcard). simpl. rewrite Hold. simpl.
  rewrite (in_range_valid _ _ Hold_range), Hadd. simpl.
  unfold HanabiHand.SetCard.
  assert (vec_set (hands_ s) player (hand_with (ParentGame s) hand card_index card)
          = Ok (<[Z.to_nat player := hand_with (ParentGame s) hand card_index card]>
                  (hands_ s))) as Hset.
  { apply vec_set_Ok. split; [by eapply vec_at_size | done]. }
  destruct (Z.eqb_spec n 0) as [->|Hne].
  - rewrite (DealCard_zero _ _ _ _ Hdeck1 Hn). simpl.
    rewrite Hold. simpl. unfold hand_with in Hset. by rewrite Hset.
  - rewrite (DealCard_positive _ _ _ _ n Hdeck1 Hcard Hn) by lia. simpl.
    rewrite Hold. simpl. unfold hand_with in Hset. by rewrite Hset.
Qed.

(** The count of [(c, r)] after the counter of [(c0, r0)] moved from [k] to
    [k']. *)
Lemma deck_with_count_indicator game d c0 r0 k k' c r n :
  deck_wf game d → in_range game c0 r0 → in_range game c r →
  HanabiDeck.CardCount d c0 r0 = Ok k →
  HanabiDeck.CardCount d c r = Ok n →
  HanabiDeck.CardCount
    (deck_with d (c0 * HanabiGame.NumRanks game + r0) k k') c r
  = Ok (n + (k' - k) * card_indicator c r (HanabiCard.mk c0 r0)).
Proof.
  intros Hwf Hcr0 Hcr Hk Hn.
  apply (CardCount_Ok _ _ _ _ _ Hwf) in Hk.
  rewrite (deck_with_count game) by (done || destruct Hcr; nia).
  rewrite (card_indicator_index_eq game) by done. simpl.
  case_decide as E.
  - apply (CardCount_Ok _ _ _ _ _ Hwf) in Hn. rewrite <- E, Hk in Hn.
    injection Hn as <-. f_equal. lia.
  - rewrite Hn. f_equal. lia.
Qed.

Lemma card_eta (card : HanabiCard.t) :
  HanabiCard.mk (HanabiCard.Color card) (HanabiCard.Rank card) = card.
Proof. by destruct card. Qed.

Lemma count_card_insert c r cards i old card :
  cards !! i = Some old →
  count_card c r (<[i := card]> cards)
  = count_card c r cards - card_indicator c r old + card_indicator c r card.
Proof.
  intros Hi. unfold count_card. rewrite list_fmap_insert.
  apply sumZ_insert. by rewrite list_lookup_fmap, Hi.
Qed.

(** X19.  [SetHandCard] checks its three preconditions before it touches
    the state: a player index outside the hands, a card index outside the
    hand of the player, or an invalid card each fails a REQUIRE. *)
Theorem SetHandCard_rejects s player card_index card
    (Hplayer : is_int player) (Hindex : is_int card_index)
    (Hhands : size (hands_ s) < 2 ^ 63) (Hsized : hands_sized s)
    (Hbad :
       ¬ 0 ≤ player < size (hands_ s)
       ∨ (∃ hand, vec_at (hands_ s) player = Ok hand ∧
                  ¬ 0 ≤ card_index < size (HanabiHand.Cards hand))
       ∨ HanabiCard.IsValid card = false) :
  SetHandCard s player card_index card = Fault RequireFailed.
Proof.
  unfold SetHandCard. unfold is_int in *.
  destruct (Z.leb_spec 0 player); simpl; [|done].
  rewrite (to_size_t_small player) by lia.
  destruct (Z.ltb_spec player (size (hands_ s))); simpl; [|done].
  destruct (vec_at_in_range (hands_ s) player) as [hand Hhand]; [lia|].
  rewrite Hhand. simpl.
  pose proof Hhand as [_ Hl]%vec_at_Ok.
  pose proof (Forall_lookup_1 _ _ _ _ Hsized Hl) as Hlt. simpl in Hlt.
  destruct (Z.leb_spec 0 card_index); simpl; [|done].
  rewrite (to_size_t_small card_index) by lia.
  destruct (Z.ltb_spec card_index (size (HanabiHand.Cards hand))); simpl;
    [|done].
  destruct Hbad as [Hbad|[(hand' & Hhand' & Hbad)|Hbad]].
  - lia.
  - assert (hand' = hand) as -> by congruence. lia.
  - by rewrite Hbad.
Qed.

Lemma SetHandCard_rejects_witness :
  is_int 0 ∧ is_int 2 ∧ size (hands_ small_dealt) < 2 ^ 63 ∧
  hands_sized small_dealt ∧
  SetHandCard small_dealt 0 2 (HanabiCard.mk 1 1) = Fault RequireFailed.
Proof.
  assert (is_int 0) as H0 by (vm_compute; intuition discriminate).
  assert (is_int 2) as H2 by (vm_compute; intuition discriminate).
  assert (size (hands_ small_dealt) < 2 ^ 63) as Hhands
    by (vm_compute; reflexivity).
  split; [exact H0|]. split; [exact H2|]. split; [exact Hhands|].
  split; [exact (proj2 small_dealt_wf)|].
  apply (SetHandCard_rejects small_dealt 0 2 (HanabiCard.mk 1 1) H0 H2 Hhands
           (proj2 small_dealt_wf)).
  right. left. eexists. split; [vm_compute; reflexivity|].
  vm_compute. intros [_ H]. discriminate H.
Defined.

(** X20.  Forcing a slot to the card it already holds changes neither the
    supply nor any card: the old card goes back to the supply and is drawn
    again; only the knowledge held with the slot is reset. *)
Theorem SetHandCard_same_card s player card_index hand card
    (Hwf : state_wf s)
    (Hplayer : 0 ≤ player < HanabiGame.NumPlayers (ParentGame s))
    (Hindex : is_int card_index)
    (Hhand : vec_at (hands_ s) player = Ok hand)
    (Hcard : vec_at (HanabiHand.Cards hand) card_index = Ok card)
    (Hrange :
       in_range (ParentGame s) (HanabiCard.Color card) (HanabiCard.Rank card)) :
  ∃ s', SetHandCard s player card_index card = Ok s' ∧
        deck_ s' = deck_ s ∧
        HanabiHand.Cards <$> hands_ s' = HanabiHand.Cards <$> hands_ s ∧
        hands_ s'
        = <[Z.to_nat player := hand_with (ParentGame s) hand card_index card]>
            (hands_ s) ∧
        s' = set_hands s (hands_ s').
Proof.
  destruct (SetHandCard_eq s player card_index card hand card
              Hwf Hplayer Hindex Hhand Hcard Hrange Hrange)
    as (k & n & Hk & Hkpos & Hdeck1 & Hn & Hnpos & Heq).
  cbn zeta in *. pose proof (wf_deck _ Hwf) as Hdeck.
  rewrite (deck_with_count_indicator _ _ _ _ _ _ _ _ k Hdeck Hrange Hrange Hk Hk)
    in Hn.
  rewrite card_eta in Hn. unfold card_indicator in Hn.
  rewrite decide_True in Hn by (by rewrite card_eta).
  injection Hn as <-.
  destruct (Z.eqb_spec (k + (k + 1 - k) * 1) 0); [lia|].
  replace (k + (k + 1 - k) * 1) with (k + 1) in Heq by lia.
  replace (k + 1 - 1) with k in Heq by lia.
  rewrite (deck_with_undo (ParentGame s)) in Heq;
    [|done|by apply (CardCount_Ok _ _ _ _ _ Hdeck)].
  eexists. split; [exact Heq|]. simpl. split; [done|]. split; [|split].
  - rewrite list_fmap_insert. apply list_insert_id.
    apply vec_at_Ok in Hhand as [_ Hhand]. rewrite list_lookup_fmap, Hhand.
    simpl. f_equal. symmetry. apply list_insert_id.
    by apply vec_at_Ok in Hcard as [_ ?].
  - done.
  - by destruct s.
Qed.

Lemma SetHandCard_same_card_witness :
  state_wf small_dealt ∧
  ∃ s', SetHandCard small_dealt 1 0 (HanabiCard.mk 1 0) = Ok s' ∧
        deck_ s' = deck_ small_dealt ∧
        HanabiHand.Cards <$> hands_ s' = HanabiHand.Cards <$> hands_ small_dealt.
Proof.
  split; [exact (proj1 small_dealt_wf)|].
  assert (0 ≤ 1 < HanabiGame.NumPlayers (ParentGame small_dealt)) as Hplayer
    by (vm_compute; intuition discriminate).
  assert (is_int 0) as Hint by (vm_compute; intuition discriminate).
  assert (in_range (ParentGame small_dealt) 1 0) as Hrange
    by (vm_compute; intuition discriminate).
  assert (∃ hand, vec_at (hands_ small_dealt) 1 = Ok hand ∧
                  vec_at (HanabiHand.Cards hand) 0 = Ok (HanabiCard.mk 1 0))
    as (hand & Hhand & Hcard) by (eexists; split; vm_compute; reflexivity).
  destruct (SetHandCard_same_card small_dealt 1 0 hand (HanabiCard.mk 1 0)
              (proj1 small_dealt_wf) Hplayer Hint Hhand Hcard Hrange)
    as (s' & Hset & Hdeck & Hcards & _).
  exists s'. split; [exact Hset|]. split; [exact Hdeck | exact Hcards].
Defined.

Lemma card_indicator_range c r card : 0 ≤ card_indicator c r card ≤ 1.
Proof. unfold card_indicator. destruct (decide _); lia. Qed.

(** X21.  The balance of cards under [SetHandCard].  When the requested
    identity is available (its count in the supply is positive, or it is
    the card the slot holds), the copies of every identity in the supply,
    the hands, the discard pile and the fireworks add up after the call as
    they did before.  When it is not available the card is put into the
    slot all the same and nothing is drawn: the copies of the requested
    identity then add up to one more than before. *)
Theorem SetHandCard_balance s player card_index card hand old_card c r total
    (Hwf : state_wf s)
    (Hplayer : 0 ≤ player < HanabiGame.NumPlayers (ParentGame s))
    (Hindex : is_int card_index)
    (Hhand : vec_at (hands_ s) player = Ok hand)
    (Hold : vec_at (HanabiHand.Cards hand) card_index = Ok old_card)
    (Hold_range :
       in_range (ParentGame s)
         (HanabiCard.Color old_card) (HanabiCard.Rank old_card))
    (Hcard :
       in_range (ParentGame s) (HanabiCard.Color card) (HanabiCard.Rank card))
    (Hcr : in_range (ParentGame s) c r)
    (Htotal :
       ∃ n, HanabiDeck.CardCount (deck_ s) c r = Ok n ∧
            n + count_in_hands c r (hands_ s)
              + count_card c r (discard_pile_ s)
              + in_fireworks c r (fireworks_ s) = total) :
  ∃ s' available n',
    SetHandCard s player card_index card = Ok s' ∧
    HanabiDeck.CardCount (deck_ s)
      (HanabiCard.Color card) (HanabiCard.Rank card) = Ok available ∧
    HanabiDeck.CardCount (deck_ s') c r = Ok n' ∧ 0 ≤ n' ∧
    n' + count_in_hands c r (hands_ s')
       + count_card c r (discard_pile_ s')
       + in_fireworks c r (fireworks_ s')
    = total + (if decide (available = 0 ∧ card ≠ old_card)
               then card_indicator c r card else 0).
Proof.
  destruct Htotal as (n0 & Hn0 & Hsum).
  pose proof (wf_deck _ Hwf) as Hdeck.
  destruct (SetHandCard_eq s player card_index card hand old_card
              Hwf Hplayer Hindex Hhand Hold Hold_range Hcard)
    as (k & n & Hk & Hkpos & Hdeck1 & Hn & Hnpos & Heq).
  cbn zeta in *.
  set (d1 := deck_with (deck_ s) _ k (k + 1)) in *.
  destruct (CardCount_defined _ _ _ _ Hdeck Hcard) as (available & Hav & Havpos).
  destruct (CardCount_defined _ _ _ _ Hdeck Hcr) as (n0' & Hn0' & Hn0pos).
  assert (n0' = n0) as -> by congruence.
  (* the supply after the old card went back *)
  assert (∀ c' r' m, in_range (ParentGame s) c' r' →
            HanabiDeck.CardCount (deck_ s) c' r' = Ok m →
            HanabiDeck.CardCount d1 c' r'
            = Ok (m + card_indicator c' r' old_card)) as Hd1.
  { intros c' r' m Hcr' Hm. unfold d1.
    rewrite (deck_with_count_indicator _ _ _ _ _ _ _ _ m Hdeck Hold_range Hcr' Hk Hm).
    rewrite card_eta. f_equal. lia. }
  pose proof (Hd1 _ _ _ Hcard Hav) as Hn'. rewrite Hn in Hn'.
  injection Hn' as ->.
  assert (card_indicator (HanabiCard.Color card) (HanabiCard.Rank card) old_card
          = if decide (card = old_card) then 1 else 0) as Hsame.
  { unfold card_indicator. rewrite card_eta.
    repeat case_decide; congruence. }
  rewrite Hsame in *.
  pose proof (Hd1 _ _ _ Hcr Hn0) as Hc1.
  apply vec_at_Ok in Hhand as [_ Hhand'].
  apply vec_at_Ok in Hold as [_ Hold'].
  assert (count_in_hands c r
            (<[Z.to_nat player := hand_with (ParentGame s) hand card_index card]>
               (hands_ s))
          = count_in_hands c r (hands_ s)
            - card_indicator c r old_card + card_indicator c r card) as Hhands.
  { rewrite (count_in_hands_insert _ _ _ _ hand) by done. simpl.
    rewrite (count_card_insert _ _ _ _ old_card) by done. lia. }
  destruct (Z.eqb_spec (available + (if decide (card = old_card) then 1 else 0)) 0)
    as [Hzero|Hpos].
  - (* not available: nothing is drawn *)
    eexists _, available, _. split; [exact Heq|]. split; [done|]. simpl.
    rewrite Hhands, Hc1. split; [done|].
    pose proof (card_indicator_range c r old_card).
    split; [lia|].
    rewrite decide_True
      by (destruct (decide (card = old_card)); [lia | split; [lia|done]]).
    lia.
  - (* available: one card of the identity is drawn *)
    set (m := available + (if decide (card = old_card) then 1 else 0)) in *.
    eexists _, available, _. split; [exact Heq|]. split; [done|]. simpl.
    rewrite Hhands.
    rewrite (deck_with_count_indicator _ d1 _ _ m (m - 1) _ _ _
               Hdeck1 Hcard Hcr Hn Hc1).
    rewrite card_eta. split; [done|].
    rewrite decide_False
      by (intros [Ha Hne]; unfold m in Hpos;
          rewrite decide_False in Hpos by done; lia).
    pose proof (card_indicator_range c r old_card).
    split; [|lia].
    unfold card_indicator at 2.
    destruct (decide (card = HanabiCard.mk c r)) as [Hcard_cr|_]; [|lia].
    (* [card] is the identity [(c, r)]: its count in [d1] is [m] *)
    subst card. simpl in *.
    assert (n0 + card_indicator c r old_card = m) by congruence. lia.
Qed.

Lemma SetHandCard_balance_witness :
  state_wf small_dealt ∧ in_range (ParentGame small_dealt) 1 1 ∧
  ∃ s' n',
    SetHandCard small_dealt 0 0 (HanabiCard.mk 1 1) = Ok s' ∧
    HanabiDeck.CardCount (deck_ s') 1 1 = Ok n' ∧
    n' + count_in_hands 1 1 (hands_ s')
       + count_card 1 1 (discard_pile_ s')
       + in_fireworks 1 1 (fireworks_ s') = 2.
Proof.
  assert (in_range (ParentGame small_dealt) 1 1) as Hcr
    by (vm_compute; intuition discriminate).
  assert (in_range (ParentGame small_dealt) 0 0) as Hold
    by (vm_compute; intuition discriminate).
  assert (0 ≤ 0 < HanabiGame.NumPlayers (ParentGame small_dealt)) as Hplayer
    by (vm_compute; intuition discriminate).
  assert (is_int 0) as Hint by (vm_compute; intuition discriminate).
  assert (∃ hand, vec_at (hands_ small_dealt) 0 = Ok hand ∧
                  vec_at (HanabiHand.Cards hand) 0 = Ok (HanabiCard.mk 0 0))
    as (hand & Hhand & Hcard) by (eexists; split; vm_compute; reflexivity).
  split; [exact (proj1 small_dealt_wf)|]. split; [exact Hcr|].
  destruct (SetHandCard_balance small_dealt 0 0 (HanabiCard.mk 1 1) hand
              (HanabiCard.mk 0 0) 1 1 1 (proj1 small_dealt_wf) Hplayer Hint
              Hhand Hcard Hold Hcr Hcr
              ltac:(eexists; split; vm_compute; reflexivity))
    as (s' & available & n' & Hset & Hav & Hn' & _ & Hsum).
  exists s', n'. split; [exact Hset|]. split; [exact Hn'|].
  vm_compute in Hav. injection Hav as <-. exact Hsum.
Defined.

(** ** What every reachable state satisfies *)

(** X22.  The shape of every reachable state: it keeps the configuration it
    was built for; there is one hand per player and one fireworks counter
    per color; the current actor is the chance actor or a player and the
    next player is a player; no hand holds more than the full hand size and
    every card in a hand is an identity of the game; every fireworks counter
    is between 0 and the number of ranks; and the supply has one
    non-negative counter per identity whose sum is its size. *)
Theorem reachable_state_invariant game s
    (Hgame : game_wf game) (Hreach : reachable game s) :
  parent_game_ s = game ∧
  size (hands_ s) = HanabiGame.NumPlayers game ∧
  size (fireworks_ s) = HanabiGame.NumColors game ∧
  (cur_player_ s = kChancePlayerId
   ∨ 0 ≤ cur_player_ s < HanabiGame.NumPlayers game) ∧
  0 ≤ next_non_chance_player_ s < HanabiGame.NumPlayers game ∧
  Forall (λ hand,
            size (HanabiHand.Cards hand) ≤ HanabiGame.HandSize game ∧
            Forall (λ card, in_range game
                              (HanabiCard.Color card) (HanabiCard.Rank card))
              (HanabiHand.Cards hand)) (hands_ s) ∧
  Forall (λ progress, 0 ≤ progress ≤ HanabiGame.NumRanks game) (fireworks_ s) ∧
  deck_wf game (deck_ s).
Proof.
  pose proof (reachable_parent_game _ _ Hgame Hreach) as Hg.
  destruct (reachable_play_inv _ _ Hgame Hreach)
    as [[_ Hdeck Hhands Hcur Hnext Hfw] Hsizes Hcards Hprogress].
  unfold ParentGame in *. rewrite Hg in *.
  split; [done|]. split; [done|]. split; [done|]. split; [done|].
  split; [done|]. split; [|done].
  apply Forall_forall. intros hand Hin. split.
  - by apply (proj1 (Forall_forall _ _) Hsizes).
  - by apply (proj1 (Forall_forall _ _) Hcards).
Qed.

Lemma reachable_state_invariant_witness :
  game_wf small_game ∧ reachable small_game small_hinted ∧
  size (hands_ small_hinted) = 2 ∧ cur_player_ small_hinted = 1.
Proof.
  split; [exact small_game_wf|]. split; [exact small_hinted_reachable|].
  destruct (reachable_state_invariant small_game small_hinted small_game_wf
              small_hinted_reachable) as (_ & Hhands & _).
  split; [exact Hhands | reflexivity].
Defined.

Lemma deal_due_frame s s' :
  deck_ s' = deck_ s → hands_ s' = hands_ s → parent_game_ s' = parent_game_ s →
  deal_due s' ↔ deal_due s.
Proof.
  intros Hd Hh Hg. unfold deal_due, ParentGame. by rewrite Hd, Hh, Hg.
Qed.

Lemma ApplyMove_actor s m s' :
  state_wf s → ApplyMove s m = Ok s' →
  cur_player_ s' = kChancePlayerId ↔ deal_due s'.
Proof.
  intros Hwf (_ & s1 & h & Heffect & Hadvance)%ApplyMove_Ok.
  pose proof (before_effect_frame s)
    as (Hg0 & _ & _ & Hh0 & _ & _ & Hn0 & _).
  pose proof (apply_effect_frame _ _ _ _ _ Heffect)
    as (Hg1 & _ & Hn1 & _ & Hs1).
  set (s2 := set_move_history s1 (move_history_ s1 ++ [h])) in *.
  destruct (AdvanceToNextPlayer_spec s2 s') as [Hiff _]; try done.
  { unfold ParentGame. simpl. rewrite Hg1, Hg0. apply Hwf. }
  { unfold ParentGame. simpl. rewrite Hs1, Hh0, Hg1, Hg0. apply Hwf. }
  { unfold ParentGame. simpl. rewrite Hn1, Hn0, Hg1, Hg0. apply Hwf. }
  rewrite Hiff.
  apply AdvanceToNextPlayer_frame in Hadvance as (Hg' & Hd' & _ & Hh' & _).
  symmetry. by apply deal_due_frame.
Qed.

(** The chance actor is current only when a card can be dealt to someone,
    and a player is current only when no deal is due. *)
Lemma reachable_actor game s :
  game_wf game → 0 < HanabiGame.HandSize game → reachable game s →
  (cur_player_ s = kChancePlayerId → 0 ≤ PlayerToDeal s) ∧
  (cur_player_ s ≠ kChancePlayerId → ¬ deal_due s).
Proof.
  intros Hgame Hsize Hreach.
  pose proof (game_hand_size _ Hgame) as Hhs.
  pose proof (game_players _ Hgame) as Hplayers.
  destruct Hreach as [start s Hnew|s m s' Hreach Happly].
  - destruct (new_state_Ok _ _ _ Hgame Hnew)
      as (Hg & _ & _ & Hhands & Hcur & _).
    split; [|done]. intros _. unfold PlayerToDeal, ParentGame.
    rewrite Hhands, Hg.
    destruct (Z.to_nat (HanabiGame.NumPlayers game)) eqn:E; [lia|]. simpl.
    rewrite to_size_t_small by lia. unfold size. simpl.
    change (Z.of_nat 0) with 0.
    by destruct (Z.ltb_spec 0 (HanabiGame.HandSize game)); [|lia].
  - pose proof (reachable_play_inv _ _ Hgame Hreach) as [Hwf _ _ _].
    pose proof (ApplyMove_actor _ _ _ Hwf Happly) as Hiff.
    pose proof (reachable_parent_game _ _ Hgame
                  (reachable_apply _ _ _ _ Hreach Happly)) as Hg.
    split; [|by rewrite <- Hiff].
    intros [_ Hshort]%Hiff. unfold PlayerToDeal.
    apply PlayerToDeal_from_spec; [lia| |done].
    unfold ParentGame. rewrite Hg. lia.
Qed.

(** X23.  Players move with full hands: in every reachable state in which a
    player is the current actor, either the supply is empty or every hand
    holds exactly the full hand size. *)
Theorem players_move_with_full_hands game s
    (Hgame : game_wf game) (Hreach : reachable game s)
    (Hplayer : cur_player_ s ≠ kChancePlayerId) :
  HanabiDeck.Empty (deck_ s) = true
  ∨ Forall (λ hand, size (HanabiHand.Cards hand) = HanabiGame.HandSize game)
      (hands_ s).
Proof.
  pose proof (reachable_parent_game _ _ Hgame Hreach) as Hg.
  pose proof (reachable_play_inv _ _ Hgame Hreach) as [_ Hsizes _ _].
  assert (¬ deal_due s) as Hno.
  { destruct Hreach as [start s Hnew|s m s' Hreach Happly].
    - by destruct (new_state_Ok _ _ _ Hgame Hnew) as (_ & _ & _ & _ & ? & _).
    - pose proof (reachable_play_inv _ _ Hgame Hreach) as [Hwf _ _ _].
      by rewrite <- (ApplyMove_actor _ _ _ Hwf Happly). }
  destruct (HanabiDeck.Empty (deck_ s)) eqn:Hempty; [by left|right].
  unfold ParentGame in *. rewrite Hg in *.
  apply Forall_forall. intros hand Hin.
  pose proof (proj1 (Forall_forall _ _) Hsizes hand Hin) as Hle. simpl in Hle.
  destruct (Z.eq_dec (size (HanabiHand.Cards hand)) (HanabiGame.HandSize game))
    as [?|Hne]; [done|].
  exfalso. apply Hno. split; [done|]. exists hand. split; [done|].
  unfold ParentGame. rewrite Hg. lia.
Qed.

Lemma players_move_with_full_hands_witness :
  game_wf small_game ∧ reachable small_game small_dealt ∧
  cur_player_ small_dealt ≠ kChancePlayerId ∧
  HanabiDeck.Empty (deck_ small_dealt) = true.
Proof.
  assert (cur_player_ small_dealt ≠ kChancePlayerId) as Hplayer
    by (vm_compute; discriminate).
  split; [exact small_game_wf|]. split; [exact small_dealt_reachable|].
  split; [exact Hplayer|].
  destruct (players_move_with_full_hands small_game small_dealt small_game_wf
              small_dealt_reachable Hplayer) as [Hempty|_];
    [exact Hempty | reflexivity].
Defined.

Lemma sumZ_full (v : list Z) (b : Z) :
  Forall (λ x, 0 ≤ x ≤ b) v → size v * b ≤ sumZ v → Forall (λ x, x = b) v.
Proof.
  induction v as [|x v IH]; intros Hall Hsum; [constructor|].
  apply Forall_cons in Hall as [Hx Hall].
  pose proof (sumZ_le_bound v b Hall) as Hle.
  unfold size in *. simpl in Hsum. rewrite Nat2Z.inj_succ in Hsum.
  apply Forall_cons_2; [lia|]. apply IH; [done|]. unfold size. lia.
Qed.

(** X24.  The score in play: in every reachable state the score is between
    0 and NumColors x NumRanks, and [EndOfGameStatus] reports completed
    fireworks exactly when a life token is left and every fireworks counter
    stands at the number of ranks. *)
Theorem reachable_score game s
    (Hgame : game_wf game) (Hreach : reachable game s) :
  0 ≤ Score s ≤ HanabiGame.NumColors game * HanabiGame.NumRanks game ∧
  (EndOfGameStatus s = kCompletedFireworks
   ↔ 0 < life_tokens_ s
     ∧ Forall (λ progress, progress = HanabiGame.NumRanks game) (fireworks_ s)).
Proof.
  pose proof (reachable_parent_game _ _ Hgame Hreach) as Hg.
  pose proof (reachable_play_inv _ _ Hgame Hreach) as Hinv.
  pose proof (play_inv_fireworks_total _ Hinv) as Htotal.
  destruct Hinv as [[_ _ _ _ _ Hsize] _ _ Hfw].
  pose proof (reachable_tokens_in_range _ _ Hgame Hreach) as [_ Hlife].
  unfold ParentGame in *. rewrite Hg in *.
  assert (0 ≤ sumZ (fireworks_ s)) as Hpos.
  { apply sumZ_nonneg. eapply Forall_impl; [exact Hfw|]. simpl. lia. }
  pose proof (game_colors _ Hgame). pose proof (game_ranks _ Hgame).
  split.
  - unfold Score, LifeTokens. rewrite accumulate_sumZ.
    destruct (Z.leb_spec (life_tokens_ s) 0); [nia|lia].
  - unfold EndOfGameStatus, Score, LifeTokens, ParentGame.
    rewrite accumulate_sumZ, Hg.
    destruct (Z.ltb_spec (life_tokens_ s) 1) as [Hout|Hin].
    { split; [done|lia]. }
    destruct (Z.leb_spec (life_tokens_ s) 0); [lia|].
    rewrite Z.geb_leb.
    destruct (Z.leb_spec (HanabiGame.NumColors game * HanabiGame.NumRanks game)
                (sumZ (fireworks_ s))) as [Hfull|Hless].
    + split; [|done]. intros _. split; [lia|].
      apply sumZ_full; [done|]. by rewrite Hsize.
    + split; [by destruct (_ <=? _)|]. intros [_ Hall]. exfalso.
      assert (sumZ (fireworks_ s)
              = size (fireworks_ s) * HanabiGame.NumRanks game) as E.
      { clear -Hall. induction (fireworks_ s) as [|x v IH]; [done|].
        apply Forall_cons in Hall as [-> Hall]. unfold size in *. simpl.
        rewrite IH by done. lia. }
      rewrite Hsize in E. lia.
Qed.

Lemma reachable_score_witness :
  game_wf small_game ∧ reachable small_game small_misplayed ∧
  Score small_misplayed = 0 ∧
  EndOfGameStatus small_misplayed ≠ kCompletedFireworks.
Proof.
  split; [exact small_game_wf|]. split; [exact small_misplayed_reachable|].
  destruct (reachable_score small_game small_misplayed small_game_wf
              small_misplayed_reachable) as [_ Hiff].
  split; [reflexivity|]. intros Hdone.
  destruct (proj1 Hiff Hdone) as [Hlife _]. vm_compute in Hlife.
  discriminate Hlife.
Defined.

(** ** Legal moves apply *)

Lemma apply_effect_Discard_Ok s i h hand card :
  information_tokens_ s < HanabiGame.MaxInformationTokens (ParentGame s) →
  vec_at (hands_ s) (cur_player_ s) = Ok hand →
  vec_at (HanabiHand.Cards hand) i = Ok card →
  ∃ s1 h1, apply_effect s (HanabiMove.Discard i) h = Ok (s1, h1) ∧
           size (hands_ s1) = size (hands_ s).
Proof.
  intros Hinfo Hhand Hcard.
  unfold apply_effect, IncrementInformationTokens. simpl.
  destruct (Z.ltb_spec (information_tokens_ s)
              (HanabiGame.MaxInformationTokens (ParentGame s))); [|lia].
  simpl. rewrite Hhand. simpl. rewrite Hcard. simpl.
  unfold HanabiHand.RemoveFromHand. rewrite Hcard. simpl.
  rewrite (proj2 (vec_set_Ok (hands_ s) _ (cur_player_ s) _)
             (conj (vec_at_size _ _ _ Hhand) eq_refl)). simpl.
  eexists _, _. split; [done|]. simpl. unfold size. by rewrite length_insert.
Qed.

Lemma apply_effect_Deal_Ok s c r h n :
  deck_wf (ParentGame s) (deck_ s) → in_range (ParentGame s) c r →
  HanabiDeck.CardCount (deck_ s) c r = Ok n → 0 < n →
  0 ≤ PlayerToDeal s < size (hands_ s) →
  ∃ s1 h1, apply_effect s (HanabiMove.Deal c r) h = Ok (s1, h1) ∧
           size (hands_ s1) = size (hands_ s).
Proof.
  intros Hdeck Hcr Hn Hpos Hp.
  destruct (vec_at_in_range _ _ Hp) as [hand Hhand].
  unfold apply_effect. simpl.
  rewrite (DealCard_positive _ _ _ _ n Hdeck Hcr Hn Hpos). simpl.
  rewrite Hhand. simpl.
  rewrite (proj2 (vec_set_Ok (hands_ s) _ (PlayerToDeal s) _)
             (conj Hp eq_refl)). simpl.
  eexists _, _. split; [done|]. simpl. unfold size. by rewrite length_insert.
Qed.

Lemma play_inv_before_effect s : play_inv s → play_inv (before_effect s).
Proof.
  intros [[? ? ? ? ? ?] ? ? ?].
  pose proof (before_effect_frame s)
    as (Hg0 & Hd0 & _ & Hh0 & _ & Hc0 & Hn0 & _ & _ & Hf0).
  unfold ParentGame in *.
  split; [split|..]; unfold ParentGame;
    rewrite ?Hg0, ?Hd0, ?Hh0, ?Hc0, ?Hn0, ?Hf0; done.
Qed.

(** X25.  No legal move faults while the game is alive.  In a game with a
    full hand size between 1 and 8, in every reachable state, a move that
    [MoveIsLegal] accepts is applied by [ApplyMove] without a fault,
    provided that a Deal names an identity of the game and that a life
    token is left when a card is played. *)
Theorem legal_moves_apply game s m
    (Hgame : game_wf game)
    (Hsize : 0 < HanabiGame.HandSize game ≤ 8)
    (Hreach : reachable game s)
    (Hm : move_wf m)
    (Hlegal : MoveIsLegal s m = Ok true)
    (Hdeal : HanabiMove.MoveType m = HanabiMove.kDeal →
             in_range game (HanabiMove.Color m) (HanabiMove.Rank m))
    (Hlife : HanabiMove.MoveType m = HanabiMove.kPlay → 0 < life_tokens_ s) :
  ∃ s', ApplyMove s m = Ok s'.
Proof.
  pose proof (reachable_parent_game _ _ Hgame Hreach) as Hg.
  pose proof (reachable_play_inv _ _ Hgame Hreach) as Hinv.
  pose proof (play_inv_hands_sized _ Hinv) as Hsized.
  pose proof (play_inv_before_effect _ Hinv) as Hinv0.
  pose proof Hinv as [Hwf Hsizes _ _].
  pose proof (before_effect_fields s)
    as (Hh0 & Hc0 & Hf0 & Hg0 & Hl0 & Hi0 & Hd0 & Hk0 & Hm0 & _).
  pose proof (wf_hands _ Hwf) as Hhands.
  pose proof (game_players _ Hgame) as Hplayers.
  unfold ParentGame in Hhands. rewrite Hg in Hhands.
  set (h0 := mkHistory m (cur_player_ (before_effect s))
               false false (-1) (-1) 0 0 (-1)).
  assert (∀ s1 h1, apply_effect (before_effect s) m h0 = Ok (s1, h1) →
                   size (hands_ s1) = size (hands_ s) →
                   ∃ s', ApplyMove s m = Ok s') as Hdone.
  { intros s1 h1 Heffect Hs1.
    destruct (ApplyMove_from_effect s m s1 h1 Hlegal Heffect) as (s' & ? & _);
      [rewrite Hs1; lia | by exists s']. }
  destruct m as [type i offset c r]. destruct type; simpl in *.
  - (* kInvalid *) discriminate.
  - (* kPlay *)
    destruct Hm as [Hi _ _ _]. simpl in Hi.
    destruct (legal_play_card s i Hsized Hi Hlegal)
      as (hand & card & Hhand & Hcard & _).
    rewrite <- Hh0, <- Hc0 in Hhand.
    pose proof (wf_fireworks _ (play_wf _ Hinv0)) as Hfw0.
    destruct (decide (plays_on_fireworks (before_effect s) card)) as [Hyes|Hno].
    + destruct (apply_effect_Play_scored (before_effect s) i h0 hand card
                  Hfw0 Hhand Hcard Hyes) as (s1 & h1 & Heffect & Hh1 & _).
      apply (Hdone s1 h1 Heffect). rewrite Hh1, Hh0. unfold size.
      by rewrite length_insert.
    + pose proof (apply_effect_Play_failed (before_effect s) i h0 hand card
                    Hfw0 Hhand Hcard Hno) as Heffect.
      rewrite Hl0 in Heffect.
      destruct (Z.ltb_spec 0 (life_tokens_ s)); [|specialize (Hlife eq_refl); lia].
      destruct Heffect as (s1 & h1 & Heffect & Hh1 & _).
      apply (Hdone s1 h1 Heffect). rewrite Hh1, Hh0. unfold size.
      by rewrite length_insert.
  - (* kDiscard *)
    destruct Hm as [Hi _ _ _]. simpl in Hi.
    destruct (legal_discard_card s i Hsized Hi Hlegal)
      as (Hinfo & hand & card & Hhand & Hcard & _).
    destruct (apply_effect_Discard_Ok (before_effect s) i h0 hand card)
      as (s1 & h1 & Heffect & Hs1).
    { unfold ParentGame in *. by rewrite Hi0, Hg0. }
    { by rewrite Hh0, Hc0. }
    { done. }
    apply (Hdone s1 h1 Heffect). by rewrite Hs1, Hh0.
  - (* kRevealColor *)
    destruct (legal_hint_target s
                (HanabiMove.mk HanabiMove.kRevealColor i offset c r)
                Hwf (or_introl eq_refl) Hlegal)
      as (Hinfo & hand & Htarget & Hhand).
    simpl in *.
    assert (size (HanabiHand.Cards hand) ≤ 8) as Hcards.
    { unfold target_hand in Htarget.
      pose proof (Forall_lookup_1 _ _ _ _ Hsizes Htarget) as Hle. simpl in Hle.
      unfold ParentGame in Hle. rewrite Hg in Hle. lia. }
    apply (hint_bitmask_defined hand
             (HanabiMove.mk HanabiMove.kRevealColor i offset c r))
      in Hcards as [mask Hmask].
    pose proof (apply_effect_hint (before_effect s)
                  (HanabiMove.mk HanabiMove.kRevealColor i offset c r) h0 _ hand
                  (or_introl eq_refl) ltac:(by rewrite Hi0)
                  ltac:(unfold HandByOffset in *; by rewrite Hh0, Hc0))
      as Heffect.
    rewrite Hmask in Heffect. simpl in Heffect.
    eapply Hdone; [exact Heffect|]. simpl. unfold size.
    by rewrite length_insert, Hh0.
  - (* kRevealRank *)
    destruct (legal_hint_target s
                (HanabiMove.mk HanabiMove.kRevealRank i offset c r)
                Hwf (or_intror eq_refl) Hlegal)
      as (Hinfo & hand & Htarget & Hhand).
    simpl in *.
    assert (size (HanabiHand.Cards hand) ≤ 8) as Hcards.
    { unfold target_hand in Htarget.
      pose proof (Forall_lookup_1 _ _ _ _ Hsizes Htarget) as Hle. simpl in Hle.
      unfold ParentGame in Hle. rewrite Hg in Hle. lia. }
    apply (hint_bitmask_defined hand
             (HanabiMove.mk HanabiMove.kRevealRank i offset c r))
      in Hcards as [mask Hmask].
    pose proof (apply_effect_hint (before_effect s)
                  (HanabiMove.mk HanabiMove.kRevealRank i offset c r) h0 _ hand
                  (or_intror eq_refl) ltac:(by rewrite Hi0)
                  ltac:(unfold HandByOffset in *; by rewrite Hh0, Hc0))
      as Heffect.
    rewrite Hmask in Heffect. simpl in Heffect.
    eapply Hdone; [exact Heffect|]. simpl. unfold size.
    by rewrite length_insert, Hh0.
  - (* kDeal *)
    specialize (Hdeal eq_refl). rewrite <- Hg in Hdeal.
    destruct (legal_deal s c r (wf_deck _ Hwf) Hdeal Hlegal)
      as (Hcur & n & Hn & Hpos).
    destruct (reachable_actor _ _ Hgame ltac:(lia) Hreach) as [Hto _].
    specialize (Hto Hcur).
    pose proof (game_hand_size _ Hgame) as Hhs.
    destruct (PlayerToDeal_range s) as [Hnone|Hsome];
      [unfold ParentGame; rewrite Hg; lia | lia |].
    destruct (apply_effect_Deal_Ok (before_effect s) c r h0 n)
      as (s1 & h1 & Heffect & Hs1).
    { unfold ParentGame. rewrite Hg0, Hk0. apply Hwf. }
    { unfold ParentGame. by rewrite Hg0. }
    { by rewrite Hk0. }
    { done. }
    { unfold PlayerToDeal, ParentGame in *. by rewrite Hh0, Hg0. }
    apply (Hdone s1 h1 Heffect). by rewrite Hs1, Hh0.
Qed.

Lemma legal_moves_apply_witness :
  game_wf small_game ∧ 0 < HanabiGame.HandSize small_game ≤ 8 ∧
  reachable small_game small_hinted ∧
  move_wf (HanabiMove.Discard 1) ∧
  MoveIsLegal small_hinted (HanabiMove.Discard 1) = Ok true ∧
  ∃ s', ApplyMove small_hinted (HanabiMove.Discard 1) = Ok s'.
Proof.
  assert (0 < HanabiGame.HandSize small_game ≤ 8) as Hsize
    by (vm_compute; intuition discriminate).
  assert (move_wf (HanabiMove.Discard 1)) as Hm
    by (split; vm_compute; intuition discriminate).
  assert (MoveIsLegal small_hinted (HanabiMove.Discard 1) = Ok true) as Hlegal
    by (vm_compute; reflexivity).
  split; [exact small_game_wf|]. split; [exact Hsize|].
  split; [exact small_hinted_reachable|]. split; [exact Hm|].
  split; [exact Hlegal|].
  apply (legal_moves_apply small_game small_hinted (HanabiMove.Discard 1)
           small_game_wf Hsize small_hinted_reachable Hm Hlegal).
  - intros H. discriminate H.
  - intros H. discriminate H.
Defined.

(** ** A fresh state *)



(** ** The unreachable abort *)














